(** * GeekCMS plugin sequencing: [geekcms/sequence_analyze.py]

    A shallow embedding of the two classes of the module, [_Algorithm]
    (normalisation of relation expressions, relation groups, chains and the
    elimination loop that produces the execution order) and [SequenceParser]
    (qualification of operands and the per-theme store), followed by the
    properties of the design document that concern them. *)

From Stdlib Require Import String Ascii ZArith Bool Arith Lia Permutation.
From Stdlib Require Import Sorted ListDec List.
Import ListNotations.

Set Implicit Arguments.

(** ** Python values *)

(** Equality of Python values ([==]) for the types used as dictionary keys
    and list elements. *)
Class PyEq (A : Type) : Type := {
  py_eqb : A -> A -> bool;
  py_eqb_spec : forall a b, reflect (a = b) (py_eqb a b)
}.

#[export] Instance PyEq_string : PyEq string :=
  {| py_eqb := String.eqb; py_eqb_spec := String.eqb_spec |}.

Lemma py_eqb_refl {A} `{PyEq A} (a : A) : py_eqb a a = true.
Proof. destruct (py_eqb_spec a a); congruence. Qed.

Lemma py_eqb_eq {A} `{PyEq A} (a b : A) : py_eqb a b = true <-> a = b.
Proof. destruct (py_eqb_spec a b); split; congruence. Qed.

Lemma py_eqb_neq {A} `{PyEq A} (a b : A) : py_eqb a b = false <-> a <> b.
Proof. destruct (py_eqb_spec a b); split; congruence. Qed.

(** Modelled from the spec: [protocol.PluginIndex] is not part of the
    sources at hand.  A Plugin Identity is the pair (namespace, name); the
    sentinels carry no namespace ([theme_name] is [None]); equality is by
    value. *)
Record PluginIndex : Type := mkIndex {
  theme_name : option string;
  plugin_name : string
}.

Definition PluginIndex_eqb (x y : PluginIndex) : bool :=
  match theme_name x, theme_name y with
  | Some s, Some t => String.eqb s t
  | None, None => true
  | _, _ => false
  end && String.eqb (plugin_name x) (plugin_name y).

Lemma PluginIndex_eqb_spec x y : reflect (x = y) (PluginIndex_eqb x y).
Proof.
  destruct x as [[s|] p], y as [[t|] q]; unfold PluginIndex_eqb; simpl;
    try (right; congruence);
    try destruct (String.eqb_spec s t); simpl;
    try destruct (String.eqb_spec p q); simpl;
    try (left; congruence); right; congruence.
Qed.

#[export] Instance PyEq_PluginIndex : PyEq PluginIndex :=
  {| py_eqb := PluginIndex_eqb; py_eqb_spec := PluginIndex_eqb_spec |}.

(** Modelled from the spec: [parser.utils.PluginRel] is not part of the
    sources at hand.  A relation is a direction flag and an integer degree. *)
Record PluginRel : Type := mkRel {
  is_left_rel : bool;
  degree : Z
}.

Definition PluginRel_eqb (r s : PluginRel) : bool :=
  Bool.eqb (is_left_rel r) (is_left_rel s) && Z.eqb (degree r) (degree s).

Lemma PluginRel_eqb_spec r s : reflect (r = s) (PluginRel_eqb r s).
Proof.
  destruct r as [b d], s as [c e]; unfold PluginRel_eqb; simpl.
  destruct (Bool.eqb_spec b c); simpl; [| right; congruence].
  destruct (Z.eqb_spec d e); [left | right]; congruence.
Qed.

(** Modelled from the spec: [parser.utils.PluginExpr] is not part of the
    sources at hand.  A relation expression is a left operand, a right
    operand and a relation, or no relation for a bare name.  Operands are
    name strings as parsed and Plugin Identities once qualified.  Every
    expression owns its relation: the parser builds one per directive. *)
Record PluginExpr (A : Type) : Type := mkExpr {
  left_operand : A;
  right_operand : A;
  relation : option PluginRel
}.

Arguments mkExpr {A} _ _ _.

(** Modelled from the spec: the class constants [PluginExpr.HEAD] and
    [PluginExpr.TAIL], the names standing for an omitted operand. *)
Definition HEAD : string := "HEAD".
Definition TAIL : string := "TAIL".

Definition option_eqb {A} (eqb : A -> A -> bool) (x y : option A) : bool :=
  match x, y with
  | Some a, Some b => eqb a b
  | None, None => true
  | _, _ => false
  end.

Definition PluginExpr_eqb {A} `{PyEq A} (e f : PluginExpr A) : bool :=
  py_eqb (left_operand e) (left_operand f)
  && py_eqb (right_operand e) (right_operand f)
  && option_eqb PluginRel_eqb (relation e) (relation f).

Lemma PluginExpr_eqb_spec {A} `{PyEq A} (e f : PluginExpr A) :
  reflect (e = f) (PluginExpr_eqb e f).
Proof.
  destruct e as [l r o], f as [l' r' o']; unfold PluginExpr_eqb; simpl.
  destruct (py_eqb_spec l l'); simpl; [| right; congruence].
  destruct (py_eqb_spec r r'); simpl; [| right; congruence].
  destruct o as [a|], o' as [b|]; simpl; try (right; congruence).
  - destruct (PluginRel_eqb_spec a b); [left | right]; congruence.
  - left; congruence.
Qed.

#[export] Instance PyEq_PluginExpr {A} `{PyEq A} : PyEq (PluginExpr A) :=
  {| py_eqb := PluginExpr_eqb; py_eqb_spec := PluginExpr_eqb_spec |}.

(** The operand attributes read through [getattr(expr, op_name)]. *)
Inductive op_name : Type := left_operand_name | right_operand_name.

Definition getattr {A} (e : PluginExpr A) (n : op_name) : A :=
  match n with
  | left_operand_name => left_operand e
  | right_operand_name => right_operand e
  end.

(** ** Dictionaries

    A Python [dict] keeps its keys in insertion order; assigning to a key
    that is present keeps the key's place.  [defaultdict] supplies a default
    when a missing key is read. *)
Section Dict.
Context {K V : Type} `{PyEq K}.

Definition dict : Type := list (K * V).

Fixpoint dict_get (k : K) (d : dict) : option V :=
  match d with
  | [] => None
  | (k', v) :: d' => if py_eqb k k' then Some v else dict_get k d'
  end.

Definition dict_mem (k : K) (d : dict) : bool :=
  match dict_get k d with Some _ => true | None => false end.

(** [d[k] = f(d.get(k))]. *)
Fixpoint dict_upsert (k : K) (f : option V -> V) (d : dict) : dict :=
  match d with
  | [] => [(k, f None)]
  | (k', v) :: d' =>
      if py_eqb k k' then (k', f (Some v)) :: d'
      else (k', v) :: dict_upsert k f d'
  end.

Definition dict_set (k : K) (v : V) (d : dict) : dict :=
  dict_upsert k (fun _ => v) d.

(** [del d[k]]; where the code deletes, the key is present. *)
Definition dict_del (k : K) (d : dict) : dict :=
  filter (fun kv => negb (py_eqb k (fst kv))) d.

Definition dict_keys (d : dict) : list K := map fst d.
Definition dict_values (d : dict) : list V := map snd d.
End Dict.

Arguments dict : clear implicits.

(** ** Exceptions and outcomes *)

Inductive message : Type :=
| OperandError (operand : string)
    (* 'Operand Error: {}'.format(operand) *)
| SomethingWrong (lhs : dict PluginIndex (list PluginIndex))
                 (rhs : dict PluginIndex Z)
    (* "Something Wrong. LHS: '{}' RHS: '{}'".format(dict(lhs), dict(rhs)) *)
| NoMessage.

Inductive exn : Type :=
| SyntaxError (m : message)
| NameError (name : string)
| AttributeError
| IndexError
| ValueError
| KeyError.

(** What running a piece of code yields: a value, a raised exception, or
    no answer within the number of loop iterations allowed. *)
Inductive outcome (A : Type) : Type :=
| Returned (a : A)
| Raised (e : exn)
| OutOfFuel.

Arguments Returned {A} _.
Arguments Raised {A} _.
Arguments OutOfFuel {A}.

Definition bind {A B} (c : outcome A) (k : A -> outcome B) : outcome B :=
  match c with
  | Returned a => k a
  | Raised e => Raised e
  | OutOfFuel => OutOfFuel
  end.

Declare Scope outcome_scope.
Delimit Scope outcome_scope with outcome.
Notation "x <- c ;; k" := (bind c (fun x => k))
  (at level 61, c at next level, right associativity) : outcome_scope.
Notation "' pat <- c ;; k" := (bind c (fun x => match x with pat => k end))
  (at level 61, pat pattern, c at next level, right associativity)
  : outcome_scope.
Local Open Scope outcome_scope.

Fixpoint mapM {A B} (f : A -> outcome B) (l : list A) : outcome (list B) :=
  match l with
  | [] => Returned []
  | a :: l' => b <- f a ;; bs <- mapM f l' ;; Returned (b :: bs)
  end.

(** ** Lists *)

(** [l.remove(x)]: drops the first element equal to [x]. *)
Fixpoint list_remove {A} `{PyEq A} (x : A) (l : list A) : outcome (list A) :=
  match l with
  | [] => Raised ValueError
  | y :: l' =>
      if py_eqb x y then Returned l'
      else l'' <- list_remove x l' ;; Returned (y :: l'')
  end.

(** [l[i]] with Python's negative indices. *)
Definition py_index {A} (l : list A) (i : Z) : outcome A :=
  let n := Z.of_nat (List.length l) in
  let j := (if i <? 0 then n + i else i)%Z in
  if ((0 <=? j) && (j <? n))%Z then
    match nth_error l (Z.to_nat j) with
    | Some a => Returned a
    | None => Raised IndexError
    end
  else Raised IndexError.

(** First occurrences, in order: the elements of a set built from a list. *)
Fixpoint dedup {A} `{PyEq A} (l : list A) : list A :=
  match l with
  | [] => []
  | x :: l' => x :: filter (fun y => negb (py_eqb x y)) (dedup l')
  end.

Definition mem {A} `{PyEq A} (x : A) (l : list A) : bool :=
  existsb (py_eqb x) l.

(** [sorted]: a stable sort; [le a b] says that [a] may stand before [b]. *)
Section Sorted.
Context {A : Type} (le : A -> A -> bool).

Fixpoint insert (x : A) (l : list A) : list A :=
  match l with
  | [] => [x]
  | y :: l' => if le x y then x :: l else y :: insert x l'
  end.

Fixpoint isort (l : list A) : list A :=
  match l with
  | [] => []
  | x :: l' => insert x (isort l')
  end.
End Sorted.

(** Comparison of the key tuples [(hash, degree)]. *)
Definition tuple_le (a b : Z * Z) : bool :=
  ((fst a <? fst b) || ((fst a =? fst b) && (snd a <=? snd b)))%Z.

(** [sorted(l, key=key, reverse=reverse)]: the keys are computed first, one
    per element; with [reverse] the order is descending and equal keys keep
    their original order all the same. *)
Definition sorted {A} (key : A -> outcome (Z * Z)) (reverse : bool)
    (l : list A) : outcome (list A) :=
  keys <- mapM key l ;;
  let le := fun p q : (Z * Z) * A =>
    if reverse then tuple_le (fst q) (fst p) else tuple_le (fst p) (fst q) in
  Returned (map snd (isort le (combine keys l))).

(** ** Hashes and sets

    What the interpreter decides and the program does not: the hash of a
    Plugin Identity, and the slot each element of a set takes in its hash
    table.  A set yields its elements by ascending slot; [pop] on a set just
    built takes the element in the lowest slot. *)
Record Runtime : Type := mkRuntime {
  hash : PluginIndex -> Z;
  slot : list PluginIndex -> PluginIndex -> Z
}.

Definition default {A} (d : A) (o : option A) : A :=
  match o with Some a => a | None => d end.

Definition slot_le (rt : Runtime) (elems : list PluginIndex)
    (x y : PluginIndex) : bool :=
  (slot rt elems x <=? slot rt elems y)%Z.

Definition set_iter (rt : Runtime) (elems : list PluginIndex)
    : list PluginIndex :=
  isort (slot_le rt elems) elems.

Definition set_pop (rt : Runtime) (elems : list PluginIndex)
    : option PluginIndex :=
  hd_error (set_iter rt elems).

(** [set(a) - set(b)] and [a |= b], as the list of their elements. *)
Definition set_difference (a b : list PluginIndex) : list PluginIndex :=
  filter (fun x => negb (mem x b)) (dedup a).

Definition set_union (a b : list PluginIndex) : list PluginIndex :=
  dedup (a ++ b).

(** ** class _Algorithm *)
Module _Algorithm.

Definition Expr : Type := PluginExpr PluginIndex.

Definition _SPECIAL_DEGREE : Z := (-1)%Z.

(** [__init__]: the containers are concatenated into [self._exprs]. *)
Definition __init__ (exprs : list (list Expr)) : list Expr := concat exprs.

(** [_transform_to_left_rel], on [self._exprs]. *)
Definition transform_expr (expr : Expr) : outcome Expr :=
  match relation expr with
  | None => Raised AttributeError
  | Some relation =>
      if is_left_rel relation then Returned expr
      else Returned (mkExpr (right_operand expr) (left_operand expr)
                            (Some (mkRel true (degree relation))))
  end.

Definition _transform_to_left_rel (_exprs : list Expr) : outcome (list Expr) :=
  mapM transform_expr _exprs.

(** [_remove_irrelevant_exprs]: the loop runs over a copy of [self._exprs];
    the state is [self._exprs] and [irrelevant_exprs]. *)
Fixpoint remove_irrelevant_loop (copy _exprs irrelevant_exprs : list Expr)
    : outcome (list Expr * list Expr) :=
  match copy with
  | [] => Returned (_exprs, irrelevant_exprs)
  | expr :: copy' =>
      match relation expr with
      | None =>
          _exprs' <- list_remove expr _exprs ;;
          remove_irrelevant_loop copy' _exprs' (irrelevant_exprs ++ [expr])
      | Some _ => remove_irrelevant_loop copy' _exprs irrelevant_exprs
      end
  end.

(** Returns [self._exprs] as left by the loop, and [irrelevant_exprs]. *)
Definition _remove_irrelevant_exprs (_exprs : list Expr)
    : outcome (list Expr * list Expr) :=
  remove_irrelevant_loop _exprs _exprs [].

(** [_yield_group]: [group] is the group being gathered and [val] the
    operand its members share; a differing operand closes the group and
    opens the next one. *)
Fixpoint yield_group_loop (op : op_name) (val : PluginIndex)
    (group sorted_exprs : list Expr) : list (list Expr) :=
  match sorted_exprs with
  | [] => [group]
  | expr :: rest =>
      if py_eqb val (getattr expr op)
      then yield_group_loop op val (group ++ [expr]) rest
      else group :: yield_group_loop op (getattr expr op) [expr] rest
  end.

Definition _yield_group (sorted_exprs : list Expr) (op : op_name)
    : list (list Expr) :=
  match sorted_exprs with
  | [] => []
  | expr :: rest => yield_group_loop op (getattr expr op) [expr] rest
  end.

Definition cmp_key (rt : Runtime) (op : op_name) (x : Expr)
    : outcome (Z * Z) :=
  match relation x with
  | None => Raised AttributeError
  | Some relation => Returned (hash rt (getattr x op), degree relation)
  end.

Definition _generate_left_relation_group (rt : Runtime) (exprs : list Expr)
    : outcome (list (list Expr)) :=
  sorted_exprs_left <- sorted (cmp_key rt left_operand_name) false exprs ;;
  Returned (_yield_group sorted_exprs_left left_operand_name).

Definition _generate_right_relation_group (rt : Runtime) (exprs : list Expr)
    : outcome (list (list Expr)) :=
  sorted_exprs_right <- sorted (cmp_key rt right_operand_name) true exprs ;;
  Returned (_yield_group sorted_exprs_right right_operand_name).

Definition special_rel : PluginRel := mkRel true _SPECIAL_DEGREE.

(** The loop of [_break_relation_group]: one combined expression per pair of
    neighbours of the group. *)
Fixpoint combine_loop (op : op_name) (last_operand : option PluginIndex)
    (relation_group : list Expr) : list Expr :=
  match relation_group with
  | [] => []
  | expr :: rest =>
      match last_operand with
      | None => combine_loop op (Some (getattr expr op)) rest
      | Some last =>
          mkExpr last (getattr expr op) (Some special_rel)
            :: combine_loop op (Some (getattr expr op)) rest
      end
  end.

Definition _break_relation_group (relation_group : list Expr) (op : op_name)
    (special_index : Z) : outcome (list Expr) :=
  let new_group := combine_loop op None relation_group in
  special_expr <- py_index relation_group special_index ;;
  let new_expr := mkExpr (left_operand special_expr)
                         (right_operand special_expr) (Some special_rel) in
  if (special_index =? 0)%Z then Returned (new_expr :: new_group)
  else if (special_index =? -1)%Z then Returned (new_group ++ [new_expr])
  else Raised (SyntaxError NoMessage).

Definition _break_left_relation_group (relation_group : list Expr)
    : outcome (list Expr) :=
  _break_relation_group relation_group right_operand_name 0.

Definition _break_right_relation_group (relation_group : list Expr)
    : outcome (list Expr) :=
  _break_relation_group relation_group left_operand_name (-1).

Definition lhs_dict : Type := dict PluginIndex (list PluginIndex).
Definition rhs_dict : Type := dict PluginIndex Z.

(** [left_hand_side[l].append(r); right_hand_side[r] += 1]. *)
Definition record_relation (sides : lhs_dict * rhs_dict) (expr : Expr)
    : lhs_dict * rhs_dict :=
  (dict_upsert (left_operand expr)
     (fun o => default [] o ++ [right_operand expr]) (fst sides),
   dict_upsert (right_operand expr)
     (fun o => (default 0 o + 1)%Z) (snd sides)).

(** [right_hand_side[r] -= 1], then the entry is deleted when it is 0. *)
Definition release (right_hand_side : rhs_dict) (right_op : PluginIndex)
    : rhs_dict :=
  let rhs := dict_upsert right_op (fun o => (default 0 o - 1)%Z)
                         right_hand_side in
  if (default 0 (dict_get right_op rhs) =? 0)%Z then dict_del right_op rhs
  else rhs.

(** The [while left_hand_side] loop. *)
Fixpoint elimination (rt : Runtime) (fuel : nat) (left_hand_side : lhs_dict)
    (right_hand_side : rhs_dict) (order : list PluginIndex)
    : outcome (list PluginIndex) :=
  match left_hand_side with
  | [] => Returned order
  | _ :: _ =>
      match fuel with
      | O => OutOfFuel
      | S fuel' =>
          let unique_items :=
            set_difference (dict_keys left_hand_side)
                           (dict_keys right_hand_side) in
          match unique_items with
          | [] => Raised (SyntaxError
                            (SomethingWrong left_hand_side right_hand_side))
          | _ :: _ =>
              match set_pop rt unique_items with
              | None => Raised KeyError
              | Some item =>
                  let successors :=
                    default [] (dict_get item left_hand_side) in
                  elimination rt fuel'
                    (dict_del item left_hand_side)
                    (fold_left release successors right_hand_side)
                    (order ++ [item])
              end
          end
      end
  end.

Definition is_head_or_tail (index : PluginIndex) : bool :=
  match theme_name index with
  | None => mem (plugin_name index) [HEAD; TAIL]
  | Some _ => false
  end.

(** The loop that removes HEAD and TAIL, over a copy of [order]. *)
Fixpoint strip_loop (copy order : list PluginIndex)
    : outcome (list PluginIndex) :=
  match copy with
  | [] => Returned order
  | index :: copy' =>
      if is_head_or_tail index
      then order' <- list_remove index order ;; strip_loop copy' order'
      else strip_loop copy' order
  end.

Definition _generate_execution_order (rt : Runtime) (relations : list Expr)
    (irrelevant_exprs : list Expr) : outcome (list PluginIndex) :=
  let left_behind := dedup (map (@left_operand _) irrelevant_exprs) in
  let '(left_hand_side, right_hand_side) :=
    fold_left record_relation relations ([], []) in
  let items_only_in_right_hand_side :=
    set_difference (dict_keys right_hand_side) (dict_keys left_hand_side) in
  let left_behind := set_union left_behind items_only_in_right_hand_side in
  order <- elimination rt (List.length left_hand_side)
                       left_hand_side right_hand_side [] ;;
  let order := order ++ set_iter rt left_behind in
  strip_loop order order.

(** The value of [new_relations] after the two loops of
    [generate_sequence]. *)
Definition new_relations (rt : Runtime) (_exprs : list Expr)
    : outcome (list Expr) :=
  left_groups <- _generate_left_relation_group rt _exprs ;;
  left_chains <- mapM _break_left_relation_group left_groups ;;
  right_groups <- _generate_right_relation_group rt _exprs ;;
  right_chains <- mapM _break_right_relation_group right_groups ;;
  Returned (concat left_chains ++ concat right_chains).

(** [self._exprs] and [irrelevant_exprs] after the first two calls of
    [generate_sequence]. *)
Definition normalization (_exprs : list Expr)
    : outcome (list Expr * list Expr) :=
  '(_exprs, irrelevant_exprs) <- _remove_irrelevant_exprs _exprs ;;
  _exprs <- _transform_to_left_rel _exprs ;;
  Returned (_exprs, irrelevant_exprs).

Definition generate_sequence (rt : Runtime) (_exprs : list Expr)
    : outcome (list PluginIndex) :=
  '(_exprs, irrelevant_exprs) <- normalization _exprs ;;
  relations <- new_relations rt _exprs ;;
  _generate_execution_order rt relations irrelevant_exprs.

End _Algorithm.

(** ** class SequenceParser *)
Module SequenceParser.

Definition RawExpr : Type := PluginExpr string.
Definition Expr : Type := PluginExpr PluginIndex.

(** Modelled from the spec: [parser.utils.ErrorCollector] is not part of
    the sources at hand.  It is process-wide state; the lexer and the parser
    raise its two flags when they meet an unrecognised character or an
    unexpected token. *)
Record ErrorCollector : Type := mkCollector {
  lex_error : bool;
  yacc_error : bool
}.

(** The fields of a [SequenceParser] object. *)
Record state : Type := mkState {
  error : bool;
  theme_plugin_expr_mapping : dict string (list Expr)
}.

(** [__init__]. *)
Definition __init__ : state := mkState false [].

(** [operand.split('.')]. *)
Fixpoint split_dot (s : string) : list string :=
  match s with
  | EmptyString => [EmptyString]
  | String c s' =>
      if Ascii.eqb c "."%char then EmptyString :: split_dot s'
      else match split_dot s' with
           | [] => [String c EmptyString]
           | w :: ws => String c w :: ws
           end
  end.

Definition get_theme_plugin (theme : string) (operand : string)
    : outcome (option string * string) :=
  if py_eqb operand HEAD || py_eqb operand TAIL then Returned (None, operand)
  else match split_dot operand with
       | [_] => Returned (Some theme, operand)
       | [t; p] => Returned (Some t, p)
       | _ => Raised (SyntaxError (OperandError operand))
       end.

Definition replace_expr (theme : string) (expr : RawExpr) : outcome Expr :=
  '(left_theme, left_plugin) <- get_theme_plugin theme (left_operand expr) ;;
  '(right_theme, right_plugin) <-
     get_theme_plugin theme (right_operand expr) ;;
  let left_index := mkIndex left_theme left_plugin in
  let right_index := mkIndex right_theme right_plugin in
  Returned (mkExpr left_index right_index (relation expr)).

Definition _replace_with_plugin_index (theme : string)
    (plugin_exprs : list RawExpr) : outcome (list Expr) :=
  mapM (replace_expr theme) plugin_exprs.

(** [_archive_error] takes no [theme] argument and the module binds no such
    name: evaluating the argument of [archive_lex_messages(theme)] raises
    [NameError], after [self.error] was set. *)
Definition _archive_error (self : state) (collector : ErrorCollector)
    : state * outcome unit :=
  if lex_error collector then
    (mkState true (theme_plugin_expr_mapping self), Raised (NameError "theme"))
  else if yacc_error collector then
    (mkState true (theme_plugin_expr_mapping self), Raised (NameError "theme"))
  else (self, Returned tt).

Section Parser.
(** The lexer and parser of [parser.simple_lex] and [parser.simple_yacc]
    are not part of the sources at hand: [parse text] yields the raw
    expressions of [text] and updates the collector. *)
Variable parse : string -> ErrorCollector -> list RawExpr * ErrorCollector.

Definition analyze (theme text : string) (self : state)
    (collector : ErrorCollector) : state * ErrorCollector * outcome unit :=
  let '(exprs, collector) := parse text collector in
  match _archive_error self collector with
  | (self, Returned _) =>
      match _replace_with_plugin_index theme exprs with
      | Returned processed_exprs =>
          (mkState (error self)
             (dict_set theme processed_exprs
                (theme_plugin_expr_mapping self)),
           collector, Returned tt)
      | Raised e => (self, collector, Raised e)
      | OutOfFuel => (self, collector, OutOfFuel)
      end
  | (self, Raised e) => (self, collector, Raised e)
  | (self, OutOfFuel) => (self, collector, OutOfFuel)
  end.
End Parser.

(** What [_transform_to_left_rel] leaves of an expression object. *)
Definition rewritten (expr : Expr) : Expr :=
  match _Algorithm.transform_expr expr with
  | Returned expr' => expr'
  | _ => expr
  end.

(** [generate_sequence]: the algorithm works on a fresh list of the stored
    expression objects, so the objects it rewrites to forward form are the
    stored ones. *)
Definition generate_sequence (rt : Runtime) (self : state)
    : state * outcome (list PluginIndex) :=
  let mapping := theme_plugin_expr_mapping self in
  (mkState (error self)
     (map (fun kv => (fst kv, map rewritten (snd kv))) mapping),
   _Algorithm.generate_sequence rt (_Algorithm.__init__ (dict_values mapping))).

End SequenceParser.

(** ** Definitions used to state the properties *)

(** Number of occurrences of [x] in [l]. *)
Definition occ {A} `{PyEq A} (x : A) (l : list A) : nat :=
  length (filter (py_eqb x) l).

(** A loop over a copy of a list that removes from the list each element of
    the copy that satisfies [P]: the shape shared by the loops of
    [_remove_irrelevant_exprs] and of the HEAD and TAIL removal. *)
Fixpoint remove_each {A} `{PyEq A} (P : A -> bool) (copy l : list A)
    : outcome (list A) :=
  match copy with
  | [] => Returned l
  | x :: copy' =>
      if P x then l' <- list_remove x l ;; remove_each P copy' l'
      else remove_each P copy' l
  end.

Definition has_relation {A} (e : PluginExpr A) : bool :=
  match relation e with Some _ => true | None => false end.

(** An expression in forward form: its relation is marked left-directed. *)
Definition forward_form (e : _Algorithm.Expr) : Prop :=
  exists d, relation e = Some (mkRel true d).

(** What an expression says: which operand precedes which, and the degree.
    [x <<d y] says that [x] precedes [y]; [x d>> y] that [y] precedes [x]. *)
Definition reading (e : _Algorithm.Expr)
    : option (PluginIndex * PluginIndex * Z) :=
  match relation e with
  | None => None
  | Some r =>
      if is_left_rel r
      then Some (left_operand e, right_operand e, degree r)
      else Some (right_operand e, left_operand e, degree r)
  end.

(** The sentinel identities. *)
Definition HEAD_index : PluginIndex := mkIndex None HEAD.
Definition TAIL_index : PluginIndex := mkIndex None TAIL.

(** [theme.plugin] as an identity. *)
Definition ix (t p : string) : PluginIndex := mkIndex (Some t) p.

(** Number of dots of an operand string. *)
Fixpoint dots (s : string) : nat :=
  match s with
  | EmptyString => 0
  | String c s' => (if Ascii.eqb c "."%char then 1 else 0) + dots s'
  end.

(** An expression one of whose operands has more than one dot. *)
Definition malformed (e : SequenceParser.RawExpr) : Prop :=
  2 <= dots (left_operand e) \/ 2 <= dots (right_operand e).

(** A runtime and a parser to run the code on concrete inputs: identities
    hash to the length of their name and sit in the slot of that number; the
    parser reads a text as one bare name and reports a lexical error on the
    text ["?"]. *)
Definition example_runtime : Runtime :=
  mkRuntime (fun x => Z.of_nat (String.length (plugin_name x)))
            (fun _ x => Z.of_nat (String.length (plugin_name x))).

Definition example_parse (text : string)
    (collector : SequenceParser.ErrorCollector)
    : list SequenceParser.RawExpr * SequenceParser.ErrorCollector :=
  if String.eqb text "?"
  then ([], SequenceParser.mkCollector true
              (SequenceParser.yacc_error collector))
  else ([mkExpr text TAIL None], collector).

(** Scenario A: [loader_a <<0 loader_b] and [loader_c <<1 loader_b], as the
    parser hands them over, and qualified for the namespace [pre_load]. *)
Definition scenario_A_raw : list SequenceParser.RawExpr :=
  [mkExpr "loader_a"%string "loader_b"%string (Some (mkRel true 0));
   mkExpr "loader_c"%string "loader_b"%string (Some (mkRel true 1))].

Definition scenario_A : list _Algorithm.Expr :=
  [mkExpr (ix "pre_load" "loader_a") (ix "pre_load" "loader_b")
          (Some (mkRel true 0));
   mkExpr (ix "pre_load" "loader_c") (ix "pre_load" "loader_b")
          (Some (mkRel true 1))].

(** The precedence edges: [x] precedes [y] when the relations hold an
    expression with left operand [x] and right operand [y]. *)
Definition edge (relations : list _Algorithm.Expr) (x y : PluginIndex)
    : Prop :=
  exists e, In e relations /\ left_operand e = x /\ right_operand e = y.

(** A walk of one edge or more. *)
Inductive path (relations : list _Algorithm.Expr)
    : PluginIndex -> PluginIndex -> Prop :=
| path_edge x y : edge relations x y -> path relations x y
| path_step x y z :
    edge relations x y -> path relations y z -> path relations x z.

Definition on_cycle (relations : list _Algorithm.Expr) (x : PluginIndex)
    : Prop :=
  path relations x x.

Definition has_cycle (relations : list _Algorithm.Expr) : Prop :=
  exists x, on_cycle relations x.

(** The merged edge set handed to [_generate_execution_order]: the chains
    of all groups of the normalised batch. *)
Definition merged_edges (rt : Runtime) (_exprs : list _Algorithm.Expr)
    : outcome (list _Algorithm.Expr) :=
  '(_exprs, _) <- _Algorithm.normalization _exprs ;;
  _Algorithm.new_relations rt _exprs.

(** The count [right_hand_side] holds for [y], 0 when it has no entry, and
    the number of times [y] stands among the successors recorded in
    [left_hand_side]. *)
Definition cnt (y : PluginIndex) (rhs : _Algorithm.rhs_dict) : Z :=
  default 0%Z (dict_get y rhs).

Fixpoint indeg (y : PluginIndex) (lhs : _Algorithm.lhs_dict) : nat :=
  match lhs with
  | [] => 0
  | (_, successors) :: lhs' => occ y successors + indeg y lhs'
  end.

(** Scenario D: [a << b] then [b << a] in one namespace. *)
Definition scenario_D : list _Algorithm.Expr :=
  [mkExpr (ix "pre_load" "a") (ix "pre_load" "b") (Some (mkRel true 0));
   mkExpr (ix "pre_load" "b") (ix "pre_load" "a") (Some (mkRel true 0))].

(** The merged edges of Scenario D: [a] before [b] and [b] before [a], once
    from the groups by left operand and once from the groups by right
    operand. *)
Definition scenario_D_edges : list _Algorithm.Expr :=
  [mkExpr (ix "pre_load" "a") (ix "pre_load" "b")
          (Some _Algorithm.special_rel);
   mkExpr (ix "pre_load" "b") (ix "pre_load" "a")
          (Some _Algorithm.special_rel);
   mkExpr (ix "pre_load" "a") (ix "pre_load" "b")
          (Some _Algorithm.special_rel);
   mkExpr (ix "pre_load" "b") (ix "pre_load" "a")
          (Some _Algorithm.special_rel)].

(** A plugin named on a bare line and as the left operand of a relation:
    the directives [a] and [a << b] of the namespace [pre_load]. *)
Definition bare_and_related : list _Algorithm.Expr :=
  [mkExpr (ix "pre_load" "a") TAIL_index None;
   mkExpr (ix "pre_load" "a") (ix "pre_load" "b") (Some (mkRel true 0))].

(** Two bare lines, [a] and [b]. *)
Definition two_bare_lines : list _Algorithm.Expr :=
  [mkExpr (ix "pre_load" "a") TAIL_index None;
   mkExpr (ix "pre_load" "b") TAIL_index None].

(** A runtime whose sets place an element in the slot of its hash modulo
    the table size. *)
Definition runtime_of_hash (h : PluginIndex -> Z) : Runtime :=
  mkRuntime h (fun _ x => (h x mod 8)%Z).

(** Two hash functions: the length of the name, and 1 for [a] and 0 for any
    other name. *)
Definition hash_by_length (x : PluginIndex) : Z :=
  Z.of_nat (String.length (plugin_name x)).

Definition hash_a_last (x : PluginIndex) : Z :=
  if String.eqb (plugin_name x) "a" then 1%Z else 0%Z.

(** The identities a batch mentions. *)
Definition identities (exprs : list _Algorithm.Expr) : list PluginIndex :=
  flat_map (fun e => [left_operand e; right_operand e]) exprs.

(** A runtime that differs from [runtime_of_hash hash_by_length] only in
    the hash of identities named [elsewhere]. *)
Definition runtime_elsewhere : Runtime :=
  mkRuntime
    (fun x => if String.eqb (plugin_name x) "elsewhere" then 0%Z
              else hash_by_length x)
    (fun _ x => (hash_by_length x mod 8)%Z).

(** What holds of the two dictionaries at each turn of the [while] loop:
    the keys of [left_hand_side] are distinct, [right_hand_side] counts for
    each identity the successors' entries that name it, and holds no entry
    that is not positive. *)
Definition loop_inv (lhs : _Algorithm.lhs_dict) (rhs : _Algorithm.rhs_dict)
    : Prop :=
  NoDup (dict_keys lhs)
  /\ (forall y, cnt y rhs = Z.of_nat (indeg y lhs))
  /\ (forall y n, dict_get y rhs = Some n -> (0 < n)%Z).

(** An edge still recorded in [left_hand_side]. *)
Definition recorded (lhs : _Algorithm.lhs_dict) (u y : PluginIndex) : Prop :=
  exists successors, dict_get u lhs = Some successors /\ In y successors.

(** The identities a batch mentions: both operands of an expression with a
    relation, the left operand of a bare one. *)
Definition mentioned (exprs : list _Algorithm.Expr) : list PluginIndex :=
  flat_map (fun e => if has_relation e
                     then [left_operand e; right_operand e]
                     else [left_operand e]) exprs.

(** The left operands of the bare expressions of a batch. *)
Definition bare_names (exprs : list _Algorithm.Expr) : list PluginIndex :=
  map (@left_operand _) (filter (fun e => negb (has_relation e)) exprs).

(** A walk: a list of identities, each related to the next. *)
Inductive walk (R : PluginIndex -> PluginIndex -> Prop)
    : list PluginIndex -> Prop :=
| walk_one x : walk R [x]
| walk_cons x y l : R x y -> walk R (y :: l) -> walk R (x :: y :: l).

(** A group all of whose members have the same operand [op]. *)
Definition uniform (op : op_name) (g : list _Algorithm.Expr) : Prop :=
  exists v, Forall (fun e => getattr e op = v) g.

(** The chain through a list of identities: one expression with the
    special relation per pair of neighbours. *)
Fixpoint links (nodes : list PluginIndex) : list _Algorithm.Expr :=
  match nodes with
  | [] => []
  | x :: rest =>
      match rest with
      | [] => []
      | y :: _ => mkExpr x y (Some _Algorithm.special_rel) :: links rest
      end
  end.

(** What the directives of a batch say: [x] precedes [y] when some
    expression reads so, whichever way it was written. *)
Definition precedes (exprs : list _Algorithm.Expr) (x y : PluginIndex)
    : Prop :=
  exists e d, In e exprs /\ reading e = Some (x, y, d).

(** Chains of directives. *)
Inductive precedes_chain (exprs : list _Algorithm.Expr)
    : PluginIndex -> PluginIndex -> Prop :=
| chain_one x y : precedes exprs x y -> precedes_chain exprs x y
| chain_more x y z :
    precedes exprs x y -> precedes_chain exprs y z ->
    precedes_chain exprs x z.

(** In [order], [y] does not occur before the first occurrence of [x]. *)
Definition first_before (order : list PluginIndex) (x y : PluginIndex)
    : Prop :=
  exists l1 l2, order = l1 ++ x :: l2 /\ ~ In x l1 /\ ~ In y l1.

(** Groups each of which differs from the next in the operand [op] of its
    members. *)
Inductive separated (op : op_name)
    : list (list _Algorithm.Expr) -> Prop :=
| separated_nil : separated op []
| separated_one g : separated op [g]
| separated_cons g g' gs :
    (forall e e', In e g -> In e' g' -> getattr e op <> getattr e' op) ->
    separated op (g' :: gs) ->
    separated op (g :: g' :: gs).

(** Scenario A with a bare line for a fourth plugin. *)
Definition scenario_A_and_bare : list _Algorithm.Expr :=
  scenario_A ++ [mkExpr (ix "pre_load" "loader_d") TAIL_index None].

(** The merged edges of Scenario A when all hashes are equal. *)
Definition scenario_A_edges : list _Algorithm.Expr :=
  [mkExpr (ix "pre_load" "loader_a") (ix "pre_load" "loader_b")
          (Some _Algorithm.special_rel);
   mkExpr (ix "pre_load" "loader_c") (ix "pre_load" "loader_b")
          (Some _Algorithm.special_rel);
   mkExpr (ix "pre_load" "loader_c") (ix "pre_load" "loader_a")
          (Some _Algorithm.special_rel);
   mkExpr (ix "pre_load" "loader_a") (ix "pre_load" "loader_b")
          (Some _Algorithm.special_rel)].

(** The operands that stand for an omitted one. *)
Definition is_sentinel_name (operand : string) : bool :=
  py_eqb operand HEAD || py_eqb operand TAIL.

(** An operand and the identity it is qualified to, as [get_theme_plugin]
    has it. *)
Definition qualifies (theme : string) (operand : string) (x : PluginIndex)
    : Prop :=
  SequenceParser.get_theme_plugin theme operand
  = Returned (theme_name x, plugin_name x).

(** The degree of an expression, 0 for a bare one, and the key the two
    sorts of the chain builder compare. *)
Definition degree_of (e : _Algorithm.Expr) : Z :=
  match relation e with Some r => degree r | None => 0%Z end.

Definition key_of (rt : Runtime) (op : op_name) (e : _Algorithm.Expr)
    : Z * Z :=
  (hash rt (getattr e op), degree_of e).

(** No two identities of the batch have the same hash. *)
Definition collision_free (rt : Runtime) (exprs : list _Algorithm.Expr)
    : Prop :=
  forall a b, In a (identities exprs) -> In b (identities exprs) ->
    hash rt a = hash rt b -> a = b.

(** A directive with its degree: some expression of the batch reads "[x]
    precedes [y]" with degree [d]. *)
Definition says (exprs : list _Algorithm.Expr) (x y : PluginIndex) (d : Z)
    : Prop :=
  exists e, In e exprs /\ reading e = Some (x, y, d).

(** A runtime without collisions on the three loaders of Scenario A. *)
Definition hash_loaders (x : PluginIndex) : Z :=
  if String.eqb (plugin_name x) "loader_a" then 1%Z
  else if String.eqb (plugin_name x) "loader_b" then 2%Z
  else if String.eqb (plugin_name x) "loader_c" then 3%Z
  else 0%Z.

(** Two directives for one left operand: [loader_a <<1 loader_b] and
    [loader_a <<0 loader_c]. *)
Definition two_successors : list _Algorithm.Expr :=
  [mkExpr (ix "pre_load" "loader_a") (ix "pre_load" "loader_b")
          (Some (mkRel true 1));
   mkExpr (ix "pre_load" "loader_a") (ix "pre_load" "loader_c")
          (Some (mkRel true 0))].

(** One directive written twice, once each way: [loader_a << loader_b] and
    [loader_b >> loader_a]. *)
Definition written_twice : list _Algorithm.Expr :=
  [mkExpr (ix "pre_load" "loader_a") (ix "pre_load" "loader_b")
          (Some (mkRel true 0));
   mkExpr (ix "pre_load" "loader_b") (ix "pre_load" "loader_a")
          (Some (mkRel false 0))].

Definition runtime_loaders : Runtime :=
  mkRuntime hash_loaders (fun _ _ => 0%Z).


(** * Properties *)

(** ** Lists, removal loops *)

Section RemovalLoops.
Context {A : Type} `{PyEq A}.

Lemma occ_cons x y l :
  occ x (y :: l) = if py_eqb x y then S (occ x l) else occ x l.
Proof. unfold occ; simpl; destruct (py_eqb x y); reflexivity. Qed.

Lemma occ_zero_not_In x l : occ x l = 0 -> ~ In x l.
Proof.
  induction l as [|y l IH]; simpl; [tauto|].
  rewrite occ_cons. destruct (py_eqb_spec x y); [discriminate|].
  intros Hz [Hy|Hin]; [congruence | exact (IH Hz Hin)].
Qed.

Lemma list_remove_occ x l :
  0 < occ x l ->
  exists l', list_remove x l = Returned l'
    /\ (forall y, occ y l' = if py_eqb y x then pred (occ y l) else occ y l)
    /\ (forall Q : A -> bool, Q x = false -> filter Q l' = filter Q l).
Proof.
  induction l as [|z l IH]; simpl.
  - unfold occ; simpl; lia.
  - rewrite occ_cons. destruct (py_eqb_spec x z) as [->|Hne].
    + intros _. exists l. split; [reflexivity|]. split.
      * intros y. rewrite occ_cons. destruct (py_eqb y z); reflexivity.
      * intros Q HQ. simpl. rewrite HQ. reflexivity.
    + intros Hpos. destruct (IH Hpos) as (l' & -> & Hocc & Hfil).
      simpl. exists (z :: l'). split; [reflexivity|]. split.
      * intros y. rewrite !occ_cons, Hocc.
        destruct (py_eqb_spec y x) as [->|Hyx].
        -- destruct (py_eqb_spec x z); [congruence | reflexivity].
        -- destruct (py_eqb y z); reflexivity.
      * intros Q HQ. simpl. rewrite (Hfil Q HQ). reflexivity.
Qed.

Lemma filter_negb_all (P : A -> bool) l :
  (forall x, P x = true -> occ x l = 0) ->
  filter (fun x => negb (P x)) l = l.
Proof.
  induction l as [|y l IH]; simpl; intros Hz; [reflexivity|].
  destruct (P y) eqn:Py; simpl.
  - specialize (Hz y Py). rewrite occ_cons, py_eqb_refl in Hz. discriminate.
  - f_equal. apply IH. intros x Px. specialize (Hz x Px).
    rewrite occ_cons in Hz. destruct (py_eqb x y); [discriminate | exact Hz].
Qed.

Lemma remove_each_filter (P : A -> bool) copy : forall l,
  (forall x, P x = true -> occ x l = occ x copy) ->
  remove_each P copy l = Returned (filter (fun x => negb (P x)) l).
Proof.
  induction copy as [|c copy IH]; simpl; intros l Hocc.
  - f_equal. symmetry. apply filter_negb_all. exact Hocc.
  - destruct (P c) eqn:Pc.
    + pose proof (Hocc c Pc) as Hc. rewrite occ_cons, py_eqb_refl in Hc.
      destruct (@list_remove_occ c l) as (l' & -> & Ho & Hf); [lia|].
      simpl. rewrite IH.
      * f_equal. apply Hf. rewrite Pc. reflexivity.
      * intros x Px. rewrite Ho. specialize (Hocc x Px).
        rewrite occ_cons in Hocc. destruct (py_eqb x c); lia.
    + apply IH. intros x Px. specialize (Hocc x Px).
      rewrite occ_cons in Hocc.
      destruct (py_eqb_spec x c) as [Heq|_]; [congruence | exact Hocc].
Qed.

Lemma remove_each_self (P : A -> bool) l :
  remove_each P l l = Returned (filter (fun x => negb (P x)) l).
Proof. apply remove_each_filter. reflexivity. Qed.
End RemovalLoops.

(** ** Normalisation *)

Lemma strip_loop_remove_each copy : forall order,
  _Algorithm.strip_loop copy order
  = remove_each _Algorithm.is_head_or_tail copy order.
Proof.
  induction copy as [|x copy IH]; simpl; intros order; [reflexivity|].
  destruct (_Algorithm.is_head_or_tail x); [|apply IH].
  destruct (list_remove x order); simpl; auto.
Qed.

Lemma remove_irrelevant_loop_remove_each copy : forall l irr,
  _Algorithm.remove_irrelevant_loop copy l irr
  = (l' <- remove_each (fun e => negb (has_relation e)) copy l ;;
     Returned (l', irr ++ filter (fun e => negb (has_relation e)) copy))%outcome.
Proof.
  induction copy as [|x copy IH]; simpl; intros l irr.
  - rewrite app_nil_r. reflexivity.
  - destruct (relation x) eqn:Hr.
    + assert (Hh : has_relation x = true)
        by (unfold has_relation; rewrite Hr; reflexivity).
      rewrite Hh. simpl. apply IH.
    + assert (Hh : has_relation x = false)
        by (unfold has_relation; rewrite Hr; reflexivity).
      rewrite Hh. simpl. unfold _Algorithm.Expr in *.
      destruct (list_remove x l); simpl; auto.
      rewrite IH, <- app_assoc. reflexivity.
Qed.

Lemma filter_ext_negb {A} (P : A -> bool) l :
  filter (fun x => negb (negb (P x))) l = filter P l.
Proof. apply filter_ext. intros x. apply negb_involutive. Qed.

Lemma remove_irrelevant_exprs_spec (l : list _Algorithm.Expr) :
  _Algorithm._remove_irrelevant_exprs l
  = Returned (filter has_relation l,
              filter (fun e => negb (has_relation e)) l).
Proof.
  unfold _Algorithm._remove_irrelevant_exprs.
  rewrite remove_irrelevant_loop_remove_each, remove_each_self. simpl.
  rewrite filter_ext_negb. reflexivity.
Qed.

Lemma transform_to_left_rel_spec (l : list _Algorithm.Expr) :
  Forall (fun e => has_relation e = true) l ->
  _Algorithm._transform_to_left_rel l
  = Returned (map SequenceParser.rewritten l).
Proof.
  unfold _Algorithm._transform_to_left_rel.
  induction 1 as [|e l He _ IH]; simpl; [reflexivity|].
  rewrite IH. unfold SequenceParser.rewritten, _Algorithm.transform_expr.
  unfold has_relation in He. destruct (relation e) as [r|]; [|discriminate].
  destruct (is_left_rel r); reflexivity.
Qed.

Lemma Forall_filter_true {A} (P : A -> bool) l :
  Forall (fun x => P x = true) (filter P l).
Proof. apply Forall_forall. intros x Hx. apply filter_In in Hx. tauto. Qed.

Lemma normalization_spec (l : list _Algorithm.Expr) :
  _Algorithm.normalization l
  = Returned (map SequenceParser.rewritten (filter has_relation l),
              filter (fun e => negb (has_relation e)) l).
Proof.
  unfold _Algorithm.normalization.
  rewrite remove_irrelevant_exprs_spec. simpl.
  rewrite transform_to_left_rel_spec by apply Forall_filter_true.
  reflexivity.
Qed.

Lemma rewritten_forward (e : _Algorithm.Expr) :
  has_relation e = true ->
  (exists d, relation (SequenceParser.rewritten e) = Some (mkRel true d)
     /\ reading (SequenceParser.rewritten e)
        = Some (left_operand (SequenceParser.rewritten e),
                right_operand (SequenceParser.rewritten e), d))
  /\ reading (SequenceParser.rewritten e) = reading e.
Proof.
  unfold has_relation, SequenceParser.rewritten, _Algorithm.transform_expr,
    reading.
  destruct e as [l r [[[|] d]|]]; simpl; intros Hr; try discriminate;
    (split; [exists d; split; reflexivity | reflexivity]).
Qed.

(** C9. After [_remove_irrelevant_exprs] and [_transform_to_left_rel], for
    every batch, each expression left in the working list is in forward
    form: its relation is marked left-directed and it reads "left operand
    precedes right operand" with its degree.  The working list says, in
    order, what the expressions with a relation said before the step. *)
Theorem C9_normalized_exprs_forward (exprs : list (list _Algorithm.Expr)) :
  exists working irrelevant,
    _Algorithm.normalization (_Algorithm.__init__ exprs)
      = Returned (working, irrelevant)
    /\ Forall (fun e => forward_form e
                 /\ exists d, reading e
                      = Some (left_operand e, right_operand e, d)) working
    /\ map reading working
       = map reading (filter has_relation (_Algorithm.__init__ exprs)).
Proof.
  remember (_Algorithm.__init__ exprs) as l eqn:El. clear El exprs.
  rewrite normalization_spec. do 2 eexists. split; [reflexivity|]. split.
  - apply Forall_forall. intros e He. apply in_map_iff in He.
    destruct He as (e0 & <- & He0). apply filter_In in He0.
    destruct (rewritten_forward e0 (proj2 He0)) as [(d & Hrel & Hread) _].
    split; [exists d; exact Hrel | exists d; exact Hread].
  - rewrite map_map. apply map_ext_in. intros e He. apply filter_In in He.
    apply rewritten_forward. tauto.
Qed.

(** C5. Operator symmetry: a batch with the directive [a <<d b] and the same
    batch with [b d>> a] in its place yield the same outcome, hence the same
    execution order. *)
Theorem C5_operator_symmetry (rt : Runtime) (before after : list _Algorithm.Expr)
    (a b : PluginIndex) (d : Z) :
  _Algorithm.generate_sequence rt
    (before ++ mkExpr a b (Some (mkRel true d)) :: after)
  = _Algorithm.generate_sequence rt
    (before ++ mkExpr b a (Some (mkRel false d)) :: after).
Proof.
  unfold _Algorithm.generate_sequence.
  rewrite !normalization_spec, !filter_app, !map_app. reflexivity.
Qed.

Lemma generate_execution_order_no_sentinel rt relations irrelevant order :
  _Algorithm._generate_execution_order rt relations irrelevant
    = Returned order ->
  forall x, In x order -> _Algorithm.is_head_or_tail x = false.
Proof.
  unfold _Algorithm._generate_execution_order.
  destruct (fold_left _Algorithm.record_relation relations ([], []))
    as [lhs rhs].
  destruct (_Algorithm.elimination rt (length lhs) lhs rhs []) as [o| |];
    simpl; try discriminate.
  rewrite strip_loop_remove_each, remove_each_self.
  intros [= <-] x Hx. apply filter_In in Hx.
  destruct (_Algorithm.is_head_or_tail x); [destruct Hx; discriminate|].
  reflexivity.
Qed.

Lemma algorithm_sequence_no_sentinel rt exprs order :
  _Algorithm.generate_sequence rt exprs = Returned order ->
  forall x, In x order -> _Algorithm.is_head_or_tail x = false.
Proof.
  unfold _Algorithm.generate_sequence. rewrite normalization_spec. simpl.
  destruct (_Algorithm.new_relations rt _) as [rels| |]; simpl;
    try discriminate.
  apply generate_execution_order_no_sentinel.
Qed.

(** C8. For every batch held by the parser, the sequence that
    [generate_sequence] returns contains neither the HEAD nor the TAIL
    sentinel identity, whatever directives with an omitted operand brought
    into the relations. *)
Theorem C8_no_sentinel_in_sequence (rt : Runtime)
    (self self' : SequenceParser.state) (order : list PluginIndex) :
  SequenceParser.generate_sequence rt self = (self', Returned order) ->
  ~ In HEAD_index order /\ ~ In TAIL_index order.
Proof.
  unfold SequenceParser.generate_sequence. intros [= _ Hseq].
  split; intros Hin;
    apply (algorithm_sequence_no_sentinel _ _ Hseq) in Hin; discriminate.
Qed.

Lemma C8_witness :
  ~ In HEAD_index [ix "pre_load" "a"; ix "pre_load" "b"]
  /\ ~ In TAIL_index [ix "pre_load" "a"; ix "pre_load" "b"].
Proof.
  eapply (C8_no_sentinel_in_sequence (rt := example_runtime)
            (self := SequenceParser.mkState false
               [("pre_load"%string,
                 [mkExpr (ix "pre_load" "a") TAIL_index (Some (mkRel true 0));
                  mkExpr HEAD_index (ix "pre_load" "b")
                         (Some (mkRel false 0))])])).
  vm_compute. reflexivity.
Defined.

(** ** The store of the parser *)

Section DictFacts.
Context {K V : Type} `{PyEq K}.

Lemma dict_get_upsert_same (k : K) (f : option V -> V) (d : dict K V) :
  dict_get k (dict_upsert k f d) = Some (f (dict_get k d)).
Proof.
  induction d as [|[k' v] d IH]; simpl.
  - rewrite py_eqb_refl. reflexivity.
  - destruct (py_eqb k k') eqn:E; simpl; rewrite E; [reflexivity | exact IH].
Qed.

Lemma dict_get_upsert_other (k k' : K) (f : option V -> V) (d : dict K V) :
  k' <> k -> dict_get k' (dict_upsert k f d) = dict_get k' d.
Proof.
  intros Hne. induction d as [|[k0 v] d IH]; simpl.
  - apply py_eqb_neq in Hne. rewrite Hne. reflexivity.
  - destruct (py_eqb_spec k k0) as [<-|Hk]; simpl.
    + apply py_eqb_neq in Hne. rewrite Hne. reflexivity.
    + destruct (py_eqb k' k0); [reflexivity | exact IH].
Qed.

Lemma dict_get_del_same (k : K) (d : dict K V) :
  dict_get k (dict_del k d) = None.
Proof.
  induction d as [|[k' v] d IH]; simpl; [reflexivity|].
  destruct (py_eqb k k') eqn:E; simpl; [exact IH | rewrite E; exact IH].
Qed.

Lemma dict_get_del_other (k k' : K) (d : dict K V) :
  k' <> k -> dict_get k' (dict_del k d) = dict_get k' d.
Proof.
  intros Hne. induction d as [|[k0 v] d IH]; simpl; [reflexivity|].
  destruct (py_eqb_spec k k0) as [<-|Hk]; simpl.
  - apply py_eqb_neq in Hne. rewrite Hne. exact IH.
  - destruct (py_eqb k' k0); [reflexivity | exact IH].
Qed.

Lemma dict_get_In_keys (k : K) (d : dict K V) :
  In k (dict_keys d) <-> dict_get k d <> None.
Proof.
  induction d as [|[k' v] d IH]; simpl; [tauto|].
  destruct (py_eqb_spec k k') as [->|Hk].
  - split; [discriminate | auto].
  - rewrite <- IH. split; [intros [E|]; [congruence | assumption] | auto].
Qed.
End DictFacts.

Section AnalyzeFacts.
Variable parse : string -> SequenceParser.ErrorCollector
                 -> list SequenceParser.RawExpr * SequenceParser.ErrorCollector.

(** What [analyze] leaves when it returns. *)
Lemma analyze_returned theme text self collector self' collector' :
  SequenceParser.analyze parse theme text self collector
    = (self', collector', Returned tt) ->
  exists processed,
    SequenceParser._replace_with_plugin_index theme
      (fst (parse text collector)) = Returned processed
    /\ SequenceParser.theme_plugin_expr_mapping self'
       = dict_set theme processed
           (SequenceParser.theme_plugin_expr_mapping self)
    /\ SequenceParser.error self' = SequenceParser.error self.
Proof.
  unfold SequenceParser.analyze, SequenceParser._archive_error.
  destruct (parse text collector) as [exprs c]. simpl.
  destruct (SequenceParser.lex_error c); [discriminate|].
  destruct (SequenceParser.yacc_error c); [discriminate|].
  destruct (SequenceParser._replace_with_plugin_index theme exprs)
    as [processed| |]; try discriminate.
  intros [= <- _]. exists processed. simpl. auto.
Qed.

(** What [analyze] leaves of the store when it does not return. *)
Lemma analyze_mapping_kept theme text self collector self' collector' r :
  SequenceParser.analyze parse theme text self collector
    = (self', collector', r) ->
  r <> Returned tt ->
  SequenceParser.theme_plugin_expr_mapping self'
  = SequenceParser.theme_plugin_expr_mapping self.
Proof.
  unfold SequenceParser.analyze, SequenceParser._archive_error.
  destruct (parse text collector) as [exprs c].
  destruct (SequenceParser.lex_error c); [intros [= <- _ _]; reflexivity|].
  destruct (SequenceParser.yacc_error c); [intros [= <- _ _]; reflexivity|].
  destruct (SequenceParser._replace_with_plugin_index theme exprs)
    as [processed| |]; intros [= <- _ <-]; congruence.
Qed.
End AnalyzeFacts.

(** C10. Two calls of [analyze] with the same namespace label, the second
    returning: the list stored for that namespace is the one the second call
    computed, whatever the first call stored, and the lists stored for all
    other namespaces are those from before the two calls. *)
Theorem C10_analyze_replaces_namespace
    (parse : string -> SequenceParser.ErrorCollector
             -> list SequenceParser.RawExpr * SequenceParser.ErrorCollector)
    (theme text1 text2 : string)
    (self0 self1 self2 : SequenceParser.state)
    (c0 c1 c2 : SequenceParser.ErrorCollector) (r1 : outcome unit) :
  SequenceParser.analyze parse theme text1 self0 c0 = (self1, c1, r1) ->
  SequenceParser.analyze parse theme text2 self1 c1
    = (self2, c2, Returned tt) ->
  exists processed,
    SequenceParser._replace_with_plugin_index theme (fst (parse text2 c1))
      = Returned processed
    /\ dict_get theme (SequenceParser.theme_plugin_expr_mapping self2)
       = Some processed
    /\ forall other, other <> theme ->
         dict_get other (SequenceParser.theme_plugin_expr_mapping self2)
         = dict_get other (SequenceParser.theme_plugin_expr_mapping self0).
Proof.
  intros H1 H2.
  destruct (analyze_returned _ _ _ _ _ H2) as (processed & Hp & Hm & _).
  exists processed. split; [exact Hp|]. rewrite Hm. unfold dict_set. split.
  - apply dict_get_upsert_same.
  - intros other Hne. rewrite dict_get_upsert_other by exact Hne.
    destruct r1 as [[]| |].
    + destruct (analyze_returned _ _ _ _ _ H1) as (p1 & _ & Hm1 & _).
      rewrite Hm1. apply dict_get_upsert_other. exact Hne.
    + rewrite (analyze_mapping_kept _ _ _ _ _ H1); [reflexivity|discriminate].
    + rewrite (analyze_mapping_kept _ _ _ _ _ H1); [reflexivity|discriminate].
Qed.

Lemma C10_witness :
  exists processed,
    SequenceParser._replace_with_plugin_index "pre_load"
      (fst (example_parse "b" (SequenceParser.mkCollector false false)))
      = Returned processed
    /\ dict_get "pre_load"%string
         (SequenceParser.theme_plugin_expr_mapping
            (SequenceParser.mkState false
               [("load"%string, []);
                ("pre_load"%string,
                 [mkExpr (ix "pre_load" "b") TAIL_index None])]))
       = Some processed
    /\ forall other, other <> "pre_load"%string ->
         dict_get other
           (SequenceParser.theme_plugin_expr_mapping
              (SequenceParser.mkState false
                 [("load"%string, []);
                  ("pre_load"%string,
                   [mkExpr (ix "pre_load" "b") TAIL_index None])]))
         = dict_get other
             (SequenceParser.theme_plugin_expr_mapping
                (SequenceParser.mkState false [("load"%string, [])])).
Proof.
  apply (@C10_analyze_replaces_namespace example_parse
           "pre_load"%string "a"%string "b"%string
           (SequenceParser.mkState false [("load"%string, [])])
           (SequenceParser.mkState false
              [("load"%string, []);
               ("pre_load"%string,
                [mkExpr (ix "pre_load" "a") TAIL_index None])])
           (SequenceParser.mkState false
              [("load"%string, []);
               ("pre_load"%string,
                [mkExpr (ix "pre_load" "b") TAIL_index None])])
           (SequenceParser.mkCollector false false)
           (SequenceParser.mkCollector false false)
           (SequenceParser.mkCollector false false)
           (Returned tt)); vm_compute; reflexivity.
Defined.

(** ** Qualification of operands *)

Lemma split_dot_length s :
  length (SequenceParser.split_dot s) = S (dots s).
Proof.
  induction s as [|c s IH]; simpl; [reflexivity|].
  destruct (Ascii.eqb c "."); simpl; [rewrite IH; reflexivity|].
  destruct (SequenceParser.split_dot s); simpl in *; [discriminate | exact IH].
Qed.

Lemma get_theme_plugin_malformed theme operand :
  2 <= dots operand ->
  SequenceParser.get_theme_plugin theme operand
  = Raised (SyntaxError (OperandError operand)).
Proof.
  intros Hd. unfold SequenceParser.get_theme_plugin.
  destruct (py_eqb_spec operand HEAD) as [->|_]; [simpl in Hd; lia|].
  destruct (py_eqb_spec operand TAIL) as [->|_]; [simpl in Hd; lia|].
  simpl. pose proof (split_dot_length operand) as Hl.
  destruct (SequenceParser.split_dot operand) as [|a [|b [|c l]]];
    simpl in Hl; try lia; reflexivity.
Qed.

Lemma get_theme_plugin_well_formed theme operand :
  dots operand < 2 ->
  exists r, SequenceParser.get_theme_plugin theme operand = Returned r.
Proof.
  intros Hd. unfold SequenceParser.get_theme_plugin.
  destruct (py_eqb operand HEAD || py_eqb operand TAIL); [eauto|].
  pose proof (split_dot_length operand) as Hl.
  destruct (SequenceParser.split_dot operand) as [|a [|b [|c l]]];
    simpl in Hl; try lia; eauto.
Qed.

Lemma replace_expr_cases theme (e : SequenceParser.RawExpr) :
  (exists x, SequenceParser.replace_expr theme e = Returned x)
  \/ (exists operand, 2 <= dots operand
        /\ SequenceParser.replace_expr theme e
           = Raised (SyntaxError (OperandError operand))).
Proof.
  unfold SequenceParser.replace_expr.
  destruct (le_lt_dec 2 (dots (left_operand e))) as [Hl|Hl].
  - right. exists (left_operand e). split; [exact Hl|].
    rewrite get_theme_plugin_malformed by exact Hl. reflexivity.
  - destruct (get_theme_plugin_well_formed theme _ Hl) as ([lt lp] & ->).
    simpl. destruct (le_lt_dec 2 (dots (right_operand e))) as [Hr|Hr].
    + right. exists (right_operand e). split; [exact Hr|].
      rewrite get_theme_plugin_malformed by exact Hr. reflexivity.
    + destruct (get_theme_plugin_well_formed theme _ Hr) as ([rt rp] & ->).
      simpl. left. eauto.
Qed.

Lemma replace_expr_malformed theme (e : SequenceParser.RawExpr) :
  malformed e ->
  exists operand, 2 <= dots operand
    /\ SequenceParser.replace_expr theme e
       = Raised (SyntaxError (OperandError operand)).
Proof.
  intros Hm. destruct (replace_expr_cases theme e) as [(x & Hx)|Hr];
    [|exact Hr].
  exfalso. unfold SequenceParser.replace_expr in Hx.
  destruct (le_lt_dec 2 (dots (left_operand e))) as [Hl|Hl].
  - rewrite get_theme_plugin_malformed in Hx by exact Hl. discriminate.
  - destruct Hm as [Hm|Hm]; [lia|].
    destruct (get_theme_plugin_well_formed theme _ Hl) as ([lt lp] & E).
    rewrite E in Hx. simpl in Hx.
    rewrite get_theme_plugin_malformed in Hx by exact Hm. discriminate.
Qed.

Lemma replace_with_plugin_index_malformed theme
    (exprs : list SequenceParser.RawExpr) :
  Exists malformed exprs ->
  exists operand, 2 <= dots operand
    /\ SequenceParser._replace_with_plugin_index theme exprs
       = Raised (SyntaxError (OperandError operand)).
Proof.
  unfold SequenceParser._replace_with_plugin_index.
  induction exprs as [|e exprs IH]; intros Hex; [inversion Hex|].
  simpl. destruct (replace_expr_cases theme e) as [(x & Hx)|(op & Hop & ->)].
  - rewrite Hx. simpl. inversion Hex as [? ? Hm|? ? Hm]; subst.
    + destruct (replace_expr_malformed theme Hm) as (op & Hop & E).
      congruence.
    + destruct (IH Hm) as (op & Hop & ->). exists op. auto.
  - exists op. auto.
Qed.






(** ** Lexical and syntax errors *)

(** C6 fails on the code.  When the lexer or the parser has flagged an error
    for the text, [_archive_error] sets the had-errors flag and then raises
    [NameError] on the unbound name [theme]: [analyze] does not return, the
    diagnostic is not archived and nothing is stored for the namespace. *)
Theorem C6_flagged_text_raises_NameError
    (parse : string -> SequenceParser.ErrorCollector
             -> list SequenceParser.RawExpr * SequenceParser.ErrorCollector)
    (theme text : string) (self : SequenceParser.state)
    (collector : SequenceParser.ErrorCollector) :
  SequenceParser.lex_error (snd (parse text collector)) = true
  \/ SequenceParser.yacc_error (snd (parse text collector)) = true ->
  exists self',
    SequenceParser.analyze parse theme text self collector
      = (self', snd (parse text collector), Raised (NameError "theme"))
    /\ SequenceParser.error self' = true
    /\ SequenceParser.theme_plugin_expr_mapping self'
       = SequenceParser.theme_plugin_expr_mapping self.
Proof.
  unfold SequenceParser.analyze, SequenceParser._archive_error.
  destruct (parse text collector) as [exprs c]. simpl.
  destruct (SequenceParser.lex_error c);
    [intros _; eexists; split; [reflexivity | split; reflexivity]|].
  destruct (SequenceParser.yacc_error c);
    [intros _; eexists; split; [reflexivity | split; reflexivity]|].
  intros [H|H]; discriminate H.
Qed.

Lemma C6_witness :
  exists self',
    SequenceParser.analyze example_parse "pre_load" "?"
      SequenceParser.__init__ (SequenceParser.mkCollector false false)
      = (self',
         snd (example_parse "?" (SequenceParser.mkCollector false false)),
         Raised (NameError "theme"))
    /\ SequenceParser.error self' = true
    /\ SequenceParser.theme_plugin_expr_mapping self'
       = SequenceParser.theme_plugin_expr_mapping SequenceParser.__init__.
Proof.
  apply (@C6_flagged_text_raises_NameError example_parse
           "pre_load"%string "?"%string SequenceParser.__init__
           (SequenceParser.mkCollector false false)).
  left. reflexivity.
Defined.

(** ** Scenario A *)

Lemma tuple_le_same_hash h d e : tuple_le (h, d) (h, e) = (d <=? e)%Z.
Proof.
  unfold tuple_le; simpl. rewrite Z.ltb_irrefl, Z.eqb_refl. reflexivity.
Qed.

(** C4. Scenario A: for [loader_a <<0 loader_b] and [loader_c <<1 loader_b]
    in the namespace [pre_load], whatever the hashes and the set layouts,
    [generate_sequence] returns [pre_load.loader_c], [pre_load.loader_a],
    [pre_load.loader_b] in this order: in the group anchored at the right
    operand the higher degree comes first. *)
Theorem C4_scenario_A (rt : Runtime) :
  SequenceParser._replace_with_plugin_index "pre_load" scenario_A_raw
    = Returned scenario_A
  /\ snd (SequenceParser.generate_sequence rt
            (SequenceParser.mkState false [("pre_load"%string, scenario_A)]))
     = Returned [ix "pre_load" "loader_c"; ix "pre_load" "loader_a";
                 ix "pre_load" "loader_b"].
Proof.
  split; [reflexivity|].
  unfold SequenceParser.generate_sequence, _Algorithm.generate_sequence.
  rewrite normalization_spec.
  cbn -[tuple_le Z.leb hash slot].
  rewrite !tuple_le_same_hash.
  destruct (tuple_le _ _); vm_compute; reflexivity.
Qed.
(** ** Sorting and sets *)

Arguments py_eqb : simpl never.

Section SortFacts.
Context {A : Type} (le : A -> A -> bool).

Lemma insert_perm x l : Permutation (x :: l) (insert le x l).
Proof.
  induction l as [|y l IH]; simpl; [reflexivity|].
  destruct (le x y); [reflexivity|].
  rewrite perm_swap. constructor. exact IH.
Qed.

Lemma isort_perm l : Permutation l (isort le l).
Proof.
  induction l as [|x l IH]; simpl; [reflexivity|].
  rewrite <- insert_perm. constructor. exact IH.
Qed.
End SortFacts.

Lemma set_iter_perm rt l : Permutation l (set_iter rt l).
Proof. apply isort_perm. Qed.

Lemma set_pop_In rt l :
  l <> [] -> exists item, set_pop rt l = Some item /\ In item l.
Proof.
  intros Hne. unfold set_pop. pose proof (set_iter_perm rt l) as Hp.
  destruct (set_iter rt l) as [|item rest] eqn:E.
  - apply Permutation_sym, Permutation_nil in Hp. contradiction.
  - exists item. split; [reflexivity|].
    apply (Permutation_in _ (Permutation_sym Hp)). left. reflexivity.
Qed.

Section SetFacts.
Context {A : Type} `{PyEq A}.

Lemma mem_In (x : A) l : mem x l = true <-> In x l.
Proof.
  unfold mem. rewrite existsb_exists. split.
  - intros (y & Hy & E). apply py_eqb_eq in E. subst. exact Hy.
  - intros Hx. exists x. split; [exact Hx | apply py_eqb_refl].
Qed.

Lemma dedup_In (x : A) l : In x (dedup l) <-> In x l.
Proof.
  induction l as [|y l IH]; simpl; [tauto|].
  rewrite filter_In, IH. destruct (py_eqb_spec y x) as [->|Hne]; simpl.
  - tauto.
  - split; [tauto|]. intros [E|Hin]; [congruence | auto].
Qed.

Lemma dedup_NoDup (l : list A) : NoDup (dedup l).
Proof.
  induction l as [|y l IH]; simpl; constructor.
  - rewrite filter_In, py_eqb_refl. simpl. intros [_ F]. discriminate.
  - apply NoDup_filter. exact IH.
Qed.
End SetFacts.

Lemma set_difference_In x a b :
  In x (set_difference a b) <-> In x a /\ ~ In x b.
Proof.
  unfold set_difference. rewrite filter_In, dedup_In, negb_true_iff.
  rewrite <- (mem_In x b). destruct (mem x b); intuition congruence.
Qed.

(** ** The elimination loop *)

Lemma occ_app {A} `{PyEq A} (x : A) l l' : occ x (l ++ l') = occ x l + occ x l'.
Proof. unfold occ. rewrite filter_app, length_app. reflexivity. Qed.

Lemma occ_In {A} `{PyEq A} (x : A) l : In x l <-> 0 < occ x l.
Proof.
  induction l as [|y l IH]; simpl.
  - unfold occ; simpl; lia.
  - rewrite occ_cons. destruct (py_eqb_spec x y) as [->|Hne].
    + split; [lia | auto].
    + rewrite <- IH. split; [intros [E|]; [congruence | assumption] | auto].
Qed.

Lemma cnt_upsert y k f (rhs : _Algorithm.rhs_dict) :
  cnt y (dict_upsert k f rhs)
  = if py_eqb y k then f (dict_get k rhs) else cnt y rhs.
Proof.
  unfold cnt. destruct (py_eqb_spec y k) as [->|Hne].
  - rewrite dict_get_upsert_same. reflexivity.
  - rewrite dict_get_upsert_other by exact Hne. reflexivity.
Qed.

Lemma cnt_release y (rhs : _Algorithm.rhs_dict) r :
  cnt y (_Algorithm.release rhs r)
  = (cnt y rhs - if py_eqb y r then 1 else 0)%Z.
Proof.
  unfold _Algorithm.release. rewrite dict_get_upsert_same. cbv beta.
  change (default 0%Z (Some (default 0%Z (dict_get r rhs) - 1)%Z))
    with (cnt r rhs - 1)%Z.
  destruct (Z.eqb_spec (cnt r rhs - 1) 0) as [Hz|Hz].
  - unfold cnt at 1. destruct (py_eqb_spec y r) as [->|Hne].
    + rewrite dict_get_del_same. simpl. lia.
    + rewrite dict_get_del_other by exact Hne.
      rewrite dict_get_upsert_other by exact Hne. unfold cnt. lia.
  - rewrite cnt_upsert. destruct (py_eqb_spec y r) as [->|Hne];
      unfold cnt; lia.
Qed.

Lemma cnt_fold_release y successors : forall rhs : _Algorithm.rhs_dict,
  cnt y (fold_left _Algorithm.release successors rhs)
  = (cnt y rhs - Z.of_nat (occ y successors))%Z.
Proof.
  induction successors as [|r successors IH]; simpl; intros rhs.
  - unfold occ; simpl; lia.
  - rewrite IH, cnt_release, occ_cons. destruct (py_eqb y r); lia.
Qed.

Lemma cnt_pos_In_keys y (rhs : _Algorithm.rhs_dict) :
  (0 < cnt y rhs)%Z -> In y (dict_keys rhs).
Proof.
  unfold cnt. intros Hpos. apply dict_get_In_keys.
  destruct (dict_get y rhs); [discriminate | simpl in Hpos; lia].
Qed.

Lemma indeg_upsert y l r (lhs : _Algorithm.lhs_dict) :
  indeg y (dict_upsert l (fun o => default [] o ++ [r]) lhs)
  = indeg y lhs + if py_eqb y r then 1 else 0.
Proof.
  induction lhs as [|[k s] lhs IH]; cbn [dict_upsert indeg default app].
  - rewrite occ_cons. change (occ y []) with 0.
    destruct (py_eqb y r); lia.
  - destruct (py_eqb l k); cbn [indeg default].
    + rewrite occ_app, occ_cons. change (occ y []) with 0.
      destruct (py_eqb y r); lia.
    + rewrite IH. lia.
Qed.

Lemma indeg_del y k (lhs : _Algorithm.lhs_dict) :
  indeg y (dict_del k lhs) + occ y (default [] (dict_get k lhs))
  <= indeg y lhs.
Proof.
  induction lhs as [|[k' s] lhs IH]; simpl.
  - unfold occ; simpl; lia.
  - destruct (py_eqb k k'); simpl.
    + assert (indeg y (dict_del k lhs) <= indeg y lhs); [|lia].
      clear. induction lhs as [|[k0 s0] lhs IH]; simpl; [lia|].
      destruct (py_eqb k k0); simpl; lia.
    + lia.
Qed.

Lemma indeg_entry y u successors (lhs : _Algorithm.lhs_dict) :
  dict_get u lhs = Some successors -> occ y successors <= indeg y lhs.
Proof.
  induction lhs as [|[k s] lhs IH]; simpl; [discriminate|].
  destruct (py_eqb u k); [intros [= ->]; lia|].
  intros Hg. specialize (IH Hg). lia.
Qed.

Lemma dict_del_length {V} k (d : dict PluginIndex V) :
  In k (dict_keys d) -> length (dict_del k d) < length d.
Proof.
  induction d as [|[k' v] d IH]; simpl; [tauto|].
  destruct (py_eqb_spec k k') as [<-|Hne]; simpl.
  - intros _. fold (dict_del k d).
    pose proof (filter_length_le (fun kv => negb (py_eqb k (fst kv))) d).
    unfold dict_del. lia.
  - intros [E|Hin]; [congruence|]. specialize (IH Hin). lia.
Qed.

(** What the two dictionaries hold after the relations were recorded. *)
Lemma record_relations_spec relations : forall lhs rhs lhs' rhs',
  fold_left _Algorithm.record_relation relations (lhs, rhs) = (lhs', rhs') ->
  (forall y, (Z.of_nat (indeg y lhs) <= cnt y rhs)%Z) ->
  (forall y, (Z.of_nat (indeg y lhs') <= cnt y rhs')%Z)
  /\ (forall u successors y,
        dict_get u lhs = Some successors -> In y successors ->
        exists successors',
          dict_get u lhs' = Some successors' /\ In y successors')
  /\ (forall x y, edge relations x y ->
        exists successors,
          dict_get x lhs' = Some successors /\ In y successors).
Proof.
  induction relations as [|e relations IH]; simpl; intros lhs rhs lhs' rhs'.
  - intros [= <- <-] Hle. split; [exact Hle|]. split; [eauto|].
    intros x y (e & [] & _).
  - unfold _Algorithm.record_relation at 2. simpl. intros Hfold Hle.
    apply IH in Hfold.
    + destruct Hfold as (Hle' & Hkeep & Hedge). split; [exact Hle'|].
      assert (Hstep : forall u successors y,
                 dict_get u lhs = Some successors -> In y successors ->
                 exists successors',
                   dict_get u
                     (dict_upsert (left_operand e)
                        (fun o => default [] o ++ [right_operand e]) lhs)
                   = Some successors' /\ In y successors').
      { intros u s y Hu Hy.
        destruct (py_eqb_spec u (left_operand e)) as [->|Hne].
        - rewrite dict_get_upsert_same, Hu. simpl. eexists. split; eauto.
          apply in_or_app. auto.
        - rewrite dict_get_upsert_other by exact Hne. eauto. }
      split.
      * intros u s y Hu Hy. destruct (Hstep u s y Hu Hy) as (s' & Hs' & Hy').
        eauto.
      * intros x y (e' & [<-|Hin] & Hx & Hy).
        -- subst x y. eapply Hkeep.
           ++ apply dict_get_upsert_same.
           ++ apply in_or_app. right. left. reflexivity.
        -- apply Hedge. exists e'. auto.
    + intros y. rewrite indeg_upsert, cnt_upsert. specialize (Hle y).
      unfold cnt in *. destruct (py_eqb_spec y (right_operand e)) as [->|_];
        lia.
Qed.

Lemma on_cycle_predecessor relations x :
  on_cycle relations x ->
  exists u, on_cycle relations u /\ edge relations u x.
Proof.
  unfold on_cycle. intros Hp.
  assert (Hgen : forall a b, path relations a b ->
            exists u, edge relations u b
              /\ (u = a \/ path relations a u)).
  { induction 1 as [a b He|a b c He Hp' IH].
    - exists a. auto.
    - destruct IH as (u & Hu & [->|Hpu]).
      + exists b. split; [exact Hu|]. right. constructor. exact He.
      + exists u. split; [exact Hu|]. right.
        eapply path_step; eauto. }
  destruct (Hgen x x Hp) as (u & Hu & [->|Hxu]).
  - exists x. auto.
  - exists u. split; [|exact Hu]. clear Hgen.
    assert (Hux : path relations u x) by (constructor; exact Hu).
    clear Hu Hp. revert Hxu.
    assert (Htrans : forall a b c, path relations a b -> path relations b c
                       -> path relations a c).
    { induction 1; intros; eapply path_step; eauto. }
    intros Hxu. exact (Htrans _ _ _ Hux Hxu).
Qed.

(** The loop on relations with a cycle: the identities on a cycle are never
    eligible, so the loop ends by raising, with them among the keys of both
    dictionaries. *)
Lemma elimination_stuck rt relations : forall fuel lhs rhs order,
  has_cycle relations ->
  length lhs <= fuel ->
  (forall y, (Z.of_nat (indeg y lhs) <= cnt y rhs)%Z) ->
  (forall x y, on_cycle relations x -> edge relations x y ->
     exists successors, dict_get x lhs = Some successors /\ In y successors) ->
  exists lhs' rhs',
    _Algorithm.elimination rt fuel lhs rhs order
      = Raised (SyntaxError (SomethingWrong lhs' rhs'))
    /\ forall x, on_cycle relations x ->
         In x (dict_keys lhs') /\ In x (dict_keys rhs').
Proof.
  induction fuel as [|fuel IH]; intros lhs rhs order Hcyc Hfuel Hle Hkeep.
  - destruct Hcyc as (x & Hx).
    destruct (on_cycle_predecessor Hx) as (u & Hu & Hux).
    destruct (Hkeep u x Hu Hux) as (s & Hs & _).
    destruct lhs; [discriminate | simpl in Hfuel; lia].
  - assert (Hstuck : forall x, on_cycle relations x ->
              In x (dict_keys lhs) /\ In x (dict_keys rhs)).
    { intros x Hx. destruct (on_cycle_predecessor Hx) as (u & Hu & Hux).
      destruct (Hkeep u x Hu Hux) as (s & Hs & Hin). split.
      - destruct (on_cycle_predecessor Hu) as (w & Hw & Hwu).
        clear Hw Hwu.
        assert (exists z, edge relations x z) as (z & Hz).
        { clear -Hx. unfold on_cycle in Hx.
          inversion Hx; subst; eauto. }
        destruct (Hkeep x z Hx Hz) as (sx & Hsx & _).
        apply dict_get_In_keys. congruence.
      - apply cnt_pos_In_keys. specialize (Hle x).
        pose proof (indeg_entry x _ _ Hs) as He.
        apply occ_In in Hin. lia. }
    simpl. destruct lhs as [|entry lhs0] eqn:Elhs.
    + destruct Hcyc as (x & Hx). destruct (Hstuck x Hx) as [[] _].
    + rewrite <- Elhs in *. clear Elhs entry lhs0.
      destruct (set_difference (dict_keys lhs) (dict_keys rhs))
        as [|c cs] eqn:Eu.
      * do 2 eexists. split; [reflexivity | exact Hstuck].
      * rewrite <- Eu.
        destruct (set_pop_In rt (l := set_difference (dict_keys lhs)
                                          (dict_keys rhs)))
          as (item & -> & Hitem); [rewrite Eu; discriminate|].
        apply set_difference_In in Hitem. destruct Hitem as [Hil Hir].
        assert (Hnot : ~ on_cycle relations item).
        { intros Hon. apply Hir. apply Hstuck. exact Hon. }
        apply IH.
        -- exact Hcyc.
        -- pose proof (dict_del_length item lhs Hil). lia.
        -- intros y. rewrite cnt_fold_release.
           pose proof (indeg_del y item lhs). specialize (Hle y). lia.
        -- intros x y Hx Hxy. destruct (Hkeep x y Hx Hxy) as (s & Hs & Hin).
           exists s. split; [|exact Hin].
           rewrite dict_get_del_other; [exact Hs|]. congruence.
Qed.

Lemma generate_execution_order_cycle rt relations irrelevant :
  has_cycle relations ->
  exists lhs rhs,
    _Algorithm._generate_execution_order rt relations irrelevant
      = Raised (SyntaxError (SomethingWrong lhs rhs))
    /\ forall x, on_cycle relations x ->
         In x (dict_keys lhs) /\ In x (dict_keys rhs).
Proof.
  intros Hcyc. unfold _Algorithm._generate_execution_order.
  destruct (fold_left _Algorithm.record_relation relations ([], []))
    as [lhs0 rhs0] eqn:Efold.
  apply record_relations_spec in Efold; [|intros y; unfold cnt; simpl; lia].
  destruct Efold as (Hle & _ & Hedge).
  destruct (@elimination_stuck rt relations (length lhs0) lhs0 rhs0 []
              Hcyc (le_n _) Hle) as (lhs & rhs & -> & Hstuck).
  - intros x y _ Hxy. apply Hedge. exact Hxy.
  - exists lhs, rhs. split; [reflexivity | exact Hstuck].
Qed.

(** ** The merged edges are always produced *)

Lemma mapM_total {A B} (f : A -> outcome B) l :
  Forall (fun a => exists b, f a = Returned b) l ->
  exists bs, mapM f l = Returned bs /\ length bs = length l.
Proof.
  induction 1 as [|a l (b & Hb) _ (bs & Hbs & Hlen)]; simpl.
  - exists []. auto.
  - rewrite Hb, Hbs. simpl. exists (b :: bs). simpl. auto.
Qed.

Lemma sorted_total rt op reverse (l : list _Algorithm.Expr) :
  Forall (fun e => has_relation e = true) l ->
  exists l', sorted (_Algorithm.cmp_key rt op) reverse l = Returned l'
    /\ Permutation l l'.
Proof.
  intros Hrel. unfold sorted.
  destruct (mapM_total (_Algorithm.cmp_key rt op) (l := l))
    as (keys & -> & Hlen).
  - eapply Forall_impl; [|exact Hrel]. intros e He.
    unfold _Algorithm.cmp_key, has_relation in *.
    destruct (relation e); [eauto | discriminate].
  - simpl. eexists. split; [reflexivity|].
    rewrite <- isort_perm.
    clear Hrel. revert keys Hlen.
    induction l as [|e l IH]; intros [|k keys] Hlen; simpl in *;
      try discriminate; constructor.
    apply IH. lia.
Qed.

Lemma yield_group_loop_nonempty op (l : list _Algorithm.Expr) :
  forall val group, group <> [] ->
  Forall (fun g => g <> []) (_Algorithm.yield_group_loop op val group l).
Proof.
  induction l as [|e l IH]; simpl; intros val group Hne.
  - constructor; [exact Hne | constructor].
  - destruct (py_eqb val (getattr e op)).
    + apply IH. destruct group; discriminate.
    + constructor; [exact Hne|]. apply IH. discriminate.
Qed.

Lemma yield_group_nonempty (l : list _Algorithm.Expr) op :
  Forall (fun g => g <> []) (_Algorithm._yield_group l op).
Proof.
  destruct l as [|e l]; simpl; [constructor|].
  apply yield_group_loop_nonempty. discriminate.
Qed.

Lemma py_index_first {A} (a : A) l : py_index (a :: l) 0 = Returned a.
Proof.
  unfold py_index. simpl length.
  replace (0 <? 0)%Z with false by reflexivity.
  replace ((0 <=? 0) && (0 <? Z.of_nat (S (length l))))%Z with true.
  - reflexivity.
  - symmetry. apply andb_true_iff. split; [reflexivity | apply Z.ltb_lt; lia].
Qed.

Lemma py_index_last {A} (l : list A) a :
  py_index (l ++ [a]) (-1) = Returned a.
Proof.
  unfold py_index. rewrite length_app. simpl length.
  replace (-1 <? 0)%Z with true by reflexivity.
  replace (Z.of_nat (length l + 1) + -1)%Z with (Z.of_nat (length l)) by lia.
  replace ((0 <=? Z.of_nat (length l))
           && (Z.of_nat (length l) <? Z.of_nat (length l + 1)))%Z with true.
  - rewrite Nat2Z.id, nth_error_app2, Nat.sub_diag by lia. reflexivity.
  - symmetry. apply andb_true_iff.
    split; [apply Z.leb_le | apply Z.ltb_lt]; lia.
Qed.

Lemma break_relation_group_total (g : list _Algorithm.Expr) :
  g <> [] ->
  (exists c, _Algorithm._break_left_relation_group g = Returned c)
  /\ (exists c, _Algorithm._break_right_relation_group g = Returned c).
Proof.
  intros Hne.
  unfold _Algorithm._break_left_relation_group,
    _Algorithm._break_right_relation_group, _Algorithm._break_relation_group.
  split.
  - destruct g as [|e g]; [contradiction|]. rewrite py_index_first. simpl.
    eauto.
  - destruct (exists_last Hne) as (g' & e & ->). rewrite py_index_last.
    simpl. eauto.
Qed.

Lemma new_relations_total rt (l : list _Algorithm.Expr) :
  Forall (fun e => has_relation e = true) l ->
  exists relations, _Algorithm.new_relations rt l = Returned relations.
Proof.
  intros Hrel. unfold _Algorithm.new_relations,
    _Algorithm._generate_left_relation_group,
    _Algorithm._generate_right_relation_group.
  destruct (sorted_total rt left_operand_name false Hrel) as (sl & -> & _).
  destruct (sorted_total rt right_operand_name true Hrel) as (sr & -> & _).
  simpl.
  destruct (mapM_total _Algorithm._break_left_relation_group
              (l := _Algorithm._yield_group sl left_operand_name))
    as (lc & -> & _).
  { eapply Forall_impl; [|apply yield_group_nonempty].
    intros g Hg. apply break_relation_group_total. exact Hg. }
  simpl.
  destruct (mapM_total _Algorithm._break_right_relation_group
              (l := _Algorithm._yield_group sr right_operand_name))
    as (rc & -> & _).
  { eapply Forall_impl; [|apply yield_group_nonempty].
    intros g Hg. apply break_relation_group_total. exact Hg. }
  simpl. eauto.
Qed.

Lemma rewritten_has_relation (e : _Algorithm.Expr) :
  has_relation e = true -> has_relation (SequenceParser.rewritten e) = true.
Proof.
  intros He. destruct (rewritten_forward e He) as [(d & Hd & _) _].
  unfold has_relation. rewrite Hd. reflexivity.
Qed.

Lemma normalized_has_relation (l : list _Algorithm.Expr) :
  Forall (fun e => has_relation e = true)
    (map SequenceParser.rewritten (filter has_relation l)).
Proof.
  apply Forall_forall. intros e He. apply in_map_iff in He.
  destruct He as (e0 & <- & He0). apply filter_In in He0.
  apply rewritten_has_relation. tauto.
Qed.

(** Every batch has its merged edges: neither the normalisation nor the
    chain building raises. *)
Lemma merged_edges_total rt (l : list _Algorithm.Expr) :
  exists relations, merged_edges rt l = Returned relations.
Proof.
  unfold merged_edges. rewrite normalization_spec. simpl.
  apply new_relations_total, normalized_has_relation.
Qed.

(** C2. When the merged edges of the batch contain a cycle,
    [generate_sequence] raises the ordering error, whose message holds the
    two residual dictionaries with every identity that lies on a cycle among
    their keys; no sequence is returned. *)
Theorem C2_cycle_raises_ordering_error (rt : Runtime)
    (self : SequenceParser.state) (relations : list _Algorithm.Expr) :
  merged_edges rt
    (_Algorithm.__init__
       (dict_values (SequenceParser.theme_plugin_expr_mapping self)))
    = Returned relations ->
  has_cycle relations ->
  exists lhs rhs,
    snd (SequenceParser.generate_sequence rt self)
      = Raised (SyntaxError (SomethingWrong lhs rhs))
    /\ lhs <> []
    /\ forall x, on_cycle relations x ->
         In x (dict_keys lhs) /\ In x (dict_keys rhs).
Proof.
  unfold merged_edges, SequenceParser.generate_sequence,
    _Algorithm.generate_sequence. simpl.
  rewrite normalization_spec. simpl. intros -> Hcyc. simpl.
  destruct (generate_execution_order_cycle rt
              (filter (fun e => negb (has_relation e))
                 (_Algorithm.__init__
                    (dict_values
                       (SequenceParser.theme_plugin_expr_mapping self))))
              Hcyc) as (lhs & rhs & -> & Hstuck).
  exists lhs, rhs. split; [reflexivity|]. split; [|exact Hstuck].
  destruct Hcyc as (x & Hx). destruct (Hstuck x Hx) as [Hin _].
  intros ->. exact Hin.
Qed.

Lemma C2_witness :
  exists lhs rhs,
    snd (SequenceParser.generate_sequence example_runtime
           (SequenceParser.mkState false [("pre_load"%string, scenario_D)]))
      = Raised (SyntaxError (SomethingWrong lhs rhs))
    /\ lhs <> []
    /\ forall x, on_cycle scenario_D_edges x ->
         In x (dict_keys lhs) /\ In x (dict_keys rhs).
Proof.
  apply (@C2_cycle_raises_ordering_error example_runtime
           (SequenceParser.mkState false [("pre_load"%string, scenario_D)])
           scenario_D_edges).
  - vm_compute. reflexivity.
  - exists (ix "pre_load" "a").
    apply path_step with (y := ix "pre_load" "b").
    + eexists. split; [left; reflexivity | split; reflexivity].
    + apply path_edge.
      eexists. split; [right; left; reflexivity | split; reflexivity].
Defined.

(** ** A plugin on a bare line and in a relation *)

Lemma NoDup_occ {A} `{PyEq A} (x : A) l : NoDup l -> occ x l <= 1.
Proof.
  induction 1 as [|y l Hy _ IH]; [unfold occ; simpl; lia|].
  rewrite occ_cons. destruct (py_eqb_spec x y) as [->|_]; [|exact IH].
  destruct (proj1 (Nat.lt_eq_cases 0 (occ y l)) (Nat.le_0_l _)) as [Hp|<-];
    [|lia].
  apply occ_In in Hp. contradiction.
Qed.

(** C1 fails on the code.  The directives [a] and [a << b] of one namespace
    have acyclic merged edges, and whatever the hashes and the set layouts,
    [generate_sequence] returns a sequence in which [a] occurs twice: once
    as emitted by the loop and once more from the left-behind set, from
    which the keys of [left_hand_side] are not taken out. *)
Theorem C1_bare_and_related_occurs_twice (rt : Runtime) :
  (exists relations,
     merged_edges rt bare_and_related = Returned relations
     /\ ~ has_cycle relations)
  /\ exists order,
       snd (SequenceParser.generate_sequence rt
              (SequenceParser.mkState false
                 [("pre_load"%string, bare_and_related)]))
       = Returned order
       /\ occ (ix "pre_load" "a") order = 2
       /\ ~ NoDup order.
Proof.
  split.
  - eexists. split; [vm_compute; reflexivity|].
    intros (x & Hx). unfold on_cycle in Hx.
    assert (Hab : forall u v,
              path [mkExpr (ix "pre_load" "a") (ix "pre_load" "b")
                      (Some (mkRel true (-1)));
                    mkExpr (ix "pre_load" "a") (ix "pre_load" "b")
                      (Some (mkRel true (-1)))] u v ->
              u = ix "pre_load" "a" /\ v = ix "pre_load" "b").
    { assert (He : forall u v,
                edge [mkExpr (ix "pre_load" "a") (ix "pre_load" "b")
                        (Some (mkRel true (-1)));
                      mkExpr (ix "pre_load" "a") (ix "pre_load" "b")
                        (Some (mkRel true (-1)))] u v ->
                u = ix "pre_load" "a" /\ v = ix "pre_load" "b").
      { intros u v (e & [<-|[<-|[]]] & <- & <-); auto. }
      induction 1 as [u v Huv|u v w Huv _ [Hv _]]; [auto|].
      apply He in Huv. destruct Huv as [_ ->]. discriminate. }
    destruct (Hab x x Hx) as [-> Hb]. discriminate.
  - unfold SequenceParser.generate_sequence, _Algorithm.generate_sequence.
    cbn [snd]. rewrite normalization_spec.
    cbv -[slot_le].
    destruct (slot_le _ _ _ _); vm_compute; eexists;
      (split; [reflexivity|]); (split; [reflexivity|]);
      intros Hnd; apply (NoDup_occ (ix "pre_load" "a")) in Hnd;
      vm_compute in Hnd; lia.
Qed.

(** ** The loops end *)

Lemma elimination_fuel rt : forall fuel lhs rhs order,
  length lhs <= fuel ->
  _Algorithm.elimination rt fuel lhs rhs order <> OutOfFuel.
Proof.
  induction fuel as [|fuel IH]; intros lhs rhs order Hfuel.
  - destruct lhs; [discriminate | simpl in Hfuel; lia].
  - simpl. destruct lhs as [|entry lhs0] eqn:Elhs; [discriminate|].
    rewrite <- Elhs in *. clear Elhs entry lhs0.
    destruct (set_difference (dict_keys lhs) (dict_keys rhs))
      as [|c cs] eqn:Eu; [discriminate|].
    rewrite <- Eu.
    destruct (set_pop_In rt (l := set_difference (dict_keys lhs)
                                      (dict_keys rhs)))
      as (item & -> & Hitem); [rewrite Eu; discriminate|].
    apply set_difference_In in Hitem. destruct Hitem as [Hil _].
    apply IH. pose proof (dict_del_length item lhs Hil). lia.
Qed.

(** [generate_sequence] returns or raises on every batch: the number of
    iterations allowed to the [while] loop, one per key of
    [left_hand_side], is never exhausted. *)
Lemma generate_sequence_ends rt (l : list _Algorithm.Expr) :
  _Algorithm.generate_sequence rt l <> OutOfFuel.
Proof.
  unfold _Algorithm.generate_sequence. rewrite normalization_spec. simpl.
  destruct (new_relations_total rt (normalized_has_relation l))
    as (relations & ->).
  simpl. unfold _Algorithm._generate_execution_order.
  destruct (fold_left _ _ _) as [lhs rhs].
  pose proof (@elimination_fuel rt (length lhs) lhs rhs [] (le_n _)) as Hf.
  destruct (_Algorithm.elimination rt (length lhs) lhs rhs []);
    simpl; try congruence.
  rewrite strip_loop_remove_each, remove_each_self. discriminate.
Qed.

(** ** What the outcome depends on *)

Lemma mapM_ext_in {A B} (f g : A -> outcome B) l :
  (forall a, In a l -> f a = g a) -> mapM f l = mapM g l.
Proof.
  induction l as [|a l IH]; simpl; intros Hfg; [reflexivity|].
  rewrite (Hfg a (or_introl eq_refl)), IH by auto. reflexivity.
Qed.

Lemma isort_ext {A} (le1 le2 : A -> A -> bool) l :
  (forall x y, le1 x y = le2 x y) -> isort le1 l = isort le2 l.
Proof.
  intros Hle. induction l as [|x l IH]; simpl; [reflexivity|].
  rewrite IH. generalize (isort le2 l). intros s.
  induction s as [|y s IHs]; simpl; [reflexivity|].
  rewrite Hle, IHs. reflexivity.
Qed.

Lemma set_iter_ext rt1 rt2 l :
  (forall elems x, slot rt1 elems x = slot rt2 elems x) ->
  set_iter rt1 l = set_iter rt2 l.
Proof.
  intros Hs. apply isort_ext. intros x y. unfold slot_le.
  rewrite !Hs. reflexivity.
Qed.

Lemma elimination_ext rt1 rt2 :
  (forall elems x, slot rt1 elems x = slot rt2 elems x) ->
  forall fuel lhs rhs order,
    _Algorithm.elimination rt1 fuel lhs rhs order
    = _Algorithm.elimination rt2 fuel lhs rhs order.
Proof.
  intros Hs. induction fuel as [|fuel IH]; intros lhs rhs order; simpl;
    [reflexivity|].
  destruct lhs as [|entry lhs]; [reflexivity|].
  unfold set_pop. rewrite (@set_iter_ext rt1 rt2 _ Hs).
  destruct (set_difference _ _); [reflexivity|].
  destruct (hd_error _); [apply IH | reflexivity].
Qed.

Lemma generate_execution_order_ext rt1 rt2 relations irrelevant :
  (forall elems x, slot rt1 elems x = slot rt2 elems x) ->
  _Algorithm._generate_execution_order rt1 relations irrelevant
  = _Algorithm._generate_execution_order rt2 relations irrelevant.
Proof.
  intros Hs. unfold _Algorithm._generate_execution_order.
  destruct (fold_left _ _ _) as [lhs rhs].
  rewrite (@elimination_ext rt1 rt2 Hs), (@set_iter_ext rt1 rt2 _ Hs).
  reflexivity.
Qed.

Lemma getattr_identities (l : list _Algorithm.Expr) e op :
  In e l -> In (getattr e op) (identities l).
Proof.
  intros He. unfold identities. apply in_flat_map. exists e.
  split; [exact He|]. destruct op; simpl; auto.
Qed.

Lemma new_relations_ext rt1 rt2 (l : list _Algorithm.Expr) :
  (forall x, In x (identities l) -> hash rt1 x = hash rt2 x) ->
  _Algorithm.new_relations rt1 l = _Algorithm.new_relations rt2 l.
Proof.
  intros Hh.
  assert (Hkey : forall op,
            mapM (_Algorithm.cmp_key rt1 op) l
            = mapM (_Algorithm.cmp_key rt2 op) l).
  { intros op. apply mapM_ext_in. intros e He. unfold _Algorithm.cmp_key.
    rewrite (Hh _ (@getattr_identities l e op He)). reflexivity. }
  unfold _Algorithm.new_relations, _Algorithm._generate_left_relation_group,
    _Algorithm._generate_right_relation_group, sorted.
  rewrite !Hkey. reflexivity.
Qed.

Lemma rewritten_identities (l : list _Algorithm.Expr) x :
  In x (identities (map SequenceParser.rewritten (filter has_relation l))) ->
  In x (identities l).
Proof.
  unfold identities. rewrite !in_flat_map. intros (e & He & Hx).
  apply in_map_iff in He. destruct He as (e0 & <- & He0).
  apply filter_In in He0. exists e0. split; [tauto|].
  unfold SequenceParser.rewritten, _Algorithm.transform_expr in Hx.
  destruct (relation e0) as [[[|] d]|]; simpl in *; tauto.
Qed.

Lemma algorithm_sequence_ext rt1 rt2 (l : list _Algorithm.Expr) :
  (forall x, In x (identities l) -> hash rt1 x = hash rt2 x) ->
  (forall elems x, slot rt1 elems x = slot rt2 elems x) ->
  _Algorithm.generate_sequence rt1 l = _Algorithm.generate_sequence rt2 l.
Proof.
  intros Hh Hs. unfold _Algorithm.generate_sequence.
  rewrite normalization_spec. simpl.
  rewrite (@new_relations_ext rt1 rt2).
  - destruct (_Algorithm.new_relations rt2 _); simpl; try reflexivity.
    apply generate_execution_order_ext. exact Hs.
  - intros x Hx. apply Hh, rewritten_identities. exact Hx.
Qed.

(** The expressions a run leaves in the store read as before. *)
Lemma rewritten_idempotent (e : _Algorithm.Expr) :
  SequenceParser.rewritten (SequenceParser.rewritten e)
  = SequenceParser.rewritten e.
Proof.
  unfold SequenceParser.rewritten, _Algorithm.transform_expr.
  destruct e as [l r [[[|] d]|]]; reflexivity.
Qed.

Lemma rewritten_keeps_relation (e : _Algorithm.Expr) :
  has_relation (SequenceParser.rewritten e) = has_relation e.
Proof.
  unfold SequenceParser.rewritten, _Algorithm.transform_expr, has_relation.
  destruct e as [l r [[[|] d]|]]; reflexivity.
Qed.

Lemma rewritten_bare (e : _Algorithm.Expr) :
  has_relation e = false -> SequenceParser.rewritten e = e.
Proof.
  unfold SequenceParser.rewritten, _Algorithm.transform_expr, has_relation.
  destruct (relation e); [discriminate | reflexivity].
Qed.

Lemma normalization_rewritten (l : list _Algorithm.Expr) :
  _Algorithm.normalization (map SequenceParser.rewritten l)
  = _Algorithm.normalization l.
Proof.
  rewrite !normalization_spec. f_equal. f_equal.
  - induction l as [|e l IH]; simpl; [reflexivity|].
    rewrite rewritten_keeps_relation. destruct (has_relation e); simpl;
      [rewrite rewritten_idempotent, IH; reflexivity | exact IH].
  - induction l as [|e l IH]; simpl; [reflexivity|].
    rewrite rewritten_keeps_relation.
    destruct (has_relation e) eqn:He; simpl; [exact IH|].
    rewrite rewritten_bare, IH by exact He. reflexivity.
Qed.

(** C3, as the code has it.  The outcome of [generate_sequence] is a
    function of the batch, of the hashes of the identities the batch
    mentions and of the layout of the sets: two runs under runtimes that
    agree on these yield the same outcome.  A second run on the same parser,
    whose stored expressions the first run rewrote to forward form, yields
    the outcome of the first. *)
Theorem C3_outcome_depends_on_hash_and_layout
    (rt1 rt2 : Runtime) (self : SequenceParser.state) :
  (forall x,
     In x (identities
             (_Algorithm.__init__
                (dict_values (SequenceParser.theme_plugin_expr_mapping self))))
     -> hash rt1 x = hash rt2 x) ->
  (forall elems x, slot rt1 elems x = slot rt2 elems x) ->
  snd (SequenceParser.generate_sequence rt1 self)
  = snd (SequenceParser.generate_sequence rt2 self)
  /\ snd (SequenceParser.generate_sequence rt1
            (fst (SequenceParser.generate_sequence rt1 self)))
     = snd (SequenceParser.generate_sequence rt1 self).
Proof.
  intros Hh Hs. split.
  - apply algorithm_sequence_ext; assumption.
  - unfold SequenceParser.generate_sequence. cbn [fst snd].
    cbn [SequenceParser.theme_plugin_expr_mapping].
    unfold _Algorithm.generate_sequence, _Algorithm.__init__, dict_values.
    rewrite map_map. cbn [snd].
    rewrite <- (map_map snd (map SequenceParser.rewritten)).
    rewrite <- concat_map, normalization_rewritten. reflexivity.
Qed.

Lemma C3_witness :
  snd (SequenceParser.generate_sequence (runtime_of_hash hash_by_length)
         (SequenceParser.mkState false [("pre_load"%string, scenario_A)]))
  = snd (SequenceParser.generate_sequence runtime_elsewhere
           (SequenceParser.mkState false [("pre_load"%string, scenario_A)]))
  /\ snd (SequenceParser.generate_sequence (runtime_of_hash hash_by_length)
            (fst (SequenceParser.generate_sequence
                    (runtime_of_hash hash_by_length)
                    (SequenceParser.mkState false
                       [("pre_load"%string, scenario_A)]))))
     = snd (SequenceParser.generate_sequence (runtime_of_hash hash_by_length)
              (SequenceParser.mkState false
                 [("pre_load"%string, scenario_A)])).
Proof.
  apply (@C3_outcome_depends_on_hash_and_layout
           (runtime_of_hash hash_by_length) runtime_elsewhere
           (SequenceParser.mkState false [("pre_load"%string, scenario_A)])).
  - simpl. intros x [<-|[<-|[<-|[<-|[]]]]]; reflexivity.
  - reflexivity.
Defined.

(** C3 as stated fails: on the two bare lines [a] and [b], a run in which
    identities hash to the length of their name returns [a] then [b], and a
    run in which [a] hashes to 1 and [b] to 0 returns [b] then [a]. *)
Lemma C3_counterexample :
  snd (SequenceParser.generate_sequence (runtime_of_hash hash_by_length)
         (SequenceParser.mkState false [("pre_load"%string, two_bare_lines)]))
  = Returned [ix "pre_load" "a"; ix "pre_load" "b"]
  /\ snd (SequenceParser.generate_sequence (runtime_of_hash hash_a_last)
            (SequenceParser.mkState false
               [("pre_load"%string, two_bare_lines)]))
     = Returned [ix "pre_load" "b"; ix "pre_load" "a"]
  /\ snd (SequenceParser.generate_sequence (runtime_of_hash hash_by_length)
            (SequenceParser.mkState false
               [("pre_load"%string, two_bare_lines)]))
     <> snd (SequenceParser.generate_sequence (runtime_of_hash hash_a_last)
               (SequenceParser.mkState false
                  [("pre_load"%string, two_bare_lines)])).
Proof.
  split; [vm_compute; reflexivity|]. split; [vm_compute; reflexivity|].
  vm_compute. discriminate.
Qed.

(** ** The elimination loop on acyclic relations *)

Lemma dict_keys_upsert {V} (k : PluginIndex) (f : option V -> V)
    (d : dict PluginIndex V) :
  dict_keys (dict_upsert k f d)
  = if dict_mem k d then dict_keys d else dict_keys d ++ [k].
Proof.
  unfold dict_mem. induction d as [|[k' v] d IH]; simpl; [reflexivity|].
  destruct (py_eqb k k'); simpl; [reflexivity|].
  rewrite IH. destruct (dict_get k d); reflexivity.
Qed.

Lemma dict_mem_In_keys {V} (k : PluginIndex) (d : dict PluginIndex V) :
  dict_mem k d = true <-> In k (dict_keys d).
Proof.
  rewrite dict_get_In_keys. unfold dict_mem.
  destruct (dict_get k d); split; congruence.
Qed.

Lemma In_keys_upsert {V} (x k : PluginIndex) (f : option V -> V)
    (d : dict PluginIndex V) :
  In x (dict_keys (dict_upsert k f d)) <-> x = k \/ In x (dict_keys d).
Proof.
  rewrite dict_keys_upsert. destruct (dict_mem k d) eqn:Em.
  - apply dict_mem_In_keys in Em. split; [auto|].
    intros [->|Hin]; assumption.
  - rewrite in_app_iff. simpl. intuition congruence.
Qed.

Lemma NoDup_keys_upsert {V} (k : PluginIndex) (f : option V -> V)
    (d : dict PluginIndex V) :
  NoDup (dict_keys d) -> NoDup (dict_keys (dict_upsert k f d)).
Proof.
  intros Hnd. rewrite dict_keys_upsert. destruct (dict_mem k d) eqn:Em;
    [exact Hnd|].
  apply NoDup_app; [exact Hnd | repeat constructor; simpl; tauto|].
  intros x Hx [<-|[]]. apply dict_mem_In_keys in Hx. congruence.
Qed.

Lemma record_relations_inv relations : forall lhs rhs lhs' rhs',
  fold_left _Algorithm.record_relation relations (lhs, rhs) = (lhs', rhs') ->
  loop_inv lhs rhs -> loop_inv lhs' rhs'.
Proof.
  induction relations as [|e relations IH]; simpl; intros lhs rhs lhs' rhs'.
  - intros [= <- <-] Hinv. exact Hinv.
  - unfold _Algorithm.record_relation at 2. simpl. intros Hfold Hinv.
    apply IH in Hfold; [exact Hfold|].
    destruct Hinv as (Hnd & Hcnt & Hpos). split; [|split].
    + apply NoDup_keys_upsert. exact Hnd.
    + intros y. rewrite indeg_upsert, cnt_upsert. specialize (Hcnt y).
      unfold cnt in *.
      destruct (py_eqb_spec y (right_operand e)) as [->|_]; lia.
    + intros y n.
      destruct (py_eqb_spec y (right_operand e)) as [->|Hne].
      * rewrite dict_get_upsert_same. intros [= <-].
        destruct (dict_get (right_operand e) rhs) as [m|] eqn:Em; simpl;
          [specialize (Hpos _ _ Em) |]; lia.
      * rewrite dict_get_upsert_other by exact Hne. apply Hpos.
Qed.

Lemma record_relations_keys relations : forall lhs rhs lhs' rhs',
  fold_left _Algorithm.record_relation relations (lhs, rhs) = (lhs', rhs') ->
  (forall x, In x (dict_keys lhs')
     <-> In x (dict_keys lhs) \/ exists y, edge relations x y)
  /\ (forall y, In y (dict_keys rhs')
        <-> In y (dict_keys rhs) \/ exists x, edge relations x y)
  /\ (forall u y, recorded lhs' u y -> recorded lhs u y \/ edge relations u y).
Proof.
  induction relations as [|e relations IH]; simpl; intros lhs rhs lhs' rhs'.
  - intros [= <- <-]. split; [|split].
    + intros x. split; [auto|]. intros [H|(y & e & [] & _)]. exact H.
    + intros y. split; [auto|]. intros [H|(x & e & [] & _)]. exact H.
    + auto.
  - unfold _Algorithm.record_relation at 2. simpl. intros Hfold.
    apply IH in Hfold. destruct Hfold as (Hl & Hr & Hrec).
    assert (Hcons : forall x y, edge (e :: relations) x y
              <-> (x = left_operand e /\ y = right_operand e)
                  \/ edge relations x y).
    { intros x y. split.
      - intros (e' & [<-|Hin] & <- & <-); [auto|].
        right. exists e'. auto.
      - intros [[-> ->]|(e' & Hin & Hx & Hy)].
        + exists e. simpl. auto.
        + exists e'. simpl. auto. }
    split; [|split].
    + intros x. rewrite Hl, In_keys_upsert. split.
      * intros [[->|Hin]|(y & Hy)]; [right|left; exact Hin|right].
        -- exists (right_operand e). apply Hcons. auto.
        -- exists y. apply Hcons. auto.
      * intros [Hin|(y & Hy)]; [auto|]. apply Hcons in Hy.
        destruct Hy as [[-> _]|Hy]; [auto | right; eauto].
    + intros y. rewrite Hr, In_keys_upsert. split.
      * intros [[->|Hin]|(x & Hx)]; [right|left; exact Hin|right].
        -- exists (left_operand e). apply Hcons. auto.
        -- exists x. apply Hcons. auto.
      * intros [Hin|(x & Hx)]; [auto|]. apply Hcons in Hx.
        destruct Hx as [[_ ->]|Hx]; [auto | right; eauto].
    + intros u y Huy. destruct (Hrec u y Huy) as [(s & Hs & Hin)|Hedge].
      * destruct (py_eqb_spec u (left_operand e)) as [->|Hne].
        -- rewrite dict_get_upsert_same in Hs. injection Hs as <-.
           apply in_app_or in Hin. destruct Hin as [Hin|[<-|[]]].
           ++ left. destruct (dict_get (left_operand e) lhs) as [s0|] eqn:Es;
                simpl in Hin; [|contradiction].
              exists s0. auto.
           ++ right. apply Hcons. auto.
        -- rewrite dict_get_upsert_other in Hs by exact Hne.
           left. exists s. auto.
      * right. apply Hcons. auto.
Qed.

Lemma release_positive (rhs : _Algorithm.rhs_dict) r :
  (forall y n, dict_get y rhs = Some n -> (0 < n)%Z) ->
  (0 < cnt r rhs)%Z ->
  forall y n, dict_get y (_Algorithm.release rhs r) = Some n -> (0 < n)%Z.
Proof.
  intros Hpos Hr y n. unfold _Algorithm.release.
  rewrite dict_get_upsert_same. cbv beta.
  change (default 0%Z (Some (default 0%Z (dict_get r rhs) - 1)%Z))
    with (cnt r rhs - 1)%Z.
  destruct (Z.eqb_spec (cnt r rhs - 1) 0) as [Hz|Hz].
  - destruct (py_eqb_spec y r) as [->|Hne].
    + rewrite dict_get_del_same. discriminate.
    + rewrite dict_get_del_other, dict_get_upsert_other by exact Hne.
      apply Hpos.
  - destruct (py_eqb_spec y r) as [->|Hne].
    + rewrite dict_get_upsert_same. intros [= <-]. fold (cnt r rhs). lia.
    + rewrite dict_get_upsert_other by exact Hne. apply Hpos.
Qed.

Lemma fold_release_positive successors : forall rhs : _Algorithm.rhs_dict,
  (forall y n, dict_get y rhs = Some n -> (0 < n)%Z) ->
  (forall y, (Z.of_nat (occ y successors) <= cnt y rhs)%Z) ->
  forall y n,
    dict_get y (fold_left _Algorithm.release successors rhs) = Some n ->
    (0 < n)%Z.
Proof.
  induction successors as [|r successors IH]; simpl; intros rhs Hpos Hocc;
    [exact Hpos|].
  apply IH.
  - apply release_positive; [exact Hpos|]. specialize (Hocc r).
    rewrite occ_cons, py_eqb_refl in Hocc. lia.
  - intros y. rewrite cnt_release. specialize (Hocc y).
    rewrite occ_cons in Hocc. destruct (py_eqb y r); lia.
Qed.

Lemma dict_del_absent {V} k (d : dict PluginIndex V) :
  ~ In k (dict_keys d) -> dict_del k d = d.
Proof.
  induction d as [|[k' v] d IH]; simpl; intros Hk; [reflexivity|].
  destruct (py_eqb_spec k k') as [->|Hne]; simpl; [tauto|].
  fold (dict_del k d). rewrite IH by tauto. reflexivity.
Qed.

Lemma indeg_del_exact y k (lhs : _Algorithm.lhs_dict) :
  NoDup (dict_keys lhs) ->
  indeg y (dict_del k lhs) + occ y (default [] (dict_get k lhs))
  = indeg y lhs.
Proof.
  induction lhs as [|[k' s] lhs IH]; simpl; intros Hnd.
  - reflexivity.
  - inversion Hnd as [|? ? Hk' Hnd']; subst.
    destruct (py_eqb_spec k k') as [->|Hne]; simpl.
    + fold (dict_del k' lhs). rewrite dict_del_absent by exact Hk'. lia.
    + fold (dict_del k lhs). specialize (IH Hnd'). lia.
Qed.

Lemma dict_keys_del {V} k (d : dict PluginIndex V) :
  dict_keys (dict_del k d)
  = filter (fun x => negb (py_eqb k x)) (dict_keys d).
Proof.
  induction d as [|[k' v] d IH]; simpl; [reflexivity|].
  destruct (py_eqb k k'); simpl; fold (dict_del k d); rewrite IH; reflexivity.
Qed.

Lemma dict_keys_del_perm {V} k (d : dict PluginIndex V) :
  NoDup (dict_keys d) -> In k (dict_keys d) ->
  Permutation (k :: dict_keys (dict_del k d)) (dict_keys d).
Proof.
  rewrite dict_keys_del. generalize (dict_keys d). clear d.
  induction l as [|x l IH]; simpl; intros Hnd Hin; [contradiction|].
  inversion Hnd as [|? ? Hx Hnd']; subst.
  destruct (py_eqb_spec k x) as [->|Hne]; simpl.
  - constructor. clear IH Hin Hnd. induction l as [|z l IHl]; simpl;
      [reflexivity|].
    inversion Hnd' as [|? ? Hz Hl]; subst.
    destruct (py_eqb_spec x z) as [->|_]; simpl.
    + exfalso. apply Hx. left. reflexivity.
    + constructor. apply IHl; [|exact Hl]. simpl in Hx. tauto.
  - destruct Hin as [E|Hin]; [congruence|].
    rewrite perm_swap. constructor. apply IH; assumption.
Qed.

Lemma dict_get_In {V} k (v : V) (d : dict PluginIndex V) :
  dict_get k d = Some v -> In (k, v) d.
Proof.
  induction d as [|[k' v'] d IH]; simpl; [discriminate|].
  destruct (py_eqb_spec k k') as [->|_]; [intros [= ->]; auto | auto].
Qed.

Lemma In_dict_get {V} k (v : V) (d : dict PluginIndex V) :
  NoDup (dict_keys d) -> In (k, v) d -> dict_get k d = Some v.
Proof.
  induction d as [|[k' v'] d IH]; simpl; intros Hnd Hin; [contradiction|].
  inversion Hnd as [|? ? Hk Hnd']; subst.
  destruct Hin as [[= -> ->]|Hin].
  - rewrite py_eqb_refl. reflexivity.
  - destruct (py_eqb_spec k k') as [->|_]; [|auto].
    exfalso. apply Hk. apply in_map_iff. exists (k', v). auto.
Qed.

Lemma indeg_positive_recorded y (lhs : _Algorithm.lhs_dict) :
  NoDup (dict_keys lhs) -> 0 < indeg y lhs -> exists u, recorded lhs u y.
Proof.
  intros Hnd Hpos.
  assert (Hex : exists u s, In (u, s) lhs /\ In y s).
  { clear Hnd. induction lhs as [|[k s] lhs IH]; simpl in *; [lia|].
    destruct (Nat.eq_dec (occ y s) 0) as [Hz|Hz].
    - destruct IH as (u & s' & Hin & Hy); [lia|]. exists u, s'. auto.
    - exists k, s. split; [auto|]. apply occ_In. lia. }
  destruct Hex as (u & s & Hin & Hy). exists u, s.
  split; [apply In_dict_get; assumption | exact Hy].
Qed.

Lemma PluginIndex_decidable : ListDec.decidable_eq PluginIndex.
Proof.
  intros x y. destruct (py_eqb_spec x y); [left | right]; assumption.
Qed.

Section Walks.
Variable R : PluginIndex -> PluginIndex -> Prop.
Variable relations : list _Algorithm.Expr.
Hypothesis R_edge : forall u y, R u y -> edge relations u y.

Lemma walk_suffix l1 : forall a l2, walk R (l1 ++ a :: l2) -> walk R (a :: l2).
Proof.
  induction l1 as [|x l1 IH]; simpl; intros a l2 Hw; [exact Hw|].
  apply IH. destruct l1 as [|z l1]; simpl in *;
    inversion Hw; subst; assumption.
Qed.

Lemma walk_path l2 : forall a b l3,
  walk R (a :: l2 ++ b :: l3) -> path relations a b.
Proof.
  induction l2 as [|x l2 IH]; simpl; intros a b l3 Hw;
    inversion Hw as [|? y l HR Hw' E]; subst.
  - apply path_edge, R_edge. exact HR.
  - eapply path_step; [apply R_edge; exact HR|]. eapply IH. exact Hw'.
Qed.

Lemma long_walk (keys : list PluginIndex) :
  keys <> [] ->
  (forall k, In k keys -> exists u, In u keys /\ R u k) ->
  forall n, exists w,
    length w = S n /\ walk R w /\ Forall (fun x => In x keys) w.
Proof.
  intros Hne Hpred. induction n as [|n (w & Hlen & Hw & Hall)].
  - destruct keys as [|k keys]; [contradiction|]. exists [k].
    split; [reflexivity|]. split; [constructor|].
    repeat constructor.
  - destruct w as [|h w]; [discriminate|].
    inversion Hall as [|? ? Hh Hall']; subst.
    destruct (Hpred h Hh) as (u & Hu & Huh).
    exists (u :: h :: w). split; [simpl in *; lia|].
    split; [constructor; assumption|]. constructor; assumption.
Qed.

Lemma no_source_cycle (keys : list PluginIndex) :
  keys <> [] ->
  (forall k, In k keys -> exists u, In u keys /\ R u k) ->
  has_cycle relations.
Proof.
  intros Hne Hpred.
  destruct (long_walk Hne Hpred (length keys)) as (w & Hlen & Hw & Hall).
  assert (Hdup : ~ NoDup w).
  { intros Hnd. apply NoDup_incl_length with (l' := keys) in Hnd.
    - lia.
    - intros x Hx. rewrite Forall_forall in Hall. auto. }
  apply (ListDec.not_NoDup PluginIndex_decidable) in Hdup.
  destruct Hdup as (a & l1 & l2 & l3 & ->).
  exists a. apply walk_suffix in Hw. apply walk_path in Hw. exact Hw.
Qed.
End Walks.

Lemma stuck_cycle relations (lhs : _Algorithm.lhs_dict)
    (rhs : _Algorithm.rhs_dict) :
  lhs <> [] ->
  loop_inv lhs rhs ->
  (forall u y, recorded lhs u y -> edge relations u y) ->
  set_difference (dict_keys lhs) (dict_keys rhs) = [] ->
  has_cycle relations.
Proof.
  intros Hne (Hnd & Hcnt & Hpos) Hsub Hempty.
  apply (@no_source_cycle (recorded lhs) relations Hsub (dict_keys lhs)).
  - destruct lhs; [contradiction | discriminate].
  - intros k Hk.
    assert (Hkr : In k (dict_keys rhs)).
    { destruct (mem k (dict_keys rhs)) eqn:E; [apply mem_In; exact E|].
      exfalso.
      assert (Hin : In k (set_difference (dict_keys lhs) (dict_keys rhs))).
      { apply set_difference_In. split; [exact Hk|].
        rewrite <- mem_In. congruence. }
      rewrite Hempty in Hin. exact Hin. }
    apply dict_get_In_keys in Hkr.
    destruct (dict_get k rhs) as [n|] eqn:En; [|congruence].
    specialize (Hpos _ _ En). specialize (Hcnt k). unfold cnt in Hcnt.
    rewrite En in Hcnt. simpl in Hcnt.
    destruct (@indeg_positive_recorded k lhs Hnd) as (u & Hu); [lia|].
    exists u. split; [|exact Hu]. destruct Hu as (s & Hs & _).
    apply dict_get_In_keys. congruence.
Qed.

Lemma loop_inv_step (lhs : _Algorithm.lhs_dict) (rhs : _Algorithm.rhs_dict)
    item :
  loop_inv lhs rhs ->
  loop_inv (dict_del item lhs)
    (fold_left _Algorithm.release (default [] (dict_get item lhs)) rhs).
Proof.
  intros (Hnd & Hcnt & Hpos).
  assert (Hocc : forall y,
            (Z.of_nat (occ y (default [] (dict_get item lhs)))
             <= cnt y rhs)%Z).
  { intros y. rewrite Hcnt. pose proof (@indeg_del_exact y item lhs Hnd). lia. }
  split; [|split].
  - rewrite dict_keys_del. apply NoDup_filter. exact Hnd.
  - intros y. rewrite cnt_fold_release, Hcnt.
    pose proof (@indeg_del_exact y item lhs Hnd). lia.
  - apply fold_release_positive; assumption.
Qed.

Lemma recorded_del (lhs : _Algorithm.lhs_dict) item u y :
  recorded (dict_del item lhs) u y -> recorded lhs u y.
Proof.
  intros (s & Hs & Hy). exists s. split; [|exact Hy].
  destruct (py_eqb_spec u item) as [->|Hne].
  - rewrite dict_get_del_same in Hs. discriminate.
  - rewrite dict_get_del_other in Hs by exact Hne. exact Hs.
Qed.

(** On relations without a cycle the loop returns, having appended every
    key of [left_hand_side] once to [order]. *)
Lemma elimination_acyclic rt relations :
  ~ has_cycle relations ->
  forall fuel lhs rhs order,
    length lhs <= fuel ->
    loop_inv lhs rhs ->
    (forall u y, recorded lhs u y -> edge relations u y) ->
    exists emitted,
      _Algorithm.elimination rt fuel lhs rhs order
        = Returned (order ++ emitted)
      /\ Permutation emitted (dict_keys lhs).
Proof.
  intros Hacyc. induction fuel as [|fuel IH];
    intros lhs rhs order Hfuel Hinv Hsub.
  - destruct lhs; [|simpl in Hfuel; lia]. exists []. simpl.
    rewrite app_nil_r. auto.
  - simpl. destruct lhs as [|entry lhs0] eqn:Elhs.
    { exists []. rewrite app_nil_r. auto. }
    rewrite <- Elhs in *.
    assert (Hne : lhs <> []) by (rewrite Elhs; discriminate).
    clear Elhs entry lhs0.
    destruct (set_difference (dict_keys lhs) (dict_keys rhs))
      as [|c cs] eqn:Eu.
    { exfalso. apply Hacyc. eapply stuck_cycle; eauto. }
    rewrite <- Eu.
    destruct (set_pop_In rt (l := set_difference (dict_keys lhs)
                                      (dict_keys rhs)))
      as (item & -> & Hitem); [rewrite Eu; discriminate|].
    apply set_difference_In in Hitem. destruct Hitem as [Hil _].
    destruct (IH (dict_del item lhs)
                (fold_left _Algorithm.release
                   (default [] (dict_get item lhs)) rhs)
                (order ++ [item])) as (emitted & -> & Hperm).
    + pose proof (dict_del_length item lhs Hil). lia.
    + apply loop_inv_step. exact Hinv.
    + intros u y Huy. apply Hsub. eapply recorded_del. exact Huy.
    + exists (item :: emitted). rewrite <- app_assoc. split; [reflexivity|].
      rewrite Hperm. apply dict_keys_del_perm; [apply Hinv | exact Hil].
Qed.

(** ** The chains mention the identities of their groups *)

Lemma mapM_length {A B} (f : A -> outcome B) l : forall bs,
  mapM f l = Returned bs -> length bs = length l.
Proof.
  induction l as [|a l IH]; simpl; intros bs.
  - intros [= <-]. reflexivity.
  - destruct (f a); simpl; try discriminate.
    destruct (mapM f l); simpl; try discriminate.
    intros [= <-]. simpl. rewrite (IH _ eq_refl). reflexivity.
Qed.

Lemma map_snd_combine {A B} (l : list A) : forall (keys : list B),
  length keys = length l -> map snd (combine keys l) = l.
Proof.
  induction l as [|a l IH]; intros [|k keys] Hlen; simpl in *;
    try discriminate; [reflexivity|].
  rewrite IH by lia. reflexivity.
Qed.

Lemma sorted_perm {A} (key : A -> outcome (Z * Z)) reverse l l' :
  sorted key reverse l = Returned l' -> Permutation l l'.
Proof.
  unfold sorted. destruct (mapM key l) as [keys| |] eqn:Ek; simpl;
    try discriminate.
  intros [= <-]. apply mapM_length in Ek.
  rewrite <- (map_snd_combine l keys Ek) at 1.
  apply Permutation_map, isort_perm.
Qed.

Lemma identities_app (l l' : list _Algorithm.Expr) :
  identities (l ++ l') = identities l ++ identities l'.
Proof. unfold identities. apply flat_map_app. Qed.

Lemma identities_In (l : list _Algorithm.Expr) x :
  In x (identities l)
  <-> exists e, In e l /\ (x = left_operand e \/ x = right_operand e).
Proof.
  unfold identities. rewrite in_flat_map. split.
  - intros (e & He & [<-|[<-|[]]]); eauto.
  - intros (e & He & [-> | ->]); exists e; simpl; auto.
Qed.

Lemma identities_perm (l l' : list _Algorithm.Expr) x :
  Permutation l l' -> In x (identities l) <-> In x (identities l').
Proof.
  intros Hp. rewrite !identities_In. split; intros (e & He & Hx); exists e;
    (split; [|exact Hx]).
  - eapply Permutation_in; eauto.
  - eapply Permutation_in; [apply Permutation_sym|]; eauto.
Qed.

Lemma yield_group_loop_spec op (l : list _Algorithm.Expr) :
  forall val group,
    Forall (fun e => getattr e op = val) group ->
    concat (_Algorithm.yield_group_loop op val group l) = group ++ l
    /\ Forall (uniform op) (_Algorithm.yield_group_loop op val group l).
Proof.
  induction l as [|e l IH]; simpl; intros val group Hg.
  - split; [reflexivity|].
    constructor; [exists val; exact Hg | constructor].
  - destruct (py_eqb_spec val (getattr e op)) as [Hv|Hv].
    + destruct (IH val (group ++ [e])) as (Hc & Hu).
      * apply Forall_app. split; [exact Hg|]. constructor; [auto|constructor].
      * split; [|exact Hu]. etransitivity; [exact Hc|].
        rewrite <- app_assoc. reflexivity.
    + destruct (IH (getattr e op) [e]) as (Hc & Hu).
      * constructor; [reflexivity | constructor].
      * split; [simpl; f_equal; exact Hc|].
        constructor; [exists val; exact Hg | exact Hu].
Qed.

Lemma yield_group_spec (l : list _Algorithm.Expr) op :
  concat (_Algorithm._yield_group l op) = l
  /\ Forall (uniform op) (_Algorithm._yield_group l op).
Proof.
  destruct l as [|e l]; simpl; [split; [reflexivity | constructor]|].
  apply (yield_group_loop_spec op l (val := getattr e op) (group := [e])).
  constructor; [reflexivity | constructor].
Qed.

Lemma combine_loop_sub op (g : list _Algorithm.Expr) : forall last x,
  In x (identities (_Algorithm.combine_loop op last g)) ->
  last = Some x \/ In x (map (fun e => getattr e op) g).
Proof.
  induction g as [|e g IH]; simpl; intros last x Hx; [contradiction|].
  destruct last as [last|].
  - simpl in Hx. destruct Hx as [<-|[<-|Hx]]; [auto | auto |].
    apply IH in Hx. destruct Hx as [[= <-]|Hx]; auto.
  - apply IH in Hx. destruct Hx as [[= <-]|Hx]; auto.
Qed.

Lemma combine_loop_sup op (g : list _Algorithm.Expr) : forall last x,
  In x (map (fun e => getattr e op) g) ->
  In x (identities (_Algorithm.combine_loop op (Some last) g)).
Proof.
  induction g as [|e g IH]; simpl; intros last x Hx; [contradiction|].
  destruct Hx as [<-|Hx]; [auto|]. right. right. apply IH. exact Hx.
Qed.

Lemma combine_loop_last op (g : list _Algorithm.Expr) last :
  g <> [] ->
  In last (identities (_Algorithm.combine_loop op (Some last) g)).
Proof. destruct g; [contradiction|]. intros _. simpl. auto. Qed.

Lemma identities_cons (e : _Algorithm.Expr) l x :
  In x (identities (e :: l))
  <-> x = left_operand e \/ x = right_operand e \/ In x (identities l).
Proof. unfold identities. simpl. intuition congruence. Qed.

Lemma break_left_identities (g c : list _Algorithm.Expr) :
  uniform left_operand_name g ->
  _Algorithm._break_left_relation_group g = Returned c ->
  forall x, In x (identities c) <-> In x (identities g).
Proof.
  intros (v & Hv).
  unfold _Algorithm._break_left_relation_group,
    _Algorithm._break_relation_group.
  destruct g as [|e g]; [discriminate|]. rewrite py_index_first.
  cbn [bind Z.eqb]. intros [= <-] x.
  inversion Hv as [|? ? He Hg]; subst. cbn [getattr] in *.
  rewrite !identities_cons. cbn [left_operand right_operand]. split.
  - intros [->|[->|Hx]]; [auto | auto |].
    apply combine_loop_sub in Hx. destruct Hx as [[= <-]|Hx]; [auto|].
    apply in_map_iff in Hx. destruct Hx as (e' & <- & He').
    right. right. apply identities_In. exists e'. auto.
  - intros [->|[->|Hx]]; [auto | auto |].
    apply identities_In in Hx. destruct Hx as (e' & He' & [-> | ->]).
    + left. rewrite Forall_forall in Hg. exact (Hg _ He').
    + right. right. apply combine_loop_sup.
      apply in_map_iff. exists e'. auto.
Qed.

Lemma break_right_identities (g c : list _Algorithm.Expr) :
  uniform right_operand_name g ->
  _Algorithm._break_right_relation_group g = Returned c ->
  forall x, In x (identities c) <-> In x (identities g).
Proof.
  intros (v & Hv).
  unfold _Algorithm._break_right_relation_group,
    _Algorithm._break_relation_group.
  destruct g as [|h t]; [discriminate|].
  assert (Hne : h :: t <> []) by discriminate.
  destruct (exists_last Hne) as (g' & e & Eg). rewrite Eg in *. clear Hne.
  rewrite py_index_last. cbn [bind Z.eqb]. intros [= <-] x.
  apply Forall_app in Hv. destruct Hv as [Hg' He].
  inversion He as [|? ? Hev _]; subst. cbn [getattr] in *.
  rewrite !identities_app, !in_app_iff, !identities_cons.
  cbn [left_operand right_operand].
  change (identities []) with (@nil PluginIndex). cbn [In]. split.
  - intros [Hx|[->|[->|[]]]]; [|auto|auto].
    apply combine_loop_sub in Hx. destruct Hx as [Hx|Hx]; [discriminate|].
    apply in_map_iff in Hx. destruct Hx as (e' & <- & He').
    apply in_app_or in He'. destruct He' as [He'|[<-|[]]]; [|auto].
    left. apply identities_In. exists e'. auto.
  - intros [Hx|[->|[->|[]]]]; [|auto|auto].
    apply identities_In in Hx. destruct Hx as (e' & He' & [-> | ->]).
    + left. destruct g' as [|h' t']; [contradiction|].
      cbn [app _Algorithm.combine_loop]. destruct He' as [<-|He'].
      * apply combine_loop_last. destruct t'; discriminate.
      * apply combine_loop_sup. apply in_map_iff. exists e'.
        split; [reflexivity | apply in_or_app; auto].
    + right. right. left. rewrite Forall_forall in Hg'. exact (Hg' _ He').
Qed.

Lemma mapM_break_identities (break : list _Algorithm.Expr
                                      -> outcome (list _Algorithm.Expr))
    op (groups : list (list _Algorithm.Expr)) :
  (forall g c, uniform op g -> break g = Returned c ->
     forall x, In x (identities c) <-> In x (identities g)) ->
  Forall (uniform op) groups ->
  forall chains, mapM break groups = Returned chains ->
  forall x, In x (identities (concat chains))
            <-> In x (identities (concat groups)).
Proof.
  intros Hbreak. induction 1 as [|g groups Hg _ IH]; simpl; intros chains.
  - intros [= <-] x. reflexivity.
  - destruct (break g) as [c| |] eqn:Ec; simpl; try discriminate.
    destruct (mapM break groups) as [cs| |]; simpl; try discriminate.
    intros [= <-] x. simpl. rewrite !identities_app, !in_app_iff.
    rewrite (Hbreak g c Hg Ec x), (IH cs eq_refl x). reflexivity.
Qed.

Lemma new_relations_identities rt (l relations : list _Algorithm.Expr) :
  _Algorithm.new_relations rt l = Returned relations ->
  forall x, In x (identities relations) <-> In x (identities l).
Proof.
  unfold _Algorithm.new_relations, _Algorithm._generate_left_relation_group,
    _Algorithm._generate_right_relation_group.
  destruct (sorted (_Algorithm.cmp_key rt left_operand_name) false l)
    as [sl| |] eqn:El; simpl; try discriminate.
  destruct (mapM _Algorithm._break_left_relation_group
              (_Algorithm._yield_group sl left_operand_name))
    as [lc| |] eqn:Elc; simpl; try discriminate.
  destruct (sorted (_Algorithm.cmp_key rt right_operand_name) true l)
    as [sr| |] eqn:Er; simpl; try discriminate.
  destruct (mapM _Algorithm._break_right_relation_group
              (_Algorithm._yield_group sr right_operand_name))
    as [rc| |] eqn:Erc; simpl; try discriminate.
  intros [= <-] x. rewrite identities_app, in_app_iff.
  destruct (yield_group_spec sl left_operand_name) as (Hcl & Hul).
  destruct (yield_group_spec sr right_operand_name) as (Hcr & Hur).
  rewrite (@mapM_break_identities _ _ _ (@break_left_identities) Hul
             _ Elc x), Hcl.
  rewrite (@mapM_break_identities _ _ _ (@break_right_identities) Hur
             _ Erc x), Hcr.
  rewrite <- (@identities_perm l sl x (sorted_perm _ _ _ El)).
  rewrite <- (@identities_perm l sr x (sorted_perm _ _ _ Er)). tauto.
Qed.

Lemma rewritten_identities_iff (l : list _Algorithm.Expr) x :
  In x (identities (map SequenceParser.rewritten (filter has_relation l)))
  <-> In x (identities (filter has_relation l)).
Proof.
  generalize (filter has_relation l). clear l. intros l.
  rewrite !identities_In. split.
  - intros (e & He & Hx). apply in_map_iff in He.
    destruct He as (e0 & <- & He0). exists e0. split; [exact He0|].
    unfold SequenceParser.rewritten, _Algorithm.transform_expr in Hx.
    destruct (relation e0) as [[[|] d]|]; simpl in Hx; tauto.
  - intros (e & He & Hx). exists (SequenceParser.rewritten e).
    split; [apply in_map; exact He|].
    unfold SequenceParser.rewritten, _Algorithm.transform_expr.
    destruct (relation e) as [[[|] d]|]; simpl; tauto.
Qed.

Lemma mentioned_In (l : list _Algorithm.Expr) x :
  In x (mentioned l)
  <-> In x (identities (filter has_relation l)) \/ In x (bare_names l).
Proof.
  unfold mentioned, bare_names, identities.
  induction l as [|e l IH]; simpl; [tauto|].
  rewrite in_app_iff, IH. destruct (has_relation e); simpl; tauto.
Qed.

Lemma identities_edge (relations : list _Algorithm.Expr) x :
  In x (identities relations)
  <-> (exists y, edge relations x y) \/ (exists u, edge relations u x).
Proof.
  rewrite identities_In. unfold edge. split.
  - intros (e & He & [-> | ->]); [left | right]; eauto.
  - intros [(y & e & He & <- & _)|(u & e & He & _ & <-)]; eauto.
Qed.

Lemma set_iter_In rt l x : In x (set_iter rt l) <-> In x l.
Proof.
  split; apply Permutation_in;
    [apply Permutation_sym|]; apply set_iter_perm.
Qed.

Lemma loop_inv_empty : loop_inv [] [].
Proof.
  split; [constructor|]. split; [reflexivity|]. intros y n [=].
Qed.

(** On a batch whose merged edges have no cycle, [generate_sequence]
    returns; the sequence holds
    exactly the identities the batch mentions, the sentinels apart; and it
    holds none of them twice when no plugin named on a bare line is the
    left end of a merged edge. *)
Lemma acyclic_sequence rt (exprs relations : list _Algorithm.Expr) :
  merged_edges rt exprs = Returned relations ->
  ~ has_cycle relations ->
  exists order,
    _Algorithm.generate_sequence rt exprs = Returned order
    /\ (forall x, In x order
          <-> In x (mentioned exprs) /\ _Algorithm.is_head_or_tail x = false)
    /\ ((forall x, In x (bare_names exprs) -> ~ exists y, edge relations x y)
        -> NoDup order).
Proof.
  unfold merged_edges, _Algorithm.generate_sequence.
  rewrite normalization_spec. cbn [bind]. intros Hrel Hacyc. rewrite Hrel.
  cbn [bind]. unfold _Algorithm._generate_execution_order.
  fold (bare_names exprs).
  destruct (fold_left _Algorithm.record_relation relations ([], []))
    as [lhs rhs] eqn:Efold.
  pose proof (@record_relations_inv relations [] [] lhs rhs Efold
                loop_inv_empty) as Hinv.
  destruct (@record_relations_keys relations [] [] lhs rhs Efold)
    as (Hl & Hr & Hrec).
  assert (Hsub : forall u y, recorded lhs u y -> edge relations u y).
  { intros u y Huy. destruct (Hrec u y Huy) as [(s & Hs & _)|H];
      [discriminate | exact H]. }
  destruct (@elimination_acyclic rt relations Hacyc (length lhs) lhs rhs []
              (le_n _) Hinv Hsub) as (emitted & -> & Hperm).
  cbn [bind app]. rewrite strip_loop_remove_each, remove_each_self.
  eexists. split; [reflexivity|].
  assert (Hlb : forall x,
            In x (set_iter rt
                    (set_union (dedup (bare_names exprs))
                       (set_difference (dict_keys rhs) (dict_keys lhs))))
            <-> In x (bare_names exprs)
                \/ (In x (dict_keys rhs) /\ ~ In x (dict_keys lhs))).
  { intros x. unfold set_union.
    rewrite set_iter_In, dedup_In, in_app_iff, dedup_In, set_difference_In.
    reflexivity. }
  assert (Hem : forall x, In x emitted <-> exists y, edge relations x y).
  { intros x. split.
    - intros Hx. apply (Permutation_in _ Hperm) in Hx.
      apply Hl in Hx. simpl in Hx. destruct Hx as [[]|Hx]. exact Hx.
    - intros Hx. apply (Permutation_in _ (Permutation_sym Hperm)).
      apply Hl. auto. }
  split.
  - intros x. rewrite filter_In, in_app_iff, Hlb, Hem, negb_true_iff.
    rewrite mentioned_In, <- rewritten_identities_iff.
    rewrite <- (new_relations_identities _ _ Hrel x), identities_edge.
    rewrite Hr, Hl. simpl.
    destruct (mem x (dict_keys lhs)) eqn:Em.
    + apply mem_In, Hl in Em. simpl in Em. tauto.
    + assert (Hnl : ~ In x (dict_keys lhs))
        by (rewrite <- mem_In; congruence).
      rewrite Hl in Hnl. simpl in Hnl. tauto.
  - intros Hbare. apply NoDup_filter. apply NoDup_app.
    + apply (Permutation_NoDup (Permutation_sym Hperm)). apply Hinv.
    + apply (Permutation_NoDup (set_iter_perm rt _)). apply dedup_NoDup.
    + intros x Hx Hx'. apply Hem in Hx. apply Hlb in Hx'.
      destruct Hx' as [Hb|[_ Hnl]].
      * exact (Hbare x Hb Hx).
      * apply Hnl, Hl. auto.
Qed.

(** ** The shape of groups and chains *)

Lemma combine_loop_links op (g : list _Algorithm.Expr) : forall last,
  _Algorithm.combine_loop op (Some last) g
  = links (last :: map (fun e => getattr e op) g).
Proof.
  induction g as [|e g IH]; intros last; [reflexivity|].
  cbn [_Algorithm.combine_loop map links]. rewrite IH. reflexivity.
Qed.

Lemma links_cons (x y : PluginIndex) l :
  links (x :: y :: l)
  = mkExpr x y (Some _Algorithm.special_rel) :: links (y :: l).
Proof. reflexivity. Qed.

Lemma links_snoc (l : list PluginIndex) : forall a b,
  links (l ++ [a; b])
  = links (l ++ [a]) ++ [mkExpr a b (Some _Algorithm.special_rel)].
Proof.
  induction l as [|x l IH]; intros a b; [reflexivity|].
  destruct l as [|y l]; [reflexivity|].
  specialize (IH a b). cbn [app] in *.
  rewrite !links_cons, IH. reflexivity.
Qed.

Lemma links_length (l : list PluginIndex) :
  length (links l) = pred (length l).
Proof.
  induction l as [|x l IH]; [reflexivity|].
  destruct l as [|y l]; [reflexivity|].
  rewrite links_cons. cbn [length] in *. rewrite IH. reflexivity.
Qed.

Lemma break_left_chain (e : _Algorithm.Expr) (g : list _Algorithm.Expr) :
  _Algorithm._break_left_relation_group (e :: g)
  = Returned (links (left_operand e :: map (@right_operand _) (e :: g))).
Proof.
  unfold _Algorithm._break_left_relation_group,
    _Algorithm._break_relation_group.
  rewrite py_index_first. cbn [bind Z.eqb _Algorithm.combine_loop].
  rewrite combine_loop_links. reflexivity.
Qed.

Lemma break_right_chain (g : list _Algorithm.Expr) (e : _Algorithm.Expr) :
  _Algorithm._break_right_relation_group (g ++ [e])
  = Returned (links (map (@left_operand _) (g ++ [e]) ++ [right_operand e])).
Proof.
  unfold _Algorithm._break_right_relation_group,
    _Algorithm._break_relation_group.
  rewrite py_index_last. cbn [bind Z.eqb].
  rewrite map_app. cbn [map]. rewrite <- app_assoc. cbn [app].
  rewrite links_snoc. f_equal. f_equal.
  destruct g as [|h t]; [reflexivity|].
  cbn [app _Algorithm.combine_loop map]. rewrite combine_loop_links.
  rewrite map_app. reflexivity.
Qed.

(** X1. [_break_left_relation_group] turns a group [x <<p1 y1], ...,
    [x <<pn yn] into the chain through the left operand of its first member
    and then the right operands of all members, in the order of the group;
    on an empty group it raises [IndexError]. *)
Theorem X1_break_left_is_chain (e : _Algorithm.Expr)
    (g : list _Algorithm.Expr) :
  _Algorithm._break_left_relation_group (e :: g)
    = Returned (links (left_operand e
                         :: map (@right_operand _) (e :: g)))
  /\ _Algorithm._break_left_relation_group [] = Raised IndexError.
Proof. split; [apply break_left_chain | reflexivity]. Qed.

(** X2. [_break_right_relation_group] turns a group [x1 <<p1 y], ...,
    [xn <<pn y] into the chain through the left operands of all members, in
    the order of the group, and then the right operand of its last member;
    on an empty group it raises [IndexError]. *)
Theorem X2_break_right_is_chain (g : list _Algorithm.Expr)
    (e : _Algorithm.Expr) :
  _Algorithm._break_right_relation_group (g ++ [e])
    = Returned (links (map (@left_operand _) (g ++ [e])
                         ++ [right_operand e]))
  /\ _Algorithm._break_right_relation_group [] = Raised IndexError.
Proof. split; [apply break_right_chain | reflexivity]. Qed.

Lemma combine_loop_length op (g : list _Algorithm.Expr) :
  length (_Algorithm.combine_loop op None g) = pred (length g).
Proof.
  destruct g as [|e g]; [reflexivity|].
  cbn [_Algorithm.combine_loop]. rewrite combine_loop_links, links_length.
  cbn [length]. rewrite length_map. reflexivity.
Qed.

(** X3. [_break_relation_group] returns only for a group that is not empty
    and a [special_index] of 0 or -1, and then as many expressions as the
    group has; otherwise it raises [IndexError] (the index is out of range)
    or the bare [SyntaxError]. *)
Theorem X3_break_relation_group_outcomes (g : list _Algorithm.Expr)
    (op : op_name) (special_index : Z) :
  match _Algorithm._break_relation_group g op special_index with
  | Returned c =>
      g <> [] /\ (special_index = 0%Z \/ special_index = (-1)%Z)
      /\ length c = length g
  | Raised e => e = IndexError \/ e = SyntaxError NoMessage
  | OutOfFuel => False
  end.
Proof.
  unfold _Algorithm._break_relation_group.
  destruct (py_index g special_index) as [s| |] eqn:Ei; cbn [bind].
  - assert (Hne : g <> []).
    { intros ->. unfold py_index in Ei. simpl in Ei.
      destruct (special_index <? 0)%Z eqn:El;
        destruct (_ && _)%bool eqn:Eb; try discriminate;
        apply andb_true_iff in Eb; destruct Eb as [Ea Ec];
        apply Z.leb_le in Ea; apply Z.ltb_lt in Ec; lia. }
    destruct (Z.eqb_spec special_index 0) as [->|H0].
    + split; [exact Hne|]. split; [auto|].
      cbn [length]. rewrite combine_loop_length.
      destruct g; [contradiction | reflexivity].
    + destruct (Z.eqb_spec special_index (-1)) as [->|H1]; [|auto].
      split; [exact Hne|]. split; [auto|].
      rewrite length_app, combine_loop_length. cbn [length].
      destruct g; [contradiction | cbn [length pred]; lia].
  - unfold py_index in Ei.
    destruct (_ && _)%bool; [|injection Ei as <-; auto].
    destruct (nth_error _ _); [discriminate | injection Ei as <-; auto].
  - unfold py_index in Ei.
    destruct (_ && _)%bool; [|discriminate].
    destruct (nth_error _ _); discriminate.
Qed.

Lemma yield_group_loop_separated op (l : list _Algorithm.Expr) :
  forall val group,
    Forall (fun e => getattr e op = val) group ->
    exists g1 rest,
      _Algorithm.yield_group_loop op val group l = g1 :: rest
      /\ Forall (fun e => getattr e op = val) g1
      /\ separated op (g1 :: rest).
Proof.
  induction l as [|e l IH]; intros val group Hg.
  - exists group, []. split; [reflexivity|]. split; [exact Hg|constructor].
  - cbn [_Algorithm.yield_group_loop].
    destruct (py_eqb_spec val (getattr e op)) as [Hv|Hv].
    + apply IH. apply Forall_app. split; [exact Hg|].
      constructor; [auto | constructor].
    + destruct (IH (getattr e op) [e]) as (g1 & rest & -> & Hg1 & Hsep);
        [constructor; [reflexivity | constructor]|].
      exists group, (g1 :: rest). split; [reflexivity|].
      split; [exact Hg|]. constructor; [|exact Hsep].
      intros a a' Ha Ha'. rewrite Forall_forall in Hg, Hg1.
      rewrite (Hg _ Ha), (Hg1 _ Ha'). exact Hv.
Qed.

(** X4. [_yield_group] cuts the sorted list into its runs: the groups,
    put end to end, give the list back; no group is empty; the members of a
    group share the operand [op_name]; and a group and the next differ in
    it. *)
Theorem X4_yield_group_runs (sorted_exprs : list _Algorithm.Expr)
    (op : op_name) :
  concat (_Algorithm._yield_group sorted_exprs op) = sorted_exprs
  /\ Forall (fun g => g <> [] /\ uniform op g)
       (_Algorithm._yield_group sorted_exprs op)
  /\ separated op (_Algorithm._yield_group sorted_exprs op).
Proof.
  destruct (yield_group_spec sorted_exprs op) as (Hc & Hu).
  split; [exact Hc|]. split.
  - pose proof (yield_group_nonempty sorted_exprs op) as Hn.
    rewrite Forall_forall in *. intros g Hg. split; auto.
  - destruct sorted_exprs as [|e l]; [constructor|].
    cbn [_Algorithm._yield_group].
    destruct (@yield_group_loop_separated op l (getattr e op) [e])
      as (g1 & rest & -> & _ & Hsep); [|exact Hsep].
    constructor; [reflexivity | constructor].
Qed.

(** ** The outcomes of the elimination loop *)

Lemma recorded_indeg (lhs : _Algorithm.lhs_dict) u y :
  recorded lhs u y -> 0 < indeg y lhs.
Proof.
  intros (s & Hs & Hy). pose proof (indeg_entry y _ _ Hs) as Hle.
  apply occ_In in Hy. lia.
Qed.

(** Whatever the loop does: it returns [order] followed by the keys of
    [left_hand_side], each once and none before an identity recorded as
    preceding it; or it raises the ordering error, and then the relations
    hold a cycle. *)
Lemma elimination_outcome rt relations : forall fuel lhs rhs order,
  length lhs <= fuel ->
  loop_inv lhs rhs ->
  (forall u y, recorded lhs u y -> edge relations u y) ->
  match _Algorithm.elimination rt fuel lhs rhs order with
  | Returned res =>
      exists emitted,
        res = order ++ emitted
        /\ Permutation emitted (dict_keys lhs)
        /\ forall u y l1 l2, recorded lhs u y ->
             emitted = l1 ++ u :: l2 -> ~ In y l1
  | Raised e =>
      has_cycle relations
      /\ exists lhs' rhs', e = SyntaxError (SomethingWrong lhs' rhs')
  | OutOfFuel => False
  end.
Proof.
  induction fuel as [|fuel IH]; intros lhs rhs order Hfuel Hinv Hsub.
  - destruct lhs; [|simpl in Hfuel; lia]. simpl. exists [].
    rewrite app_nil_r. split; [reflexivity|]. split; [constructor|].
    intros u y l1 l2 _ E. destruct l1; discriminate.
  - simpl. destruct lhs as [|entry lhs0] eqn:Elhs.
    { exists []. rewrite app_nil_r. split; [reflexivity|].
      split; [constructor|]. intros u y l1 l2 _ E. destruct l1; discriminate. }
    rewrite <- Elhs in *.
    assert (Hne : lhs <> []) by (rewrite Elhs; discriminate).
    clear Elhs entry lhs0.
    destruct (set_difference (dict_keys lhs) (dict_keys rhs))
      as [|c cs] eqn:Eu.
    { split; [eapply stuck_cycle; eauto | eauto]. }
    rewrite <- Eu.
    destruct (set_pop_In rt (l := set_difference (dict_keys lhs)
                                      (dict_keys rhs)))
      as (item & -> & Hitem); [rewrite Eu; discriminate|].
    apply set_difference_In in Hitem. destruct Hitem as [Hil Hir].
    specialize (IH (dict_del item lhs)
                  (fold_left _Algorithm.release
                     (default [] (dict_get item lhs)) rhs)
                  (order ++ [item])).
    destruct (_Algorithm.elimination rt fuel _ _ _) as [res|e|].
    + destruct IH as (emitted & -> & Hperm & Hord).
      * pose proof (dict_del_length item lhs Hil). lia.
      * apply loop_inv_step. exact Hinv.
      * intros u y Huy. apply Hsub. eapply recorded_del. exact Huy.
      * exists (item :: emitted). rewrite <- app_assoc.
        split; [reflexivity|]. split.
        { rewrite Hperm. apply dict_keys_del_perm; [apply Hinv | exact Hil]. }
        intros u y l1 l2 Huy E. destruct l1 as [|a l1]; [tauto|].
        injection E as <- E. intros [<-|Hy].
        -- apply Hir. apply cnt_pos_In_keys.
           destruct Hinv as (_ & Hcnt & _). rewrite Hcnt.
           apply recorded_indeg in Huy. lia.
        -- apply (Hord u y l1 l2); [|exact E | exact Hy].
           assert (Hu : In u (dict_keys (dict_del item lhs))).
           { apply (Permutation_in _ Hperm). rewrite E.
             apply in_or_app. right. left. reflexivity. }
           rewrite dict_keys_del in Hu. apply filter_In in Hu.
           destruct Hu as [_ Hu]. apply negb_true_iff, py_eqb_neq in Hu.
           destruct Huy as (s & Hs & Hin). exists s. split; [|exact Hin].
           rewrite dict_get_del_other; [exact Hs | congruence].
    + apply IH.
      * pose proof (dict_del_length item lhs Hil). lia.
      * apply loop_inv_step. exact Hinv.
      * intros u y Huy. apply Hsub. eapply recorded_del. exact Huy.
    + apply IH.
      * pose proof (dict_del_length item lhs Hil). lia.
      * apply loop_inv_step. exact Hinv.
      * intros u y Huy. apply Hsub. eapply recorded_del. exact Huy.
Qed.

(** ** Paths through the chains *)

Lemma path_incl (r r' : list _Algorithm.Expr) x y :
  incl r r' -> path r x y -> path r' x y.
Proof.
  intros Hincl. assert (He : forall u v, edge r u v -> edge r' u v).
  { intros u v (e & He & Hu & Hv). exists e. auto. }
  induction 1; [apply path_edge | eapply path_step]; eauto.
Qed.

Lemma path_trans (r : list _Algorithm.Expr) x y z :
  path r x y -> path r y z -> path r x z.
Proof. induction 1; intros; eapply path_step; eauto. Qed.

Lemma links_path (ys : list PluginIndex) : forall x y,
  In y ys -> path (links (x :: ys)) x y.
Proof.
  induction ys as [|y1 ys IH]; intros x y Hy; [contradiction|].
  rewrite links_cons.
  assert (He : edge (mkExpr x y1 (Some _Algorithm.special_rel)
                       :: links (y1 :: ys)) x y1).
  { eexists. split; [left; reflexivity | split; reflexivity]. }
  destruct Hy as [<-|Hy]; [apply path_edge; exact He|].
  eapply path_step; [exact He|].
  eapply path_incl; [|apply IH; exact Hy]. apply incl_tl, incl_refl.
Qed.

Lemma mapM_In {A B} (f : A -> outcome B) l : forall bs a,
  mapM f l = Returned bs -> In a l ->
  exists b, f a = Returned b /\ In b bs.
Proof.
  induction l as [|a0 l IH]; simpl; intros bs a Hm Ha; [contradiction|].
  destruct (f a0) as [b0| |] eqn:E0; simpl in Hm; try discriminate.
  destruct (mapM f l) as [bs0| |]; simpl in Hm; try discriminate.
  injection Hm as <-. destruct Ha as [<-|Ha].
  - exists b0. simpl. auto.
  - destruct (IH bs0 a eq_refl Ha) as (b & Hb & Hin). exists b. simpl. auto.
Qed.

(** Each expression handed to the chain builder is spanned by a path of
    the merged edges, from its left operand to its right operand. *)
Lemma directive_path rt (l relations : list _Algorithm.Expr) e :
  _Algorithm.new_relations rt l = Returned relations ->
  In e l ->
  path relations (left_operand e) (right_operand e).
Proof.
  unfold _Algorithm.new_relations, _Algorithm._generate_left_relation_group.
  destruct (sorted (_Algorithm.cmp_key rt left_operand_name) false l)
    as [sl| |] eqn:El; cbn [bind]; try discriminate.
  destruct (mapM _Algorithm._break_left_relation_group
              (_Algorithm._yield_group sl left_operand_name))
    as [lc| |] eqn:Elc; cbn [bind]; try discriminate.
  destruct (_Algorithm._generate_right_relation_group rt l)
    as [rg| |]; cbn [bind]; try discriminate.
  destruct (mapM _Algorithm._break_right_relation_group rg)
    as [rc| |]; cbn [bind]; try discriminate.
  intros [= <-] He.
  apply (Permutation_in _ (sorted_perm _ _ _ El)) in He.
  destruct (yield_group_spec sl left_operand_name) as (Hc & Hu).
  rewrite <- Hc in He. apply in_concat in He.
  destruct He as (g & Hg & Heg).
  destruct (mapM_In _ _ _ Elc Hg) as (c & Hbreak & Hcin).
  rewrite Forall_forall in Hu. destruct (Hu g Hg) as (v & Hv).
  destruct g as [|e0 g]; [contradiction|].
  rewrite break_left_chain in Hbreak.
  assert (Ec : c = links (left_operand e0
                            :: map (@right_operand _) (e0 :: g)))
    by congruence.
  clear Hbreak. rewrite Forall_forall in Hv.
  assert (Hl : left_operand e = left_operand e0).
  { pose proof (Hv e Heg) as H1. pose proof (Hv e0 (or_introl eq_refl)) as H2.
    cbn [getattr] in H1, H2. congruence. }
  rewrite Hl. apply path_incl with (r := c).
  - intros a Ha. apply in_or_app. left. apply in_concat. eauto.
  - rewrite Ec. apply links_path. apply in_map. exact Heg.
Qed.

(** ** The order respects the edges *)

Lemma prefix_of_first (l1 : list PluginIndex) : forall l2 l1' l2' u m,
  l1 ++ u :: l2 = l1' ++ m :: l2' -> ~ In m l1 ->
  exists k, l1' = l1 ++ k.
Proof.
  induction l1 as [|a l1 IH]; intros l2 l1' l2' u m E Hm.
  - exists l1'. reflexivity.
  - destruct l1' as [|a' l1'].
    + injection E as -> _. exfalso. apply Hm. left. reflexivity.
    + injection E as <- E. destruct (IH _ _ _ _ _ E) as (k & ->).
      * intros H. apply Hm. right. exact H.
      * exists k. reflexivity.
Qed.

Lemma first_before_trans order u m v :
  first_before order u m -> first_before order m v -> first_before order u v.
Proof.
  intros (l1 & l2 & E & Hu & Hm) (l1' & l2' & E' & _ & Hv).
  exists l1, l2. split; [exact E|]. split; [exact Hu|].
  rewrite E in E'. destruct (prefix_of_first _ _ _ _ _ _ E' Hm) as (k & ->).
  intros H. apply Hv. apply in_or_app. auto.
Qed.

Lemma first_before_filter (P : PluginIndex -> bool) order x y :
  P x = true -> first_before order x y ->
  first_before (filter P order) x y.
Proof.
  intros Px (l1 & l2 & -> & Hx & Hy).
  exists (filter P l1), (filter P l2). rewrite filter_app. simpl. rewrite Px.
  split; [reflexivity|].
  split; intros H; apply filter_In in H; tauto.
Qed.

Lemma first_before_emitted emitted rest u v :
  NoDup emitted -> In u emitted ->
  (forall l1 l2, emitted = l1 ++ u :: l2 -> ~ In v l1) ->
  first_before (emitted ++ rest) u v.
Proof.
  intros Hnd Hu Hord. destruct (in_split _ _ Hu) as (l1 & l2 & E).
  exists l1, (l2 ++ rest). rewrite E, <- app_assoc. split; [reflexivity|].
  split; [|apply (Hord l1 l2 E)].
  rewrite E in Hnd. apply NoDup_remove_2 in Hnd.
  intros H. apply Hnd. apply in_or_app. auto.
Qed.

(** Whatever [_generate_execution_order] does: it returns, the relations
    hold no cycle and the order respects every path of them; or it raises
    the ordering error, and the relations hold a cycle. *)
Lemma execution_order_outcome rt relations irrelevant :
  match _Algorithm._generate_execution_order rt relations irrelevant with
  | Returned order =>
      ~ has_cycle relations
      /\ forall x y, path relations x y -> In x order ->
           first_before order x y
  | Raised e =>
      has_cycle relations
      /\ exists lhs rhs, e = SyntaxError (SomethingWrong lhs rhs)
  | OutOfFuel => False
  end.
Proof.
  destruct (_Algorithm._generate_execution_order rt relations irrelevant)
    as [order|e|] eqn:Eo.
  - assert (Hacyc : ~ has_cycle relations).
    { intros Hc.
      destruct (generate_execution_order_cycle rt irrelevant Hc)
        as (lhs & rhs & E & _). congruence. }
    split; [exact Hacyc|].
    unfold _Algorithm._generate_execution_order in Eo.
    destruct (fold_left _Algorithm.record_relation relations ([], []))
      as [lhs rhs] eqn:Efold.
    pose proof (@record_relations_inv relations [] [] lhs rhs Efold
                  loop_inv_empty) as Hinv.
    destruct (@record_relations_keys relations [] [] lhs rhs Efold)
      as (Hl & _ & Hrec).
    destruct (@record_relations_spec relations [] [] lhs rhs Efold)
      as (_ & _ & Hedge); [intros z; unfold cnt; simpl; lia|].
    assert (Hsub : forall u y, recorded lhs u y -> edge relations u y).
    { intros u y Huy. destruct (Hrec u y Huy) as [(s & Hs & _)|H];
        [discriminate | exact H]. }
    pose proof (@elimination_outcome rt relations (length lhs) lhs rhs []
                  (le_n _) Hinv Hsub) as Hout.
    destruct (_Algorithm.elimination rt (length lhs) lhs rhs [])
      as [res| |]; cbn [bind] in Eo; try discriminate.
    destruct Hout as (emitted & -> & Hperm & Hord). cbn [app] in Eo.
    rewrite strip_loop_remove_each, remove_each_self in Eo.
    injection Eo as <-.
    assert (Hnd : NoDup emitted).
    { apply (Permutation_NoDup (Permutation_sym Hperm)). apply Hinv. }
    assert (Hfull : forall x y, path relations x y ->
              first_before
                (emitted ++ set_iter rt
                   (set_union (dedup (map (@left_operand _) irrelevant))
                      (set_difference (dict_keys rhs) (dict_keys lhs))))
                x y).
    { induction 1 as [u v Huv|u m v Hum _ IH].
      - apply first_before_emitted; [exact Hnd| |].
        + apply (Permutation_in _ (Permutation_sym Hperm)). apply Hl.
          right. eauto.
        + intros l1 l2 E. apply (Hord u v l1 l2); [|exact E].
          apply Hedge. exact Huv.
      - eapply first_before_trans; [|exact IH].
        apply first_before_emitted; [exact Hnd| |].
        + apply (Permutation_in _ (Permutation_sym Hperm)). apply Hl.
          right. eauto.
        + intros l1 l2 E. apply (Hord u m l1 l2); [|exact E].
          apply Hedge. exact Hum. }
    intros x y Hxy Hx. apply first_before_filter; [|apply Hfull; exact Hxy].
    apply filter_In in Hx. tauto.
  - unfold _Algorithm._generate_execution_order in Eo.
    destruct (fold_left _Algorithm.record_relation relations ([], []))
      as [lhs rhs] eqn:Efold.
    pose proof (@record_relations_inv relations [] [] lhs rhs Efold
                  loop_inv_empty) as Hinv.
    destruct (@record_relations_keys relations [] [] lhs rhs Efold)
      as (_ & _ & Hrec).
    assert (Hsub : forall u y, recorded lhs u y -> edge relations u y).
    { intros u y Huy. destruct (Hrec u y Huy) as [(s & Hs & _)|H];
        [discriminate | exact H]. }
    pose proof (@elimination_outcome rt relations (length lhs) lhs rhs []
                  (le_n _) Hinv Hsub) as Hout.
    destruct (_Algorithm.elimination rt (length lhs) lhs rhs [])
      as [res|e'|]; cbn [bind] in Eo.
    + rewrite strip_loop_remove_each, remove_each_self in Eo. discriminate.
    + injection Eo as <-. exact Hout.
    + discriminate.
  - unfold _Algorithm._generate_execution_order in Eo.
    destruct (fold_left _Algorithm.record_relation relations ([], []))
      as [lhs rhs].
    pose proof (@elimination_fuel rt (length lhs) lhs rhs [] (le_n _)) as Hf.
    destruct (_Algorithm.elimination rt (length lhs) lhs rhs [])
      as [res|e'|]; cbn [bind] in Eo; try discriminate; [|congruence].
    rewrite strip_loop_remove_each, remove_each_self in Eo. discriminate.
Qed.

(** ** The sequence and the directives *)

Lemma precedes_edge (exprs : list _Algorithm.Expr) x y :
  precedes exprs x y ->
  edge (map SequenceParser.rewritten (filter has_relation exprs)) x y.
Proof.
  intros (e & d & He & Hr). exists (SequenceParser.rewritten e).
  assert (Hrel : has_relation e = true).
  { unfold reading in Hr. unfold has_relation.
    destruct (relation e); [reflexivity | discriminate]. }
  split; [apply in_map, filter_In; auto|].
  destruct (rewritten_forward e Hrel) as [(d' & _ & Hread) Hsame].
  rewrite Hsame, Hr in Hread. injection Hread as <- <- _. auto.
Qed.

Lemma precedes_chain_path rt (exprs relations : list _Algorithm.Expr) x y :
  merged_edges rt exprs = Returned relations ->
  precedes_chain exprs x y -> path relations x y.
Proof.
  unfold merged_edges. rewrite normalization_spec. cbn [bind]. intros Hrel.
  assert (Hone : forall u v, precedes exprs u v -> path relations u v).
  { intros u v Huv. apply precedes_edge in Huv.
    destruct Huv as (e & He & <- & <-).
    exact (@directive_path rt _ relations e Hrel He). }
  induction 1 as [u v Huv|u m v Hum _ IH]; [auto|].
  eapply path_trans; eauto.
Qed.

Lemma algorithm_sequence_outcome rt (exprs relations : list _Algorithm.Expr) :
  merged_edges rt exprs = Returned relations ->
  match _Algorithm.generate_sequence rt exprs with
  | Returned order =>
      ~ has_cycle relations
      /\ forall x y, path relations x y -> In x order ->
           first_before order x y
  | Raised e =>
      has_cycle relations
      /\ exists lhs rhs, e = SyntaxError (SomethingWrong lhs rhs)
  | OutOfFuel => False
  end.
Proof.
  unfold merged_edges, _Algorithm.generate_sequence.
  rewrite normalization_spec. cbn [bind]. intros ->. cbn [bind].
  apply execution_order_outcome.
Qed.

(** X5. [generate_sequence] ends on every batch, and in one of two ways:
    it returns a sequence, and then the merged edges hold no cycle; or it
    raises the ordering [SyntaxError], and then they hold one.  It raises
    no other exception. *)
Theorem X5_generate_sequence_outcomes (rt : Runtime)
    (exprs : list _Algorithm.Expr) :
  exists relations,
    merged_edges rt exprs = Returned relations
    /\ match _Algorithm.generate_sequence rt exprs with
       | Returned _ => ~ has_cycle relations
       | Raised e =>
           has_cycle relations
           /\ exists lhs rhs, e = SyntaxError (SomethingWrong lhs rhs)
       | OutOfFuel => False
       end.
Proof.
  destruct (merged_edges_total rt exprs) as (relations & Hrel).
  exists relations. split; [exact Hrel|].
  pose proof (algorithm_sequence_outcome rt exprs Hrel) as Hout.
  destruct (_Algorithm.generate_sequence rt exprs); tauto.
Qed.

(** X6. When [generate_sequence] returns, the sequence holds exactly the
    identities the batch mentions, HEAD and TAIL apart: both operands of the
    expressions with a relation and the names on bare lines.  It holds none
    of them twice when no name on a bare line is the left end of a merged
    edge. *)
Theorem X6_sequence_contents (rt : Runtime)
    (exprs relations : list _Algorithm.Expr) (order : list PluginIndex) :
  merged_edges rt exprs = Returned relations ->
  _Algorithm.generate_sequence rt exprs = Returned order ->
  (forall x, In x order
     <-> In x (mentioned exprs) /\ _Algorithm.is_head_or_tail x = false)
  /\ ((forall x, In x (bare_names exprs) -> ~ exists y, edge relations x y)
      -> NoDup order).
Proof.
  intros Hrel Hseq.
  pose proof (algorithm_sequence_outcome rt exprs Hrel) as Hout.
  rewrite Hseq in Hout. destruct Hout as [Hacyc _].
  destruct (acyclic_sequence rt exprs Hrel Hacyc) as (order' & E & H).
  rewrite Hseq in E. injection E as <-. exact H.
Qed.

(** X7. The returned sequence respects the directives: when a chain of
    directives leads from [x] to [y] and [x] is in the sequence, [y] does
    not occur before the first occurrence of [x]. *)
Theorem X7_sequence_respects_directives (rt : Runtime)
    (exprs : list _Algorithm.Expr) (order : list PluginIndex)
    (x y : PluginIndex) :
  _Algorithm.generate_sequence rt exprs = Returned order ->
  precedes_chain exprs x y ->
  In x order ->
  first_before order x y.
Proof.
  intros Hseq Hxy Hx.
  destruct (merged_edges_total rt exprs) as (relations & Hrel).
  pose proof (algorithm_sequence_outcome rt exprs Hrel) as Hout.
  rewrite Hseq in Hout. destruct Hout as [_ Hord].
  apply Hord; [|exact Hx]. eapply precedes_chain_path; eauto.
Qed.

(** X8. Directives that chain from an identity back to itself make
    [generate_sequence] raise the ordering [SyntaxError], whatever their
    degrees, the direction they were written in and the other directives of
    the batch. *)
Theorem X8_directive_cycle_raises (rt : Runtime)
    (exprs : list _Algorithm.Expr) (x : PluginIndex) :
  precedes_chain exprs x x ->
  exists lhs rhs,
    _Algorithm.generate_sequence rt exprs
    = Raised (SyntaxError (SomethingWrong lhs rhs)).
Proof.
  intros Hx.
  destruct (merged_edges_total rt exprs) as (relations & Hrel).
  pose proof (algorithm_sequence_outcome rt exprs Hrel) as Hout.
  assert (Hc : has_cycle relations).
  { exists x. eapply precedes_chain_path; eauto. }
  destruct (_Algorithm.generate_sequence rt exprs) as [order|e|].
  - destruct Hout as [Hacyc _]. contradiction.
  - destruct Hout as (_ & lhs & rhs & ->). eauto.
  - contradiction.
Qed.

Lemma X6_witness :
  (forall x,
     In x [ix "pre_load" "loader_c"; ix "pre_load" "loader_a";
           ix "pre_load" "loader_d"; ix "pre_load" "loader_b"]
     <-> In x (mentioned scenario_A_and_bare)
         /\ _Algorithm.is_head_or_tail x = false)
  /\ ((forall x, In x (bare_names scenario_A_and_bare) ->
         ~ exists y, edge scenario_A_edges x y)
      -> NoDup [ix "pre_load" "loader_c"; ix "pre_load" "loader_a";
                ix "pre_load" "loader_d"; ix "pre_load" "loader_b"]).
Proof.
  apply (@X6_sequence_contents example_runtime scenario_A_and_bare
           scenario_A_edges).
  - vm_compute. reflexivity.
  - vm_compute. reflexivity.
Defined.

Lemma X7_witness :
  first_before
    [ix "pre_load" "loader_c"; ix "pre_load" "loader_a";
     ix "pre_load" "loader_b"]
    (ix "pre_load" "loader_c") (ix "pre_load" "loader_b").
Proof.
  apply (@X7_sequence_respects_directives example_runtime scenario_A).
  - vm_compute. reflexivity.
  - apply chain_one. eexists. exists 1%Z.
    split; [right; left; reflexivity | reflexivity].
  - simpl. auto.
Defined.

Lemma X8_witness :
  exists lhs rhs,
    _Algorithm.generate_sequence example_runtime scenario_D
    = Raised (SyntaxError (SomethingWrong lhs rhs)).
Proof.
  apply (@X8_directive_cycle_raises example_runtime scenario_D
           (ix "pre_load" "a")).
  apply chain_more with (y := ix "pre_load" "b").
  - eexists. exists 0%Z. split; [left; reflexivity | reflexivity].
  - apply chain_one. eexists. exists 0%Z.
    split; [right; left; reflexivity | reflexivity].
Defined.

(** ** Operands and their parts *)

Lemma split_dot_nonempty s : SequenceParser.split_dot s <> [].
Proof.
  pose proof (split_dot_length s) as H.
  destruct (SequenceParser.split_dot s); [discriminate H | discriminate].
Qed.

Lemma split_dot_undotted s :
  dots s = 0 -> SequenceParser.split_dot s = [s].
Proof.
  induction s as [|c s IH]; [reflexivity|]. simpl.
  destruct (Ascii.eqb c "."); [discriminate|]. simpl. intros Hd.
  rewrite (IH Hd). reflexivity.
Qed.

Lemma split_dot_app t rest :
  dots t = 0 ->
  SequenceParser.split_dot (t ++ String "." rest)
  = t :: SequenceParser.split_dot rest.
Proof.
  induction t as [|c t IH]; [reflexivity|]. simpl.
  destruct (Ascii.eqb c "."); [discriminate|]. simpl. intros Hd.
  rewrite (IH Hd). reflexivity.
Qed.

Lemma split_dot_join s :
  String.concat "." (SequenceParser.split_dot s) = s
  /\ Forall (fun w => dots w = 0) (SequenceParser.split_dot s).
Proof.
  induction s as [|c s IH]; [split; [reflexivity | repeat constructor]|].
  destruct IH as (IHc & IHd).
  simpl. destruct (Ascii.eqb_spec c ".") as [->|Hc].
  - split; [|constructor; [reflexivity | exact IHd]].
    pose proof (split_dot_nonempty s) as Hne.
    destruct (SequenceParser.split_dot s) as [|w ws];
      [contradiction|].
    simpl in *. rewrite IHc. reflexivity.
  - pose proof (split_dot_nonempty s) as Hne.
    destruct (SequenceParser.split_dot s) as [|w ws]; [contradiction|].
    inversion IHd as [|? ? Hw Hws]; subst. split.
    + destruct ws as [|w' ws]; reflexivity.
    + constructor; [|exact Hws]. simpl.
      destruct (Ascii.eqb_spec c "."); [contradiction | exact Hw].
Qed.

Lemma dots_app s t : dots (s ++ t) = dots s + dots t.
Proof.
  induction s as [|c s IH]; [reflexivity|]. simpl. rewrite IH. lia.
Qed.

Lemma is_sentinel_name_undotted operand :
  is_sentinel_name operand = true -> dots operand = 0.
Proof.
  unfold is_sentinel_name. intros H. apply orb_true_iff in H.
  destruct H as [H|H]; apply py_eqb_eq in H; subst; reflexivity.
Qed.

Lemma get_theme_plugin_outcome (theme operand : string) :
  match SequenceParser.get_theme_plugin theme operand with
  | Returned (Some t, p) =>
      is_sentinel_name operand = false
      /\ ((dots operand = 0 /\ t = theme /\ p = operand)
          \/ (dots operand = 1 /\ operand = (t ++ "." ++ p)%string
              /\ dots t = 0 /\ dots p = 0))
  | Returned (None, p) => is_sentinel_name operand = true /\ p = operand
  | Raised e => 2 <= dots operand /\ e = SyntaxError (OperandError operand)
  | OutOfFuel => False
  end.
Proof.
  unfold SequenceParser.get_theme_plugin. fold (is_sentinel_name operand).
  destruct (is_sentinel_name operand) eqn:Es; [auto|].
  pose proof (split_dot_length operand) as Hl.
  destruct (split_dot_join operand) as (Hj & Hd).
  destruct (SequenceParser.split_dot operand) as [|a [|b [|c l]]];
    simpl in Hl.
  - discriminate.
  - split; [reflexivity|]. left. split; [lia | auto].
  - split; [reflexivity|]. right. split; [lia|].
    rewrite !Forall_cons_iff in Hd. destruct Hd as (Ha & Hb & _).
    simpl in Hj. auto.
  - split; [lia | reflexivity].
Qed.

(** X9. What [get_theme_plugin] makes of an operand: HEAD and TAIL stay
    without a theme; a name without dot goes to the theme of the text; a
    name with one dot is cut at the dot into theme and plugin, neither of
    which holds a dot; with more dots it raises the operand [SyntaxError]. *)
Theorem X9_get_theme_plugin_cases (theme operand : string) :
  match SequenceParser.get_theme_plugin theme operand with
  | Returned (Some t, p) =>
      is_sentinel_name operand = false
      /\ ((dots operand = 0 /\ t = theme /\ p = operand)
          \/ (dots operand = 1 /\ operand = (t ++ "." ++ p)%string
              /\ dots t = 0 /\ dots p = 0))
  | Returned (None, p) => is_sentinel_name operand = true /\ p = operand
  | Raised e => 2 <= dots operand /\ e = SyntaxError (OperandError operand)
  | OutOfFuel => False
  end.
Proof. apply get_theme_plugin_outcome. Qed.

(** X10. Qualification of a dotted name: for [theme] and [plugin] without
    dots, the operand [theme.plugin] is cut back into the two, whatever the
    theme of the text it stands in. *)
Theorem X10_dotted_operand_round_trip (here theme plugin : string) :
  dots theme = 0 -> dots plugin = 0 ->
  SequenceParser.get_theme_plugin here (theme ++ "." ++ plugin)
  = Returned (Some theme, plugin).
Proof.
  intros Ht Hp. unfold SequenceParser.get_theme_plugin.
  fold (is_sentinel_name (theme ++ "." ++ plugin)).
  destruct (is_sentinel_name (theme ++ "." ++ plugin)) eqn:Es.
  - apply is_sentinel_name_undotted in Es.
    rewrite !dots_app in Es. simpl in Es. lia.
  - change (theme ++ "." ++ plugin)%string
      with (theme ++ String "." plugin)%string.
    rewrite split_dot_app, split_dot_undotted by assumption. reflexivity.
Qed.

Lemma X10_witness :
  SequenceParser.get_theme_plugin "pre_load" ("load" ++ "." ++ "reader")
  = Returned (Some "load"%string, "reader"%string).
Proof.
  apply (@X10_dotted_operand_round_trip "pre_load" "load" "reader");
    reflexivity.
Defined.

(** ** Qualification of a namespace, and [analyze] *)

Lemma replace_expr_outcome theme (raw : SequenceParser.RawExpr) :
  match SequenceParser.replace_expr theme raw with
  | Returned e =>
      ~ malformed raw
      /\ relation e = relation raw
      /\ qualifies theme (left_operand raw) (left_operand e)
      /\ qualifies theme (right_operand raw) (right_operand e)
  | Raised e =>
      malformed raw
      /\ exists operand,
           2 <= dots operand /\ e = SyntaxError (OperandError operand)
  | OutOfFuel => False
  end.
Proof.
  unfold SequenceParser.replace_expr, qualifies, malformed.
  pose proof (get_theme_plugin_outcome theme (left_operand raw)) as Hl.
  pose proof (get_theme_plugin_outcome theme (right_operand raw)) as Hr.
  assert (Hs : forall o, is_sentinel_name o = true -> dots o < 2).
  { intros o Ho. apply is_sentinel_name_undotted in Ho. lia. }
  destruct (SequenceParser.get_theme_plugin theme (left_operand raw))
    as [[[tl|] pl]|el|]; cbn [bind]; [| | |contradiction].
  - destruct (SequenceParser.get_theme_plugin theme (right_operand raw))
      as [[[tr|] pr]|er|]; cbn [bind]; [| | |contradiction].
    + split; [|auto]. destruct Hl as [_ Hl], Hr as [_ Hr].
      intros [H|H]; lia.
    + split; [|auto]. destruct Hl as [_ Hl], Hr as [Hr _].
      apply Hs in Hr. intros [H|H]; lia.
    + destruct Hr as [Hr ->]. split; [auto | eauto].
  - destruct (SequenceParser.get_theme_plugin theme (right_operand raw))
      as [[[tr|] pr]|er|]; cbn [bind]; [| | |contradiction].
    + split; [|auto]. destruct Hl as [Hl _], Hr as [_ Hr].
      apply Hs in Hl. intros [H|H]; lia.
    + split; [|auto]. destruct Hl as [Hl _], Hr as [Hr _].
      apply Hs in Hl. apply Hs in Hr. intros [H|H]; lia.
    + destruct Hr as [Hr ->]. split; [auto | eauto].
  - destruct Hl as [Hl ->]. split; [auto | eauto].
Qed.

(** X11. [_replace_with_plugin_index] returns exactly when no operand of
    the namespace has more than one dot.  It then returns one expression
    per raw expression, in order, with the same relation and both operands
    qualified; else it raises the operand [SyntaxError] for an operand with
    more than one dot. *)
Theorem X11_replace_with_plugin_index_outcomes (theme : string)
    (plugin_exprs : list SequenceParser.RawExpr) :
  match SequenceParser._replace_with_plugin_index theme plugin_exprs with
  | Returned processed_exprs =>
      Forall (fun raw => ~ malformed raw) plugin_exprs
      /\ Forall2
           (fun raw e =>
              relation e = relation raw
              /\ qualifies theme (left_operand raw) (left_operand e)
              /\ qualifies theme (right_operand raw) (right_operand e))
           plugin_exprs processed_exprs
  | Raised e =>
      Exists malformed plugin_exprs
      /\ exists operand,
           2 <= dots operand /\ e = SyntaxError (OperandError operand)
  | OutOfFuel => False
  end.
Proof.
  unfold SequenceParser._replace_with_plugin_index.
  induction plugin_exprs as [|raw l IH]; cbn [mapM].
  - split; constructor.
  - pose proof (replace_expr_outcome theme raw) as Hraw.
    destruct (SequenceParser.replace_expr theme raw) as [e|er|];
      cbn [bind]; [| |contradiction].
    + destruct (mapM (SequenceParser.replace_expr theme) l) as [es|er|];
        cbn [bind]; [| |contradiction].
      * destruct Hraw as (Hm & Hrest), IH as (Hall & Hall2).
        split; constructor; assumption.
      * destruct IH as (Hex & Hop). split; [apply Exists_cons_tl|]; assumption.
    + destruct Hraw as (Hm & Hop). split; [apply Exists_cons_hd|]; assumption.
Qed.

(** X12. The had-errors flag only ever rises: after [analyze] it is set
    when it was set before or when the lexer or the parser flagged the text,
    and in no other case; the collector is left as the parser left it. *)
Theorem X12_error_flag_after_analyze
    (parse : string -> SequenceParser.ErrorCollector
             -> list SequenceParser.RawExpr * SequenceParser.ErrorCollector)
    (theme text : string) (self : SequenceParser.state)
    (collector : SequenceParser.ErrorCollector) :
  let after := SequenceParser.analyze parse theme text self collector in
  let parsed := snd (parse text collector) in
  SequenceParser.error (fst (fst after))
  = (SequenceParser.error self
     || SequenceParser.lex_error parsed
     || SequenceParser.yacc_error parsed)%bool
  /\ snd (fst after) = parsed.
Proof.
  unfold SequenceParser.analyze, SequenceParser._archive_error.
  destruct (parse text collector) as [exprs c]. cbn [snd].
  destruct (SequenceParser.lex_error c).
  - cbn. rewrite orb_true_r. auto.
  - destruct (SequenceParser.yacc_error c).
    + cbn. rewrite orb_true_r. auto.
    + rewrite !orb_false_r.
      destruct (SequenceParser._replace_with_plugin_index theme exprs);
        cbn; auto.
Qed.

(** X13. [_remove_irrelevant_exprs] never raises: whatever expressions are
    equal to one another, it leaves in [self._exprs] the expressions with a
    relation, in their order, and returns the bare ones, in their order. *)
Theorem X13_remove_irrelevant_exprs_splits (_exprs : list _Algorithm.Expr) :
  _Algorithm._remove_irrelevant_exprs _exprs
  = Returned (filter has_relation _exprs,
              filter (fun e => negb (has_relation e)) _exprs).
Proof. apply remove_irrelevant_exprs_spec. Qed.

Lemma transform_expr_outcome (e : _Algorithm.Expr) :
  match _Algorithm.transform_expr e with
  | Returned e' =>
      has_relation e = true /\ forward_form e' /\ reading e' = reading e
      /\ _Algorithm.transform_expr e' = Returned e'
  | Raised x => x = AttributeError /\ has_relation e = false
  | OutOfFuel => False
  end.
Proof.
  unfold _Algorithm.transform_expr, has_relation, forward_form, reading.
  destruct e as [l r [[[|] d]|]]; cbn; eauto 6.
Qed.

(** X14. [_transform_to_left_rel] raises [AttributeError] exactly when some
    expression has no relation.  Otherwise it returns one expression per
    expression, each in forward form and reading as before, and running it
    again on the result changes nothing. *)
Theorem X14_transform_to_left_rel_outcomes (_exprs : list _Algorithm.Expr) :
  match _Algorithm._transform_to_left_rel _exprs with
  | Returned _exprs' =>
      Forall (fun e => has_relation e = true) _exprs
      /\ Forall2 (fun e e' => forward_form e' /\ reading e' = reading e)
           _exprs _exprs'
      /\ _Algorithm._transform_to_left_rel _exprs' = Returned _exprs'
  | Raised x =>
      x = AttributeError /\ Exists (fun e => has_relation e = false) _exprs
  | OutOfFuel => False
  end.
Proof.
  unfold _Algorithm._transform_to_left_rel.
  induction _exprs as [|e l IH]; cbn [mapM].
  - repeat split; constructor.
  - pose proof (transform_expr_outcome e) as He.
    destruct (_Algorithm.transform_expr e) as [e'|x|]; cbn [bind];
      [| |contradiction].
    + destruct (mapM _Algorithm.transform_expr l) as [l'|x|]; cbn [bind];
        [| |contradiction].
      * destruct He as (Hr & Hf & Hread & Hagain), IH as (Hall & Hall2 & Hl').
        split; [constructor; assumption|].
        split; [constructor; auto|].
        cbn [mapM]. rewrite Hagain, Hl'. reflexivity.
      * destruct IH as (-> & Hex). split; [reflexivity|].
        apply Exists_cons_tl. exact Hex.
    + destruct He as (-> & Hb). split; [reflexivity|].
      apply Exists_cons_hd. exact Hb.
Qed.

(** ** The merged edges of a list of expressions *)

Lemma cmp_keys_outcome rt op (l : list _Algorithm.Expr) :
  match mapM (_Algorithm.cmp_key rt op) l with
  | Returned _ => Forall (fun e => has_relation e = true) l
  | Raised x =>
      x = AttributeError /\ Exists (fun e => has_relation e = false) l
  | OutOfFuel => False
  end.
Proof.
  induction l as [|e l IH]; cbn [mapM]; [constructor|].
  unfold _Algorithm.cmp_key at 1.
  assert (Hr : has_relation e
               = match relation e with Some _ => true | None => false end)
    by reflexivity.
  destruct (relation e); cbn [bind].
  - destruct (mapM (_Algorithm.cmp_key rt op) l) as [ks|x|]; cbn [bind].
    + constructor; assumption.
    + destruct IH as (-> & Hex). split; [reflexivity|].
      apply Exists_cons_tl. exact Hex.
    + exact IH.
  - split; [reflexivity|]. apply Exists_cons_hd. exact Hr.
Qed.

Lemma sorted_outcome rt op reverse (l : list _Algorithm.Expr) :
  match sorted (_Algorithm.cmp_key rt op) reverse l with
  | Returned l' =>
      Forall (fun e => has_relation e = true) l /\ Permutation l l'
  | Raised x =>
      x = AttributeError /\ Exists (fun e => has_relation e = false) l
  | OutOfFuel => False
  end.
Proof.
  destruct (sorted (_Algorithm.cmp_key rt op) reverse l) as [l'|x|] eqn:Es;
    pose proof (cmp_keys_outcome rt op l) as Hk.
  - split; [|eapply sorted_perm; exact Es]. unfold sorted in Es.
    destruct (mapM (_Algorithm.cmp_key rt op) l); cbn [bind] in Es;
      [exact Hk | discriminate | discriminate].
  - unfold sorted in Es.
    destruct (mapM (_Algorithm.cmp_key rt op) l); cbn [bind] in Es;
      [discriminate | injection Es as <-; exact Hk | discriminate].
  - unfold sorted in Es.
    destruct (mapM (_Algorithm.cmp_key rt op) l); cbn [bind] in Es;
      [discriminate | discriminate | exact Hk].
Qed.

Lemma links_special (nodes : list PluginIndex) :
  Forall (fun e => relation e = Some _Algorithm.special_rel) (links nodes).
Proof.
  induction nodes as [|x l IH]; [constructor|].
  destruct l as [|y l]; [constructor|]. rewrite links_cons.
  constructor; [reflexivity | exact IH].
Qed.

Lemma break_chain_facts (break : list _Algorithm.Expr
                                 -> outcome (list _Algorithm.Expr)) :
  (forall g, g <> [] -> exists nodes,
     break g = Returned (links nodes) /\ length nodes = S (length g)) ->
  forall groups chains,
    Forall (fun g => g <> []) groups ->
    mapM break groups = Returned chains ->
    length (concat chains) = length (concat groups)
    /\ Forall (fun e => relation e = Some _Algorithm.special_rel)
         (concat chains).
Proof.
  intros Hbreak groups. induction groups as [|g groups IH];
    intros chains Hne Hm; cbn [mapM] in Hm.
  - injection Hm as <-. split; [reflexivity | constructor].
  - inversion Hne as [|? ? Hg Hne']; subst.
    destruct (Hbreak g Hg) as (nodes & Eg & Hlen). rewrite Eg in Hm.
    cbn [bind] in Hm.
    destruct (mapM break groups) as [cs| |]; cbn [bind] in Hm;
      try discriminate.
    injection Hm as <-. destruct (IH cs Hne' eq_refl) as (Hl & Hs).
    cbn [concat]. rewrite !length_app, links_length, Hlen, Hl.
    split; [reflexivity|]. apply Forall_app. split; [apply links_special|auto].
Qed.

Lemma break_left_nodes (g : list _Algorithm.Expr) :
  g <> [] ->
  exists nodes,
    _Algorithm._break_left_relation_group g = Returned (links nodes)
    /\ length nodes = S (length g).
Proof.
  destruct g as [|e g]; [contradiction|]. intros _.
  rewrite break_left_chain. eexists. split; [reflexivity|].
  cbn [length]. rewrite length_map. reflexivity.
Qed.

Lemma break_right_nodes (g : list _Algorithm.Expr) :
  g <> [] ->
  exists nodes,
    _Algorithm._break_right_relation_group g = Returned (links nodes)
    /\ length nodes = S (length g).
Proof.
  intros Hne. destruct (exists_last Hne) as (g' & e & ->).
  rewrite break_right_chain. eexists. split; [reflexivity|].
  rewrite length_app, length_map, !length_app. cbn [length]. lia.
Qed.

(** X15. [new_relations], the merged edges of a list of expressions.  When
    some expression has no relation the sort key raises [AttributeError].
    Otherwise the two rounds of chains are returned: twice as many
    expressions as the list has, each with the special relation, and
    mentioning the identities of the list, all of them and no other. *)
Theorem X15_new_relations_outcomes (rt : Runtime)
    (_exprs : list _Algorithm.Expr) :
  match _Algorithm.new_relations rt _exprs with
  | Returned relations =>
      Forall (fun e => has_relation e = true) _exprs
      /\ length relations = 2 * length _exprs
      /\ Forall (fun e => relation e = Some _Algorithm.special_rel) relations
      /\ forall x, In x (identities relations) <-> In x (identities _exprs)
  | Raised x =>
      x = AttributeError
      /\ Exists (fun e => has_relation e = false) _exprs
  | OutOfFuel => False
  end.
Proof.
  destruct (_Algorithm.new_relations rt _exprs) as [relations|x|] eqn:En.
  - pose proof (new_relations_identities rt _exprs En) as Hid.
    unfold _Algorithm.new_relations, _Algorithm._generate_left_relation_group,
      _Algorithm._generate_right_relation_group in En.
    pose proof (sorted_outcome rt left_operand_name false _exprs) as Hsl.
    pose proof (sorted_outcome rt right_operand_name true _exprs) as Hsr.
    destruct (sorted (_Algorithm.cmp_key rt left_operand_name) false _exprs)
      as [sl| |]; cbn [bind] in En; try discriminate.
    destruct (mapM _Algorithm._break_left_relation_group
                (_Algorithm._yield_group sl left_operand_name))
      as [lc| |] eqn:Elc; cbn [bind] in En; try discriminate.
    destruct (sorted (_Algorithm.cmp_key rt right_operand_name) true _exprs)
      as [sr| |]; cbn [bind] in En; try discriminate.
    destruct (mapM _Algorithm._break_right_relation_group
                (_Algorithm._yield_group sr right_operand_name))
      as [rc| |] eqn:Erc; cbn [bind] in En; try discriminate.
    injection En as <-. destruct Hsl as (Hrel & Hpl), Hsr as (_ & Hpr).
    destruct (@break_chain_facts _ break_left_nodes _ _
                (yield_group_nonempty sl left_operand_name) Elc)
      as (Hll & Hls).
    destruct (@break_chain_facts _ break_right_nodes _ _
                (yield_group_nonempty sr right_operand_name) Erc)
      as (Hlr & Hrs).
    rewrite (proj1 (yield_group_spec sl left_operand_name)) in Hll.
    rewrite (proj1 (yield_group_spec sr right_operand_name)) in Hlr.
    split; [exact Hrel|]. split.
    + rewrite length_app, Hll, Hlr.
      rewrite <- (Permutation_length Hpl), <- (Permutation_length Hpr). lia.
    + split; [apply Forall_app; auto | exact Hid].
  - unfold _Algorithm.new_relations, _Algorithm._generate_left_relation_group,
      _Algorithm._generate_right_relation_group in En.
    pose proof (sorted_outcome rt left_operand_name false _exprs) as Hsl.
    pose proof (sorted_outcome rt right_operand_name true _exprs) as Hsr.
    destruct (sorted (_Algorithm.cmp_key rt left_operand_name) false _exprs)
      as [sl|y|]; cbn [bind] in En; [| |discriminate].
    + destruct Hsl as (Hrel & _).
      destruct (new_relations_total rt Hrel) as (relations & E).
      unfold _Algorithm.new_relations,
        _Algorithm._generate_left_relation_group,
        _Algorithm._generate_right_relation_group in E.
      destruct (sorted (_Algorithm.cmp_key rt left_operand_name) false
                  _exprs) as [sl'| |]; cbn [bind] in E; try discriminate.
      exfalso. clear Hsr.
      destruct (sorted_total rt left_operand_name false Hrel)
        as (s1 & Es1 & _).
      destruct (sorted_total rt right_operand_name true Hrel)
        as (s2 & Es2 & _).
      destruct (mapM_total _Algorithm._break_left_relation_group
                  (l := _Algorithm._yield_group sl left_operand_name))
        as (lc & Elc & _).
      { eapply Forall_impl; [|apply yield_group_nonempty].
        intros g Hg. apply break_relation_group_total. exact Hg. }
      rewrite Elc, Es2 in En. cbn [bind] in En.
      destruct (mapM_total _Algorithm._break_right_relation_group
                  (l := _Algorithm._yield_group s2 right_operand_name))
        as (rc & Erc & _).
      { eapply Forall_impl; [|apply yield_group_nonempty].
        intros g Hg. apply break_relation_group_total. exact Hg. }
      rewrite Erc in En. discriminate.
    + injection En as <-. exact Hsl.
  - pose proof (sorted_outcome rt left_operand_name false _exprs) as Hsl.
    unfold _Algorithm.new_relations, _Algorithm._generate_left_relation_group,
      _Algorithm._generate_right_relation_group in En.
    destruct (sorted (_Algorithm.cmp_key rt left_operand_name) false _exprs)
      as [sl|y|]; cbn [bind] in En; [|discriminate|contradiction].
    destruct Hsl as (Hrel & _).
    destruct (sorted_total rt right_operand_name true Hrel)
      as (s2 & Es2 & _).
    destruct (mapM_total _Algorithm._break_left_relation_group
                (l := _Algorithm._yield_group sl left_operand_name))
      as (lc & Elc & _).
    { eapply Forall_impl; [|apply yield_group_nonempty].
      intros g Hg. apply break_relation_group_total. exact Hg. }
    rewrite Elc, Es2 in En. cbn [bind] in En.
    destruct (mapM_total _Algorithm._break_right_relation_group
                (l := _Algorithm._yield_group s2 right_operand_name))
      as (rc & Erc & _).
    { eapply Forall_impl; [|apply yield_group_nonempty].
      intros g Hg. apply break_relation_group_total. exact Hg. }
    rewrite Erc in En. discriminate.
Qed.

(** ** The sorts of the chain builder *)

Section InsertionSort.
Context {A : Type} (le : A -> A -> bool).
Hypothesis le_total : forall a b, le a b = true \/ le b a = true.
Hypothesis le_trans :
  forall a b c, le a b = true -> le b c = true -> le a c = true.

Lemma insert_sorted x l :
  StronglySorted (fun a b => le a b = true) l ->
  StronglySorted (fun a b => le a b = true) (insert le x l).
Proof.
  induction 1 as [|y l Hl IH Hy]; simpl; [repeat constructor|].
  destruct (le x y) eqn:Exy.
  - constructor; [constructor; assumption|].
    constructor; [exact Exy|].
    eapply Forall_impl; [|exact Hy]. intros z Hz. eapply le_trans; eauto.
  - constructor; [exact IH|].
    apply (Permutation_Forall (insert_perm le x l)).
    constructor; [|exact Hy].
    destruct (le_total x y) as [H|H]; [congruence | exact H].
Qed.

Lemma isort_sorted l :
  StronglySorted (fun a b => le a b = true) (isort le l).
Proof.
  induction l as [|x l IH]; simpl; [constructor|].
  apply insert_sorted. exact IH.
Qed.
End InsertionSort.

Lemma tuple_le_spec a b :
  tuple_le a b = true
  <-> (fst a < fst b \/ (fst a = fst b /\ snd a <= snd b))%Z.
Proof.
  unfold tuple_le. rewrite orb_true_iff, andb_true_iff.
  rewrite Z.ltb_lt, Z.eqb_eq, Z.leb_le. reflexivity.
Qed.

Lemma tuple_le_total a b : tuple_le a b = true \/ tuple_le b a = true.
Proof. rewrite !tuple_le_spec. lia. Qed.

Lemma tuple_le_trans a b c :
  tuple_le a b = true -> tuple_le b c = true -> tuple_le a c = true.
Proof. rewrite !tuple_le_spec. lia. Qed.

Lemma StronglySorted_map {A B} (R : A -> A -> Prop) (R' : B -> B -> Prop)
    (f : A -> B) l :
  (forall a b, R a b -> R' (f a) (f b)) ->
  StronglySorted R l -> StronglySorted R' (map f l).
Proof.
  intros HR. induction 1 as [|a l Hl IH Ha]; simpl; constructor; [exact IH|].
  apply Forall_map. eapply Forall_impl; [|exact Ha]. intros b. apply HR.
Qed.

Lemma StronglySorted_weaken {A} (R R' : A -> A -> Prop) l :
  (forall a b, In a l -> In b l -> R a b -> R' a b) ->
  StronglySorted R l -> StronglySorted R' l.
Proof.
  intros HR Hs. induction Hs as [|a l Hl IH Ha]; constructor.
  - apply IH. intros x y Hx Hy. apply HR; right; assumption.
  - rewrite Forall_forall in *. intros b Hb.
    apply HR; [left; reflexivity | right; exact Hb | apply Ha; exact Hb].
Qed.

Lemma StronglySorted_filter {A} (R : A -> A -> Prop) (P : A -> bool) l :
  StronglySorted R l -> StronglySorted R (filter P l).
Proof.
  induction 1 as [|a l Hl IH Ha]; simpl; [constructor|].
  destruct (P a); [|exact IH]. constructor; [exact IH|].
  rewrite Forall_forall in *. intros b Hb. apply filter_In in Hb.
  apply Ha. tauto.
Qed.

Lemma mapM_combine {A B} (f : A -> outcome B) l : forall bs,
  mapM f l = Returned bs ->
  Forall (fun p => f (snd p) = Returned (fst p)) (combine bs l).
Proof.
  induction l as [|a l IH]; simpl; intros bs.
  - intros [= <-]. constructor.
  - destruct (f a) as [b| |] eqn:Eb; simpl; try discriminate.
    destruct (mapM f l) as [bs'| |]; simpl; try discriminate.
    intros [= <-]. simpl. constructor; [exact Eb | apply IH; reflexivity].
Qed.

Lemma cmp_key_key_of rt op (e : _Algorithm.Expr) k :
  _Algorithm.cmp_key rt op e = Returned k -> k = key_of rt op e.
Proof.
  unfold _Algorithm.cmp_key, key_of, degree_of.
  destruct (relation e); [congruence | discriminate].
Qed.

(** The list a sort of the chain builder returns is in the order of the
    keys: ascending, or descending with [reverse]. *)
Lemma sorted_by_key rt op reverse (l l' : list _Algorithm.Expr) :
  sorted (_Algorithm.cmp_key rt op) reverse l = Returned l' ->
  StronglySorted
    (fun e e' =>
       (if reverse then tuple_le (key_of rt op e') (key_of rt op e)
        else tuple_le (key_of rt op e) (key_of rt op e')) = true) l'.
Proof.
  unfold sorted.
  destruct (mapM (_Algorithm.cmp_key rt op) l) as [keys| |] eqn:Ek;
    cbn [bind]; try discriminate.
  intros [= <-]. apply mapM_combine in Ek.
  set (le := fun p q : Z * Z * _Algorithm.Expr =>
               if reverse then tuple_le (fst q) (fst p)
               else tuple_le (fst p) (fst q)).
  assert (Hs : StronglySorted (fun p q => le p q = true)
                 (isort le (combine keys l))).
  { apply isort_sorted; unfold le; destruct reverse; intros;
      solve [apply tuple_le_total | eapply tuple_le_trans; eauto]. }
  apply (Permutation_Forall (isort_perm le (combine keys l))) in Ek.
  set (R' := fun e e' : _Algorithm.Expr =>
               (if reverse then tuple_le (key_of rt op e') (key_of rt op e)
                else tuple_le (key_of rt op e) (key_of rt op e')) = true).
  assert (Hs2 : StronglySorted (fun p q => R' (snd p) (snd q))
                  (isort le (combine keys l))).
  { eapply StronglySorted_weaken; [|exact Hs].
    rewrite Forall_forall in Ek. intros p q Hp Hq H. unfold R'.
    rewrite <- (cmp_key_key_of _ _ _ (Ek p Hp)).
    rewrite <- (cmp_key_key_of _ _ _ (Ek q Hq)). exact H. }
  exact (@StronglySorted_map _ _ (fun p q => R' (snd p) (snd q)) R' snd _
           (fun a b H => H) Hs2).
Qed.

(** ** One group per operand *)

Section GroupsOfSortedList.
Variable op : op_name.
Variable h : PluginIndex -> Z.
Variable ord : Z -> Z -> Prop.
Hypothesis ord_antisym : forall a b, ord a b -> ord b a -> a = b.

Let same (v : PluginIndex) (e : _Algorithm.Expr) : bool :=
  py_eqb (getattr e op) v.

Lemma yield_group_loop_filter (l : list _Algorithm.Expr) :
  forall val group,
    StronglySorted (fun e e' => ord (h (getattr e op)) (h (getattr e' op))) l ->
    (forall z, In z l -> ord (h val) (h (getattr z op))) ->
    (forall z, In z l -> h (getattr z op) = h val -> getattr z op = val) ->
    (forall z z', In z l -> In z' l ->
       h (getattr z op) = h (getattr z' op) -> getattr z op = getattr z' op) ->
    exists rest,
      _Algorithm.yield_group_loop op val group l
        = (group ++ filter (same val) l) :: rest
      /\ Forall (fun g => exists v, v <> val /\ g <> []
                            /\ g = filter (same v) l) rest.
Proof.
  induction l as [|e l IH]; intros val group Hs Hge Hval Hinj.
  - exists []. simpl. rewrite app_nil_r. auto.
  - cbn [_Algorithm.yield_group_loop filter]. unfold same at 1.
    apply StronglySorted_inv in Hs. destruct Hs as (Hs & He).
    rewrite Forall_forall in He.
    destruct (py_eqb_spec val (getattr e op)) as [Hv|Hv].
    + rewrite <- Hv, py_eqb_refl.
      destruct (IH val (group ++ [e]) Hs) as (rest & -> & Hrest).
      * intros z Hz. apply Hge. right. exact Hz.
      * intros z Hz. apply Hval. right. exact Hz.
      * intros z z' Hz Hz'. apply Hinj; right; assumption.
      * exists rest. rewrite <- app_assoc. split; [reflexivity|].
        eapply Forall_impl; [|exact Hrest].
        intros g (v & Hne & Hg & ->). exists v. split; [exact Hne|].
        split; [exact Hg|]. cbn [filter]. unfold same at 2.
        rewrite <- Hv. apply not_eq_sym, py_eqb_neq in Hne. rewrite Hne.
        reflexivity.
    + assert (Hnone : forall z, In z l -> getattr z op <> val).
      { intros z Hz Ez. apply Hv. symmetry.
        apply (Hval e (or_introl eq_refl)).
        apply ord_antisym.
        - specialize (He z Hz). rewrite Ez in He. exact He.
        - apply Hge. left. reflexivity. }
      assert (Hempty : filter (same val) l = []).
      { clear -Hnone. induction l as [|z l IHl]; [reflexivity|].
        cbn [filter]. unfold same at 1.
        rewrite (proj2 (py_eqb_neq _ _) (Hnone z (or_introl eq_refl))).
        apply IHl. intros z' Hz'. apply Hnone. right. exact Hz'. }
      apply not_eq_sym in Hv. rewrite (proj2 (py_eqb_neq _ _) Hv), Hempty.
      destruct (IH (getattr e op) [e] Hs) as (rest & -> & Hrest).
      * exact He.
      * intros z Hz Ez. apply (Hinj z e); [right; exact Hz | left; auto | exact Ez].
      * intros z z' Hz Hz'. apply Hinj; right; assumption.
      * exists (([e] ++ filter (same (getattr e op)) l) :: rest).
        rewrite app_nil_r. split; [reflexivity|]. constructor.
        -- exists (getattr e op). split; [exact Hv|]. split; [discriminate|].
           cbn [filter]. unfold same at 2. rewrite py_eqb_refl. reflexivity.
        -- rewrite Forall_forall in *. intros g Hg.
           destruct (Hrest g Hg) as (v & Hne & Hgne & ->).
           exists v. split; [|split; [exact Hgne|]].
           ++ intros ->. destruct (filter (same val) l) eqn:Ef;
                [contradiction | discriminate].
           ++ cbn [filter]. unfold same at 2.
              apply not_eq_sym, py_eqb_neq in Hne. rewrite Hne. reflexivity.
Qed.

Lemma yield_group_filter (l : list _Algorithm.Expr) :
  StronglySorted (fun e e' => ord (h (getattr e op)) (h (getattr e' op))) l ->
  (forall z z', In z l -> In z' l ->
     h (getattr z op) = h (getattr z' op) -> getattr z op = getattr z' op) ->
  Forall (fun g => exists v, g <> [] /\ g = filter (same v) l)
    (_Algorithm._yield_group l op).
Proof.
  intros Hs Hinj. destruct l as [|e l]; [constructor|].
  cbn [_Algorithm._yield_group].
  apply StronglySorted_inv in Hs. destruct Hs as (Hs & He).
  rewrite Forall_forall in He.
  destruct (@yield_group_loop_filter l (getattr e op) [e] Hs)
    as (rest & -> & Hrest).
  - exact He.
  - intros z Hz Ez. apply (Hinj z e); [right; exact Hz | left; auto | exact Ez].
  - intros z z' Hz Hz'. apply Hinj; right; assumption.
  - constructor.
    + exists (getattr e op). split; [discriminate|].
      cbn [filter]. unfold same at 2. rewrite py_eqb_refl. reflexivity.
    + eapply Forall_impl; [|exact Hrest].
      intros g (v & Hne & Hg & ->). exists v. split; [exact Hg|].
      cbn [filter]. unfold same at 2.
      apply not_eq_sym, py_eqb_neq in Hne. rewrite Hne. reflexivity.
Qed.
End GroupsOfSortedList.

Lemma sorted_groups rt op reverse (l sl : list _Algorithm.Expr) :
  sorted (_Algorithm.cmp_key rt op) reverse l = Returned sl ->
  collision_free rt l ->
  Forall (fun g => exists v,
            g <> [] /\ g = filter (fun e => py_eqb (getattr e op) v) sl)
    (_Algorithm._yield_group sl op).
Proof.
  intros Es Hfree. pose proof (sorted_by_key _ _ _ _ Es) as Hs.
  pose proof (sorted_perm _ _ _ Es) as Hp.
  apply (@yield_group_filter op (hash rt)
           (fun a b => if reverse then (b <= a)%Z else (a <= b)%Z)).
  - intros a b. destruct reverse; lia.
  - eapply StronglySorted_weaken; [|exact Hs].
    intros a b _ _. unfold key_of. destruct reverse;
      rewrite tuple_le_spec; cbn [fst snd]; lia.
  - intros z z' Hz Hz' E. apply Hfree; [| |exact E];
      apply getattr_identities;
      apply (Permutation_in _ (Permutation_sym Hp)); assumption.
Qed.

Lemma group_degrees rt op reverse (l sl : list _Algorithm.Expr) v :
  sorted (_Algorithm.cmp_key rt op) reverse l = Returned sl ->
  StronglySorted
    (fun e e' => if reverse then (degree_of e' <= degree_of e)%Z
                 else (degree_of e <= degree_of e')%Z)
    (filter (fun e => py_eqb (getattr e op) v) sl).
Proof.
  intros Es. pose proof (sorted_by_key _ _ _ _ Es) as Hs.
  apply (StronglySorted_filter (fun e => py_eqb (getattr e op) v)) in Hs.
  eapply StronglySorted_weaken; [|exact Hs].
  intros a b Ha Hb. apply filter_In in Ha, Hb.
  destruct Ha as [_ Ha], Hb as [_ Hb]. apply py_eqb_eq in Ha, Hb.
  unfold key_of. rewrite Ha, Hb.
  destruct reverse; rewrite tuple_le_spec; cbn [fst snd]; lia.
Qed.

Lemma sorted_before {A} (R : A -> A -> Prop) (l : list A) a b :
  StronglySorted R l -> In a l -> In b l -> ~ R b a -> (forall x, R x x) ->
  exists p m s, l = p ++ a :: m ++ b :: s.
Proof.
  intros Hs Ha Hb Hba Hrefl. induction Hs as [|c l Hl IH Hc].
  - contradiction.
  - rewrite Forall_forall in Hc. destruct Ha as [->|Ha].
    + destruct Hb as [->|Hb]; [exfalso; apply Hba, Hrefl|].
      destruct (in_split _ _ Hb) as (m & s & ->). exists [], m, s.
      reflexivity.
    + destruct Hb as [->|Hb]; [exfalso; apply Hba, Hc, Ha|].
      destruct (IH Ha Hb) as (p & m & s & ->). exists (c :: p), m, s.
      reflexivity.
Qed.

Lemma links_incl_app (pre l : list PluginIndex) :
  incl (links l) (links (pre ++ l)).
Proof.
  induction pre as [|a pre IH]; [apply incl_refl|].
  cbn [app]. destruct (pre ++ l) as [|b t] eqn:E.
  - destruct pre; [|discriminate]. simpl in E. subst l. apply incl_refl.
  - rewrite links_cons. apply incl_tl. exact IH.
Qed.

Lemma links_path_between (pre mid post : list PluginIndex) u v :
  path (links (pre ++ u :: mid ++ v :: post)) u v.
Proof.
  eapply path_incl; [apply links_incl_app|].
  apply links_path. apply in_or_app. right. left. reflexivity.
Qed.

Lemma two_in_filter {A} (P : A -> bool) (l : list A) :
  2 <= length (filter P l) ->
  exists p u m v s,
    l = p ++ u :: m ++ v :: s /\ P u = true /\ P v = true.
Proof.
  induction l as [|a l IH]; simpl; [lia|].
  destruct (P a) eqn:Pa; simpl; intros Hlen.
  - destruct (filter P l) as [|b t] eqn:Ef; [simpl in Hlen; lia|].
    assert (Hb : In b (filter P l)) by (rewrite Ef; left; reflexivity).
    apply filter_In in Hb. destruct Hb as [Hb Pb].
    destruct (in_split _ _ Hb) as (m & s & ->).
    exists [], a, m, b, s. auto.
  - destruct (IH Hlen) as (p & u & m & v & s & -> & Pu & Pv).
    exists (a :: p), u, m, v, s. auto.
Qed.

Lemma Returned_inj {A} (a b : A) : Returned a = Returned b -> a = b.
Proof. congruence. Qed.

(** The chain of the group of a left operand, and of a right operand, when
    no two identities collide. *)
Lemma left_group_chain rt (l relations : list _Algorithm.Expr) e :
  _Algorithm.new_relations rt l = Returned relations ->
  collision_free rt l -> In e l ->
  exists sl,
    Permutation l sl
    /\ StronglySorted (fun a b => (degree_of a <= degree_of b)%Z)
         (filter (fun a => py_eqb (left_operand a) (left_operand e)) sl)
    /\ incl (links (left_operand e
                      :: map (@right_operand _)
                           (filter (fun a => py_eqb (left_operand a)
                                               (left_operand e)) sl)))
         relations.
Proof.
  unfold _Algorithm.new_relations, _Algorithm._generate_left_relation_group.
  destruct (sorted (_Algorithm.cmp_key rt left_operand_name) false l)
    as [sl| |] eqn:El; cbn [bind]; try discriminate.
  destruct (mapM _Algorithm._break_left_relation_group
              (_Algorithm._yield_group sl left_operand_name))
    as [lc| |] eqn:Elc; cbn [bind]; try discriminate.
  destruct (_Algorithm._generate_right_relation_group rt l)
    as [rg| |]; cbn [bind]; try discriminate.
  destruct (mapM _Algorithm._break_right_relation_group rg)
    as [rc| |]; cbn [bind]; try discriminate.
  intros [= <-] Hfree He. exists sl.
  pose proof (sorted_perm _ _ _ El) as Hp. split; [exact Hp|].
  split; [exact (@group_degrees rt left_operand_name false l sl
                   (left_operand e) El)|].
  apply (Permutation_in _ Hp) in He.
  destruct (yield_group_spec sl left_operand_name) as (Hc & _).
  rewrite <- Hc in He. apply in_concat in He. destruct He as (g & Hg & Heg).
  pose proof (@sorted_groups rt left_operand_name false l sl El Hfree)
    as Hgroups.
  rewrite Forall_forall in Hgroups. destruct (Hgroups g Hg) as (v & Hne & Eg).
  assert (Hv : v = left_operand e).
  { rewrite Eg in Heg. apply filter_In in Heg. destruct Heg as [_ H].
    apply py_eqb_eq in H. cbn [getattr] in H. congruence. }
  subst v. cbn [getattr] in Eg. rewrite <- Eg.
  destruct (mapM_In _ _ _ Elc Hg) as (c & Hbreak & Hcin).
  destruct g as [|e0 g']; [contradiction|].
  rewrite break_left_chain in Hbreak.
  assert (He0 : left_operand e0 = left_operand e).
  { assert (H : In e0 (e0 :: g')) by (left; reflexivity).
    rewrite Eg in H. apply filter_In in H. destruct H as [_ H].
    apply py_eqb_eq in H. exact H. }
  rewrite He0 in Hbreak.
  assert (Ec : c = links (left_operand e
                            :: map (@right_operand _) (e0 :: g')))
    by congruence.
  rewrite <- Ec. intros a Ha. apply in_or_app. left. apply in_concat. eauto.
Qed.

Lemma right_group_chain rt (l relations : list _Algorithm.Expr) e :
  _Algorithm.new_relations rt l = Returned relations ->
  collision_free rt l -> In e l ->
  exists sr,
    Permutation l sr
    /\ StronglySorted (fun a b => (degree_of b <= degree_of a)%Z)
         (filter (fun a => py_eqb (right_operand a) (right_operand e)) sr)
    /\ incl (links (map (@left_operand _)
                      (filter (fun a => py_eqb (right_operand a)
                                          (right_operand e)) sr)
                    ++ [right_operand e]))
         relations.
Proof.
  unfold _Algorithm.new_relations, _Algorithm._generate_right_relation_group.
  destruct (_Algorithm._generate_left_relation_group rt l)
    as [lg| |]; cbn [bind]; try discriminate.
  destruct (mapM _Algorithm._break_left_relation_group lg)
    as [lc| |]; cbn [bind]; try discriminate.
  destruct (sorted (_Algorithm.cmp_key rt right_operand_name) true l)
    as [sr| |] eqn:Er; cbn [bind]; try discriminate.
  destruct (mapM _Algorithm._break_right_relation_group
              (_Algorithm._yield_group sr right_operand_name))
    as [rc| |] eqn:Erc; cbn [bind]; try discriminate.
  intros [= <-] Hfree He. exists sr.
  pose proof (sorted_perm _ _ _ Er) as Hp. split; [exact Hp|].
  split; [exact (@group_degrees rt right_operand_name true l sr
                   (right_operand e) Er)|].
  apply (Permutation_in _ Hp) in He.
  destruct (yield_group_spec sr right_operand_name) as (Hc & _).
  rewrite <- Hc in He. apply in_concat in He. destruct He as (g & Hg & Heg).
  pose proof (@sorted_groups rt right_operand_name true l sr Er Hfree)
    as Hgroups.
  rewrite Forall_forall in Hgroups. destruct (Hgroups g Hg) as (v & Hne & Eg).
  assert (Hv : v = right_operand e).
  { rewrite Eg in Heg. apply filter_In in Heg. destruct Heg as [_ H].
    apply py_eqb_eq in H. cbn [getattr] in H. congruence. }
  subst v. cbn [getattr] in Eg. rewrite <- Eg.
  destruct (mapM_In _ _ _ Erc Hg) as (c & Hbreak & Hcin).
  destruct (exists_last Hne) as (g' & e0 & Eg0).
  rewrite Eg0 in Hbreak. rewrite break_right_chain in Hbreak.
  assert (He0 : right_operand e0 = right_operand e).
  { assert (H : In e0 g) by (rewrite Eg0; apply in_or_app; simpl; auto).
    rewrite Eg in H. apply filter_In in H. destruct H as [_ H].
    apply py_eqb_eq in H. exact H. }
  assert (Ec : c = links (map (@left_operand _) g ++ [right_operand e])).
  { apply Returned_inj. rewrite <- Hbreak, Eg0, He0. reflexivity. }
  rewrite <- Ec. intros a Ha. apply in_or_app. right. apply in_concat. eauto.
Qed.

Lemma In_group {A} (P : A -> bool) l l' a :
  Permutation l l' -> In a l -> P a = true -> In a (filter P l').
Proof.
  intros Hp Ha Pa. apply filter_In. split; [|exact Pa].
  eapply Permutation_in; eauto.
Qed.

(** Of two expressions with the same left operand, the right operand of
    the one with the lower degree leads to that of the other. *)
Lemma left_degree_path rt (l relations : list _Algorithm.Expr) e1 e2 :
  _Algorithm.new_relations rt l = Returned relations ->
  collision_free rt l -> In e1 l -> In e2 l ->
  left_operand e1 = left_operand e2 ->
  (degree_of e1 < degree_of e2)%Z ->
  path relations (right_operand e1) (right_operand e2).
Proof.
  intros Hrel Hfree H1 H2 Hleft Hdeg.
  destruct (@left_group_chain rt l relations e1 Hrel Hfree H1)
    as (sl & Hp & Hs & Hincl).
  set (g := filter (fun a => py_eqb (left_operand a) (left_operand e1)) sl)
    in *.
  assert (Hg1 : In e1 g)
    by (apply (@In_group _ _ _ _ _ Hp H1), py_eqb_refl).
  assert (Hg2 : In e2 g).
  { apply (@In_group _ _ _ _ _ Hp H2). rewrite Hleft. apply py_eqb_refl. }
  destruct (@sorted_before _ _ _ _ _ Hs Hg1 Hg2) as (p & m & s & Eg);
    [lia | intros; lia|].
  eapply path_incl; [exact Hincl|]. rewrite Eg, map_app. cbn [map].
  rewrite map_app. cbn [map].
  apply (links_path_between (left_operand e1 :: map _ p)).
Qed.

(** Of two expressions with the same right operand, the left operand of
    the one with the higher degree leads to that of the other. *)
Lemma right_degree_path rt (l relations : list _Algorithm.Expr) e1 e2 :
  _Algorithm.new_relations rt l = Returned relations ->
  collision_free rt l -> In e1 l -> In e2 l ->
  right_operand e1 = right_operand e2 ->
  (degree_of e2 < degree_of e1)%Z ->
  path relations (left_operand e1) (left_operand e2).
Proof.
  intros Hrel Hfree H1 H2 Hright Hdeg.
  destruct (@right_group_chain rt l relations e1 Hrel Hfree H1)
    as (sr & Hp & Hs & Hincl).
  set (g := filter (fun a => py_eqb (right_operand a) (right_operand e1)) sr)
    in *.
  assert (Hg1 : In e1 g)
    by (apply (@In_group _ _ _ _ _ Hp H1), py_eqb_refl).
  assert (Hg2 : In e2 g).
  { apply (@In_group _ _ _ _ _ Hp H2). rewrite Hright. apply py_eqb_refl. }
  destruct (@sorted_before _ _ _ _ _ Hs Hg1 Hg2) as (p & m & s & Eg);
    [lia | intros; lia|].
  eapply path_incl; [exact Hincl|]. rewrite Eg, map_app. cbn [map].
  rewrite map_app. cbn [map]. rewrite <- !app_assoc. cbn [app].
  rewrite <- app_assoc. cbn [app].
  apply links_path_between.
Qed.

Lemma filter_perm {A} (P : A -> bool) (l l' : list A) :
  Permutation l l' -> Permutation (filter P l) (filter P l').
Proof.
  induction 1 as [|a l l' _ IH|a b l|l l' l'' _ IH1 _ IH2]; simpl.
  - constructor.
  - destruct (P a); [constructor|]; exact IH.
  - destruct (P a), (P b); try reflexivity. apply perm_swap.
  - etransitivity; eauto.
Qed.

Lemma filter_filter_implied {A} (P Q : A -> bool) (l : list A) :
  (forall a, P a = true -> Q a = true) ->
  filter P (filter Q l) = filter P l.
Proof.
  intros Himp. induction l as [|a l IH]; simpl; [reflexivity|].
  destruct (Q a) eqn:Qa; simpl; [rewrite IH; reflexivity|].
  destruct (P a) eqn:Pa; [|exact IH]. rewrite (Himp a Pa) in Qa. discriminate.
Qed.

(** Two expressions of the list with the same left operand and the same
    right operand put a cycle into the merged edges. *)
Lemma repeated_cycle rt (l relations a b c : list _Algorithm.Expr) e1 e2 :
  _Algorithm.new_relations rt l = Returned relations ->
  collision_free rt l ->
  l = a ++ e1 :: b ++ e2 :: c ->
  left_operand e1 = left_operand e2 ->
  right_operand e1 = right_operand e2 ->
  has_cycle relations.
Proof.
  intros Hrel Hfree El Hleft Hright.
  assert (H1 : In e1 l) by (rewrite El; apply in_or_app; simpl; auto).
  destruct (@left_group_chain rt l relations e1 Hrel Hfree H1)
    as (sl & Hp & _ & Hincl).
  set (Q := fun x : _Algorithm.Expr =>
              py_eqb (left_operand x) (left_operand e1)) in *.
  set (P := fun x : _Algorithm.Expr =>
              (py_eqb (left_operand x) (left_operand e1)
               && py_eqb (right_operand x) (right_operand e1))%bool).
  assert (Hlen : 2 <= length (filter P (filter Q sl))).
  { rewrite (filter_filter_implied P Q).
    - rewrite <- (Permutation_length (filter_perm P Hp)), El.
      rewrite !filter_app. cbn [filter].
      assert (P1 : P e1 = true) by (unfold P; rewrite !py_eqb_refl; auto).
      assert (P2 : P e2 = true)
        by (unfold P; rewrite <- Hleft, <- Hright, !py_eqb_refl; auto).
      rewrite P1. rewrite !length_app. cbn [length].
      rewrite filter_app. cbn [filter]. rewrite P2, length_app.
      cbn [length]. lia.
    - intros x Hx. unfold P in Hx. apply andb_true_iff in Hx. apply Hx. }
  destruct (two_in_filter P _ Hlen) as (p & u & m & v & s & Eg & Pu & Pv).
  exists (right_operand e1). eapply path_incl; [exact Hincl|].
  change (filter (fun a0 : PluginExpr PluginIndex =>
                    py_eqb (left_operand a0) (left_operand e1)) sl)
    with (filter Q sl).
  rewrite Eg, map_app. cbn [map]. rewrite map_app. cbn [map].
  unfold P in Pu, Pv. apply andb_true_iff in Pu, Pv.
  destruct Pu as [_ Pu], Pv as [_ Pv]. apply py_eqb_eq in Pu, Pv.
  rewrite Pu, Pv.
  apply (links_path_between (left_operand e1 :: map _ p)).
Qed.

Lemma says_working (exprs : list _Algorithm.Expr) x y d :
  says exprs x y d ->
  exists e, In e (map SequenceParser.rewritten (filter has_relation exprs))
    /\ left_operand e = x /\ right_operand e = y /\ degree_of e = d.
Proof.
  intros (e & He & Hr). exists (SequenceParser.rewritten e).
  assert (Hrel : has_relation e = true).
  { unfold reading in Hr. unfold has_relation.
    destruct (relation e); [reflexivity | discriminate]. }
  split; [apply in_map, filter_In; auto|].
  destruct (rewritten_forward e Hrel) as [(d' & Hd & Hread) Hsame].
  rewrite Hsame, Hr in Hread. injection Hread as <- <- <-.
  unfold degree_of. rewrite Hd. auto.
Qed.

Lemma collision_free_working rt (exprs : list _Algorithm.Expr) :
  collision_free rt exprs ->
  collision_free rt (map SequenceParser.rewritten (filter has_relation exprs)).
Proof.
  intros Hfree a b Ha Hb. apply Hfree; apply identities_In.
  - apply rewritten_identities_iff, identities_In in Ha.
    destruct Ha as (e & He & Hx). exists e. apply filter_In in He. tauto.
  - apply rewritten_identities_iff, identities_In in Hb.
    destruct Hb as (e & He & Hx). exists e. apply filter_In in He. tauto.
Qed.

Lemma merged_edges_working rt (exprs relations : list _Algorithm.Expr) :
  merged_edges rt exprs = Returned relations ->
  _Algorithm.new_relations rt
    (map SequenceParser.rewritten (filter has_relation exprs))
  = Returned relations.
Proof.
  unfold merged_edges. rewrite normalization_spec. cbn [bind]. auto.
Qed.

(** X16. The degree among directives with the same successor: when the
    identities of the batch have distinct hashes and [x1 <<p y] and
    [x2 <<q y] are said with [p < q], the returned sequence has [x2], the
    one of higher degree, first: [x1] does not occur before the first
    occurrence of [x2]. *)
Theorem X16_higher_degree_first (rt : Runtime)
    (exprs : list _Algorithm.Expr) (order : list PluginIndex)
    (x1 x2 y : PluginIndex) (p q : Z) :
  collision_free rt exprs ->
  _Algorithm.generate_sequence rt exprs = Returned order ->
  says exprs x1 y p -> says exprs x2 y q -> (p < q)%Z ->
  In x2 order ->
  first_before order x2 x1.
Proof.
  intros Hfree Hseq H1 H2 Hpq Hx.
  destruct (merged_edges_total rt exprs) as (relations & Hrel).
  pose proof (algorithm_sequence_outcome rt exprs Hrel) as Hout.
  rewrite Hseq in Hout. destruct Hout as [_ Hord].
  apply Hord; [|exact Hx].
  destruct (says_working H1) as (e1 & He1 & <- & Hy1 & Hd1).
  destruct (says_working H2) as (e2 & He2 & <- & Hy2 & Hd2).
  apply (@right_degree_path rt _ relations e2 e1
           (merged_edges_working _ _ Hrel)
           (collision_free_working Hfree) He2 He1); [congruence | lia].
Qed.

(** X17. The degree among directives with the same predecessor: when the
    identities of the batch have distinct hashes and [x <<p y1] and
    [x <<q y2] are said with [p < q], the returned sequence has [y1], the
    one of lower degree, first: [y2] does not occur before the first
    occurrence of [y1]. *)
Theorem X17_lower_degree_first (rt : Runtime)
    (exprs : list _Algorithm.Expr) (order : list PluginIndex)
    (x y1 y2 : PluginIndex) (p q : Z) :
  collision_free rt exprs ->
  _Algorithm.generate_sequence rt exprs = Returned order ->
  says exprs x y1 p -> says exprs x y2 q -> (p < q)%Z ->
  In y1 order ->
  first_before order y1 y2.
Proof.
  intros Hfree Hseq H1 H2 Hpq Hy.
  destruct (merged_edges_total rt exprs) as (relations & Hrel).
  pose proof (algorithm_sequence_outcome rt exprs Hrel) as Hout.
  rewrite Hseq in Hout. destruct Hout as [_ Hord].
  apply Hord; [|exact Hy].
  destruct (says_working H1) as (e1 & He1 & Hx1 & <- & Hd1).
  destruct (says_working H2) as (e2 & He2 & Hx2 & <- & Hd2).
  apply (@left_degree_path rt _ relations e1 e2
           (merged_edges_working _ _ Hrel)
           (collision_free_working Hfree) He1 He2); [congruence | lia].
Qed.

(** X18. A directive said twice is a cycle: when the identities of the
    batch have distinct hashes and two expressions of the batch both read
    "[x] precedes [y]", with whatever degrees and written either way,
    [generate_sequence] raises the ordering [SyntaxError]. *)
Theorem X18_repeated_directive_raises (rt : Runtime)
    (before between after : list _Algorithm.Expr)
    (e1 e2 : _Algorithm.Expr) (x y : PluginIndex) (d1 d2 : Z) :
  collision_free rt (before ++ e1 :: between ++ e2 :: after) ->
  reading e1 = Some (x, y, d1) -> reading e2 = Some (x, y, d2) ->
  exists lhs rhs,
    _Algorithm.generate_sequence rt
      (before ++ e1 :: between ++ e2 :: after)
    = Raised (SyntaxError (SomethingWrong lhs rhs)).
Proof.
  intros Hfree Hr1 Hr2.
  set (exprs := before ++ e1 :: between ++ e2 :: after) in *.
  destruct (merged_edges_total rt exprs) as (relations & Hrel).
  pose proof (algorithm_sequence_outcome rt exprs Hrel) as Hout.
  assert (Hrel1 : has_relation e1 = true /\ has_relation e2 = true).
  { unfold reading in Hr1, Hr2. unfold has_relation.
    destruct (relation e1), (relation e2); try discriminate. auto. }
  destruct Hrel1 as (Hh1 & Hh2).
  assert (Hc : has_cycle relations).
  { apply (@repeated_cycle rt _ relations
             (map SequenceParser.rewritten (filter has_relation before))
             (map SequenceParser.rewritten (filter has_relation between))
             (map SequenceParser.rewritten (filter has_relation after))
             (SequenceParser.rewritten e1) (SequenceParser.rewritten e2)
             (merged_edges_working _ _ Hrel)
             (collision_free_working Hfree)).
    - unfold exprs. rewrite filter_app. cbn [filter]. rewrite Hh1.
      rewrite filter_app. cbn [filter]. rewrite Hh2.
      rewrite map_app. cbn [map]. rewrite map_app. reflexivity.
    - destruct (rewritten_forward e1 Hh1) as [(a & _ & Ha) Hsa].
      destruct (rewritten_forward e2 Hh2) as [(b & _ & Hb) Hsb].
      rewrite Hsa, Hr1 in Ha. rewrite Hsb, Hr2 in Hb. congruence.
    - destruct (rewritten_forward e1 Hh1) as [(a & _ & Ha) Hsa].
      destruct (rewritten_forward e2 Hh2) as [(b & _ & Hb) Hsb].
      rewrite Hsa, Hr1 in Ha. rewrite Hsb, Hr2 in Hb. congruence. }
  destruct (_Algorithm.generate_sequence rt exprs) as [order|e|].
  - destruct Hout as [Hacyc _]. contradiction.
  - destruct Hout as (_ & lhs & rhs & ->). eauto.
  - contradiction.
Qed.

Ltac collision_free_by_cases :=
  let a := fresh "a" in let b := fresh "b" in
  let Ha := fresh "Ha" in let Hb := fresh "Hb" in let H := fresh "H" in
  intros a b Ha Hb H; simpl in Ha, Hb;
  repeat (destruct Ha as [Ha|Ha]; [subst a|]); try contradiction;
  repeat (destruct Hb as [Hb|Hb]; [subst b|]); try contradiction;
  try reflexivity; vm_compute in H; discriminate H.

Lemma X16_witness :
  first_before
    [ix "pre_load" "loader_c"; ix "pre_load" "loader_a";
     ix "pre_load" "loader_b"]
    (ix "pre_load" "loader_c") (ix "pre_load" "loader_a").
Proof.
  apply (@X16_higher_degree_first runtime_loaders scenario_A _
           (ix "pre_load" "loader_a") (ix "pre_load" "loader_c")
           (ix "pre_load" "loader_b") 0%Z 1%Z).
  - collision_free_by_cases.
  - vm_compute. reflexivity.
  - eexists. split; [left; reflexivity | reflexivity].
  - eexists. split; [right; left; reflexivity | reflexivity].
  - lia.
  - simpl. auto.
Defined.

Lemma X17_witness :
  first_before
    [ix "pre_load" "loader_a"; ix "pre_load" "loader_c";
     ix "pre_load" "loader_b"]
    (ix "pre_load" "loader_c") (ix "pre_load" "loader_b").
Proof.
  apply (@X17_lower_degree_first runtime_loaders two_successors _
           (ix "pre_load" "loader_a") (ix "pre_load" "loader_c")
           (ix "pre_load" "loader_b") 0%Z 1%Z).
  - collision_free_by_cases.
  - vm_compute. reflexivity.
  - eexists. split; [right; left; reflexivity | reflexivity].
  - eexists. split; [left; reflexivity | reflexivity].
  - lia.
  - simpl. auto.
Defined.

Lemma X18_witness :
  exists lhs rhs,
    _Algorithm.generate_sequence runtime_loaders
      ([] ++ mkExpr (ix "pre_load" "loader_a") (ix "pre_load" "loader_b")
                    (Some (mkRel true 0))
          :: [] ++ mkExpr (ix "pre_load" "loader_b")
                          (ix "pre_load" "loader_a") (Some (mkRel false 0))
          :: [])
    = Raised (SyntaxError (SomethingWrong lhs rhs)).
Proof.
  apply (@X18_repeated_directive_raises runtime_loaders [] [] []
           (mkExpr (ix "pre_load" "loader_a") (ix "pre_load" "loader_b")
                   (Some (mkRel true 0)))
           (mkExpr (ix "pre_load" "loader_b") (ix "pre_load" "loader_a")
                   (Some (mkRel false 0)))
           (ix "pre_load" "loader_a") (ix "pre_load" "loader_b") 0%Z 0%Z).
  - collision_free_by_cases.
  - reflexivity.
  - reflexivity.
Defined.

(** X19. The groups of the chain builder when the identities of the list
    have distinct hashes: [_generate_left_relation_group] returns one group
    per left operand, holding all the expressions with that operand in
    ascending degree; [_generate_right_relation_group] one per right
    operand, in descending degree. *)
Theorem X19_one_group_per_operand (rt : Runtime)
    (exprs : list _Algorithm.Expr) :
  collision_free rt exprs ->
  Forall (fun e => has_relation e = true) exprs ->
  (exists groups,
     _Algorithm._generate_left_relation_group rt exprs = Returned groups
     /\ Permutation exprs (concat groups)
     /\ Forall (fun g => exists x,
                  g <> []
                  /\ g = filter (fun e => py_eqb (left_operand e) x)
                           (concat groups)
                  /\ StronglySorted
                       (fun a b => (degree_of a <= degree_of b)%Z) g)
          groups)
  /\ exists groups,
       _Algorithm._generate_right_relation_group rt exprs = Returned groups
       /\ Permutation exprs (concat groups)
       /\ Forall (fun g => exists y,
                    g <> []
                    /\ g = filter (fun e => py_eqb (right_operand e) y)
                             (concat groups)
                    /\ StronglySorted
                         (fun a b => (degree_of b <= degree_of a)%Z) g)
            groups.
Proof.
  intros Hfree Hrel.
  unfold _Algorithm._generate_left_relation_group,
    _Algorithm._generate_right_relation_group.
  destruct (sorted_total rt left_operand_name false Hrel) as (sl & El & Hpl).
  destruct (sorted_total rt right_operand_name true Hrel) as (sr & Er & Hpr).
  rewrite El, Er. cbn [bind]. split; eexists; (split; [reflexivity|]).
  - rewrite (proj1 (yield_group_spec sl left_operand_name)).
    split; [exact Hpl|].
    pose proof (@sorted_groups rt left_operand_name false exprs sl El Hfree)
      as Hg.
    eapply Forall_impl; [|exact Hg]. intros g (x & Hne & ->).
    exists x. split; [exact Hne|]. split; [reflexivity|].
    exact (@group_degrees rt left_operand_name false exprs sl x El).
  - rewrite (proj1 (yield_group_spec sr right_operand_name)).
    split; [exact Hpr|].
    pose proof (@sorted_groups rt right_operand_name true exprs sr Er Hfree)
      as Hg.
    eapply Forall_impl; [|exact Hg]. intros g (y & Hne & ->).
    exists y. split; [exact Hne|]. split; [reflexivity|].
    exact (@group_degrees rt right_operand_name true exprs sr y Er).
Qed.


Lemma X19_witness :
  (exists groups,
     _Algorithm._generate_left_relation_group runtime_loaders scenario_A
     = Returned groups
     /\ Permutation scenario_A (concat groups)
     /\ Forall (fun g => exists x,
                  g <> []
                  /\ g = filter (fun e => py_eqb (left_operand e) x)
                           (concat groups)
                  /\ StronglySorted
                       (fun a b => (degree_of a <= degree_of b)%Z) g)
          groups)
  /\ exists groups,
       _Algorithm._generate_right_relation_group runtime_loaders scenario_A
       = Returned groups
       /\ Permutation scenario_A (concat groups)
       /\ Forall (fun g => exists y,
                    g <> []
                    /\ g = filter (fun e => py_eqb (right_operand e) y)
                             (concat groups)
                    /\ StronglySorted
                         (fun a b => (degree_of b <= degree_of a)%Z) g)
            groups.
Proof.
  apply (@X19_one_group_per_operand runtime_loaders scenario_A).
  - collision_free_by_cases.
  - repeat constructor.
Defined.
